(** * Neighbourhood processing ([improver/nbhood.py])

    A shallow embedding of [BasicNeighbourhoodProcessing] and the properties
    of its radius resolver, kernel builder, convolver and orchestration.

    Conventions of the embedding.
    - A float is the rational it denotes ([Q]).  The radius resolver, whose
      integer results depend on it, computes in binary64 with its rounding
      ([float64]); the weights, the data and the lead times are computed
      exactly.  Array cells of a cube are [cell]s of floating-point data, a
      rational or [NaN].
    - Functions of numpy, scipy and iris are embedded from their documented
      behaviour, as far as this module uses them.
    - Python exceptions are values of [exn]; a raising function returns
      [Raise e], a returning one [Ok v].
    - A numpy array is a shape and its elements in row-major (C) order.
    - An iris cube is its data array and its named coordinates; a coordinate
      is one-dimensional or scalar. *)

From Stdlib Require Import String.
From Stdlib Require Import QArith Qabs Qround Qpower ZArith List Bool Lia Arith.
Import ListNotations.
Open Scope string_scope.
Open Scope list_scope.

(** ** Exceptions and results *)

(** Units known to the embedding, with iris' [convert_units] between units
    of one dimension. *)
Inductive unit_t : Type :=
| Metres | Kilometres
| Hours | Minutes | Seconds
| HoursSinceEpoch | SecondsSinceEpoch
| NoUnit.

(** A message is kept as the pieces that [str.format] assembles, so that a
    formatted value stays visible in it. *)
Inductive msg_part : Type :=
| Lit (s : string)
| FmtFloat (q : Q)
| FmtCube (name : string)
| FmtUnits (from to : unit_t).

Definition message := list msg_part.

Inductive exn : Type :=
| ValueError (msg : message)
| TypeError (msg : message)
| IndexError (msg : message)
| OverflowError (msg : message)
| RuntimeError (msg : message)
| CoordinateNotFoundError (msg : message).

Inductive result (A : Type) : Type :=
| Ok (a : A)
| Raise (e : exn).
Arguments Ok {A} a.
Arguments Raise {A} e.

Definition bind {A B} (r : result A) (k : A -> result B) : result B :=
  match r with
  | Ok a => k a
  | Raise e => Raise e
  end.

Notation "x <- c ;; k" := (bind c (fun x => k))
  (at level 61, c at next level, right associativity).
Notation "' pat <- c ;; k" := (bind c (fun x => match x with pat => k end))
  (at level 61, pat pattern, c at next level, right associativity).

(** ** The plugin and its constructor *)

(** The argument [radii_in_km] of the constructor: "float or List". *)
Inductive radii_t : Type :=
| RFloat (r : Q)
| RList (rs : list Q).

Record plugin : Type := mk_plugin {
  radii_in_km : radii_t;
  lead_times : option (list Q);
  unweighted_mode : bool
}.

(** Max extent of kernel in grid cells. *)
Definition MAX_KERNEL_CELL_RADIUS : Z := 500.

(** [len()] of the constructor argument: a float has no length. *)
Definition py_len (r : radii_t) : result nat :=
  match r with
  | RList rs => Ok (List.length rs)
  | RFloat _ =>
      Raise (TypeError [Lit "object of type 'float' has no len()"])
  end.

Definition mismatch_msg : message :=
  [Lit "There is a mismatch in the number of radii ";
   Lit "and the number of lead times. ";
   Lit "Unable to continue due to mismatch."].

Definition __init__ (radii : radii_t) (lts : option (list Q))
    (unweighted : bool) : result plugin :=
  let self_radii :=
    match radii with
    | RList rs => RList rs          (* map(float, radii_in_km) *)
    | RFloat r => RFloat r          (* float(radii_in_km) *)
    end in
  _ <- match lts with
       | None => Ok tt
       | Some l =>
           n <- py_len radii ;;
           if negb (Nat.eqb n (List.length l))
           then Raise (ValueError mismatch_msg)
           else Ok tt
       end ;;
  Ok (mk_plugin self_radii lts unweighted).

(** ** Coordinates and units *)

Inductive dimension : Type := Length | Duration | TimePoint | Dimensionless.

Definition dimension_of (u : unit_t) : dimension :=
  match u with
  | Metres | Kilometres => Length
  | Hours | Minutes | Seconds => Duration
  | HoursSinceEpoch | SecondsSinceEpoch => TimePoint
  | NoUnit => Dimensionless
  end.

Definition dimension_eqb (a b : dimension) : bool :=
  match a, b with
  | Length, Length | Duration, Duration
  | TimePoint, TimePoint | Dimensionless, Dimensionless => true
  | _, _ => false
  end.

(** Size of one unit in the base unit of its dimension (metres, hours,
    hours since the epoch). *)
Definition unit_scale (u : unit_t) : Q :=
  match u with
  | Metres => 1
  | Kilometres => 1000
  | Hours => 1
  | Minutes => 1 # 60
  | Seconds => 1 # 3600
  | HoursSinceEpoch => 1
  | SecondsSinceEpoch => 1 # 3600
  | NoUnit => 1
  end.

(** A coordinate: its name, points, units and the data dimension it spans
    ([None] for a scalar coordinate). *)
Record coord : Type := mk_coord {
  coord_name : string;
  points : list Q;
  units : unit_t;
  coord_dim : option nat
}.

Definition unit_eqb (a b : unit_t) : bool :=
  match a, b with
  | Metres, Metres | Kilometres, Kilometres | Hours, Hours
  | Minutes, Minutes | Seconds, Seconds
  | HoursSinceEpoch, HoursSinceEpoch
  | SecondsSinceEpoch, SecondsSinceEpoch | NoUnit, NoUnit => true
  | _, _ => false
  end.

(** [coord.convert_units(target)], in place in Python: the points are
    rescaled and the units replaced; units of another dimension raise
    [ValueError]; converting to the coordinate's own units changes
    nothing. *)
Definition convert_units (c : coord) (target : unit_t) : result coord :=
  if unit_eqb (units c) target then Ok c
  else if dimension_eqb (dimension_of (units c)) (dimension_of target)
  then Ok (mk_coord (coord_name c)
             (map (fun p => p * unit_scale (units c) / unit_scale target)
                  (points c))
             target (coord_dim c))
  else Raise (ValueError [Lit "Unable to convert from ";
                          FmtUnits (units c) target]).

(** ** Arrays and cubes *)

(** A cell of a data array. *)
Inductive cell : Type :=
| Val (q : Q)
| NaN.

Record ndarray (A : Type) : Type := mk_ndarray {
  shape : list nat;
  elems : list A
}.
Arguments mk_ndarray {A} shape elems.
Arguments shape {A} n.
Arguments elems {A} n.

Record cube : Type := mk_cube {
  cube_name : string;
  data : ndarray cell;
  coords : list coord
}.

(** [cube.coords(name)]: the coordinates of that name. *)
Definition cube_coords (c : cube) (name : string) : list coord :=
  filter (fun k => String.eqb (coord_name k) name) (coords c).

(** [cube.coord(name)]: the one coordinate of that name. *)
Definition cube_coord (c : cube) (name : string) : result coord :=
  match cube_coords c name with
  | [k] => Ok k
  | _ => Raise (CoordinateNotFoundError
                  [Lit "Expected to find exactly 1 coordinate: "; Lit name])
  end.

(** [cube.coord_dims(name)[0]]: a scalar coordinate spans no dimension. *)
Definition cube_coord_dim0 (c : cube) (name : string) : result nat :=
  k <- cube_coord c name ;;
  match coord_dim k with
  | Some d => Ok d
  | None => Raise (IndexError [Lit "tuple index out of range"])
  end.

(** ** Radius resolver *)

(** [int(x)] of a float: truncation towards zero. *)
Definition py_int (q : Q) : Z := Z.quot (Qnum q) (Zpos (Qden q)).

(** *** Binary64

    The resolver multiplies and divides a Python float and numpy float64
    values, which are IEEE 754 binary64: every operation gives the double
    nearest to its exact result, ties to the even significand, an infinity
    beyond the largest double and a NaN where the result is undefined.
    Zero has no sign here. *)
Inductive float64 : Type :=
| Finite (q : Q)
| Infinity (negative : bool)
| NotANumber.

Definition pow2 (e : Z) : Q := 2 ^ e.

(** The integer part of the binary logarithm of a positive rational. *)
Definition ilog2 (q : Q) : Z :=
  let l := (Z.log2 (Qnum q) - Z.log2 (Z.pos (Qden q)))%Z in
  if Qle_bool (pow2 l) q then l else (l - 1)%Z.

(** The nearest integer, ties to even. *)
Definition rne (q : Q) : Z :=
  let f := Qfloor q in
  match Qcompare (q - inject_Z f) (1 # 2) with
  | Lt => f
  | Gt => (f + 1)%Z
  | Eq => if Z.even f then f else (f + 1)%Z
  end.

(** The exponent of the last bit of the 53-bit significand; it stops at
    that of the subnormal doubles. *)
Definition exponent (a : Q) : Z := Z.max (ilog2 a - 52) (-1074).

Definition round_pos (a : Q) : Q :=
  Qred (inject_Z (rne (a / pow2 (exponent a))) * pow2 (exponent a)).

Definition round_nearest (q : Q) : Q :=
  match Qnum q with
  | Z0 => 0
  | Zpos _ => round_pos q
  | Zneg _ => - round_pos (- q)
  end.

Definition Qneg (q : Q) : bool :=
  match Qnum q with
  | Zneg _ => true
  | _ => false
  end.

(** The double nearest to a rational. *)
Definition round64 (q : Q) : float64 :=
  let v := round_nearest q in
  if Qle_bool (pow2 1024) (Qabs v) then Infinity (Qneg q) else Finite v.

Definition f64_abs (x : float64) : float64 :=
  match x with
  | Finite q => Finite (Qabs q)
  | Infinity _ => Infinity false
  | NotANumber => NotANumber
  end.

Definition f64_sub (x y : float64) : float64 :=
  match x, y with
  | Finite a, Finite b => round64 (a - b)
  | Finite _, Infinity t => Infinity (negb t)
  | Infinity s, Finite _ => Infinity s
  | Infinity s, Infinity t => if Bool.eqb s t then NotANumber else Infinity s
  | _, _ => NotANumber
  end.

Definition f64_mul (x y : float64) : float64 :=
  match x, y with
  | Finite a, Finite b => round64 (a * b)
  | Finite a, Infinity t =>
      if Qeq_bool a 0 then NotANumber else Infinity (xorb (Qneg a) t)
  | Infinity s, Finite b =>
      if Qeq_bool b 0 then NotANumber else Infinity (xorb s (Qneg b))
  | Infinity s, Infinity t => Infinity (xorb s t)
  | _, _ => NotANumber
  end.

(** Division as numpy does it: a division by zero gives an infinity, or a
    NaN for zero by zero, and no exception. *)
Definition f64_div (x y : float64) : float64 :=
  match x, y with
  | Finite a, Finite b =>
      if Qeq_bool b 0
      then if Qeq_bool a 0 then NotANumber else Infinity (Qneg a)
      else round64 (a / b)
  | Finite _, Infinity _ => Finite 0
  | Infinity s, Finite b => Infinity (xorb s (Qneg b))
  | _, _ => NotANumber
  end.

(** [int(x)] of a double: truncation, which an infinity and a NaN
    refuse. *)
Definition int_of_float (x : float64) : result Z :=
  match x with
  | Finite q => Ok (py_int q)
  | Infinity _ =>
      Raise (OverflowError [Lit "cannot convert float infinity to integer"])
  | NotANumber => Raise (ValueError [Lit "cannot convert float NaN to integer"])
  end.

(** [int(num / den)]. *)
Definition int_of_quotient (num den : float64) : result Z :=
  int_of_float (f64_div num den).

(** [convert_units] on the copy of a spatial coordinate, whose points are
    an array of doubles: each double is multiplied by the factor between
    the two units (1000 from kilometres to metres); equal units leave the
    points as they are and units of another dimension raise, as in
    [convert_units]. *)
Definition convert_units64 (c : coord) (target : unit_t)
    : result (list float64) :=
  if unit_eqb (units c) target then Ok (map round64 (points c))
  else if dimension_eqb (dimension_of (units c)) (dimension_of target)
  then Ok (map (fun p =>
                  f64_mul (round64 p)
                    (round64 (unit_scale (units c) / unit_scale target)))
               (points c))
  else Raise (ValueError [Lit "Unable to convert from ";
                          FmtUnits (units c) target]).

(** [pts[1] - pts[0]] on an array of doubles. *)
Definition first_difference (pts : list float64) : result float64 :=
  match pts with
  | p0 :: p1 :: _ => Ok (f64_sub p1 p0)
  | _ => Raise (IndexError [Lit "index 1 is out of bounds"])
  end.

Definition invalid_grid_msg : message :=
  [Lit "Invalid grid: projection_x/y coords required"].

Definition radius_msg (radius_in_km : Q) (what : string) : message :=
  [Lit "Neighbourhood processing radius of ";
   FmtFloat radius_in_km; Lit " km "; Lit what].

(** The [try] block of the resolver: both coordinates, copied. *)
Definition spatial_coords (c : cube) : result (coord * coord) :=
  match (x <- cube_coord c "projection_x_coordinate" ;;
         y <- cube_coord c "projection_y_coordinate" ;;
         Ok (x, y)) with
  | Raise (CoordinateNotFoundError _) => Raise (ValueError invalid_grid_msg)
  | r => r
  end.

(** The bounds checks on the two cell counts. *)
Definition check_cell_extents (radius_in_km : Q) (grid_cells_x grid_cells_y : Z)
    : result (Z * Z) :=
  _ <- (if (grid_cells_x =? 0)%Z || (grid_cells_y =? 0)%Z
        then Raise (ValueError (radius_msg radius_in_km "gives zero cell extent"))
        else if (grid_cells_x <? 0)%Z || (grid_cells_y <? 0)%Z
        then Raise (ValueError
                      (radius_msg radius_in_km "gives a negative cell extent"))
        else Ok tt) ;;
  if (grid_cells_x >? MAX_KERNEL_CELL_RADIUS)%Z
     || (grid_cells_y >? MAX_KERNEL_CELL_RADIUS)%Z
  then Raise (ValueError
                (radius_msg radius_in_km "exceeds maximum grid cell extent"))
  else Ok (grid_cells_x, grid_cells_y).

(** The grid spacings in metres, east then north: the first difference of
    the points of copies of the two coordinates. *)
Definition grid_spacings (c : cube) : result (float64 * float64) :=
  '(x_coord, y_coord) <- spatial_coords c ;;
  x_points <- convert_units64 x_coord Metres ;;
  y_points <- convert_units64 y_coord Metres ;;
  d_north_metres <- first_difference y_points ;;
  d_east_metres <- first_difference x_points ;;
  Ok (d_east_metres, d_north_metres).

Definition _get_grid_x_y_kernel_ranges (c : cube) (radius_in_km : Q)
    : result (Z * Z) :=
  '(d_east_metres, d_north_metres) <- grid_spacings c ;;
  let radius_in_metres := f64_mul (round64 radius_in_km) (Finite 1000) in
  grid_cells_y <- int_of_quotient radius_in_metres (f64_abs d_north_metres) ;;
  grid_cells_x <- int_of_quotient radius_in_metres (f64_abs d_east_metres) ;;
  check_cell_extents radius_in_km grid_cells_x grid_cells_y.

(** ** Array operations *)

Definition size_of (sh : list nat) : nat := fold_right Nat.mul 1%nat sh.

(** Position of a multi-index in row-major order. *)
Fixpoint ravel (sh idx : list nat) : nat :=
  match sh, idx with
  | _ :: sh', i :: idx' => i * size_of sh' + ravel sh' idx'
  | _, _ => 0
  end.

(** All multi-indices of a shape, in row-major order. *)
Fixpoint indices (sh : list nat) : list (list nat) :=
  match sh with
  | [] => [[]]
  | n :: sh' => flat_map (fun i => map (cons i) (indices sh')) (seq 0 n)
  end.

Definition get {A} (d : A) (a : ndarray A) (idx : list nat) : A :=
  nth (ravel (shape a) idx) (elems a) d.

(** [l[k] = v]. *)
Fixpoint upd {A} (l : list A) (k : nat) (v : A) : list A :=
  match l, k with
  | [], _ => []
  | _ :: l', O => v :: l'
  | a :: l', S k' => a :: upd l' k' v
  end.

Definition set_item {A} (l : list A) (k : nat) (v : A) : result (list A) :=
  if (k <? List.length l)%nat then Ok (upd l k v)
  else Raise (IndexError [Lit "index is out of bounds for axis 0"]).

(** [np.arange(a, b)] on integers. *)
Definition arange (a b : Z) : list Z :=
  map (fun k => (a + Z.of_nat k)%Z) (seq 0 (Z.to_nat (b - a))).

(** [np.ones(dims)]: a negative extent is refused. *)
Definition np_ones (dims : list Z) : result (ndarray Q) :=
  if existsb (fun d => (d <? 0)%Z) dims
  then Raise (ValueError [Lit "negative dimensions are not allowed"])
  else let sh := map Z.to_nat dims in
       Ok (mk_ndarray sh (repeat 1 (size_of sh))).

(** [np.sum([x ** 2 for x in np.ogrid[-rx:rx+1, -ry:ry+1]])]: the column of
    squared x offsets plus the row of squared y offsets, broadcast to a
    two-dimensional array indexed (x offset, y offset). *)
Definition sum_sq_grid (ranges : Z * Z) : ndarray Z :=
  let g0 := arange (- fst ranges) (fst ranges + 1) in
  let g1 := arange (- snd ranges) (snd ranges + 1) in
  mk_ndarray [List.length g0; List.length g1]
    (flat_map (fun a => map (fun b => (a ^ 2 + b ^ 2)%Z) g1) g0).

(** [np.cumprod(ranges)[-1]]. *)
Definition cumprod_last (ranges : Z * Z) : Z := (fst ranges * snd ranges)%Z.

(** [np.reshape(a, sh)]: the elements keep their row-major order. *)
Definition np_reshape {A} (a : ndarray A) (sh : list nat) : result (ndarray A) :=
  if (size_of sh =? List.length (elems a))%nat
  then Ok (mk_ndarray sh (elems a))
  else Raise (ValueError [Lit "cannot reshape array"]).

(** Broadcasting of an assigned value: leading axes of extent one of the
    value are dropped while it has more axes than the target. *)
Fixpoint squeeze_to (n : nat) (vsh : list nat) : option (list nat) :=
  if (List.length vsh <=? n)%nat then Some vsh
  else match vsh with
       | 1%nat :: vsh' => squeeze_to n vsh'
       | _ => None
       end.

(** The value's axes are aligned with the trailing axes of the target; each
    must have the target's extent or extent one. *)
Definition aligned_ok (vsh tsh : list nat) : bool :=
  forallb (fun p => (fst p =? snd p)%nat || (fst p =? 1)%nat)
          (combine vsh (skipn (List.length tsh - List.length vsh) tsh)).

(** Index into the value for a target index. *)
Definition broadcast_index (vsh idx : list nat) : list nat :=
  map (fun p => if (fst p =? 1)%nat then 0%nat else snd p)
      (combine vsh (skipn (List.length idx - List.length vsh) idx)).

(** [target[:] = value]. *)
Definition assign_all {A} (d : A) (target value : ndarray A)
    : result (ndarray A) :=
  match squeeze_to (List.length (shape target)) (shape value) with
  | Some vsh =>
      if aligned_ok vsh (shape target)
      then Ok (mk_ndarray (shape target)
                 (map (fun idx =>
                         nth (ravel vsh (broadcast_index vsh idx))
                             (elems value) d)
                      (indices (shape target))))
      else Raise (ValueError [Lit "could not broadcast input array"])
  | None => Raise (ValueError [Lit "could not broadcast input array"])
  end.

(** [a[mask] = 0]: a boolean mask of the same shape. *)
Definition zero_where (mask : ndarray bool) (a : ndarray Q) : ndarray Q :=
  mk_ndarray (shape a)
    (map (fun p : bool * Q => if fst p then 0 else snd p)
         (combine (elems mask) (elems a))).

Definition np_sum (a : ndarray Q) : Q := fold_right Qplus 0 (elems a).

(** ** Kernel builder *)

(** The data axes of the two spatial coordinates, x first. *)
Definition spatial_axes (c : cube) : result (list nat) :=
  match (ax <- cube_coord_dim0 c "projection_x_coordinate" ;;
         ay <- cube_coord_dim0 c "projection_y_coordinate" ;;
         Ok [ax; ay]) with
  | Raise (CoordinateNotFoundError _) => Raise (ValueError invalid_grid_msg)
  | r => r
  end.

(** [fullranges[axis] = ranges[axis_index]] for each spatial axis in turn. *)
Definition fill_fullranges (ndim : nat) (axes : list nat) (ranges : Z * Z)
    : result (list Z) :=
  fold_left
    (fun (acc : result (list Z)) (p : nat * Z) =>
       fr <- acc ;; set_item fr (fst p) (snd p))
    (combine axes [fst ranges; snd ranges])
    (Ok (repeat 0%Z ndim)).

(** The kernel of [_apply_kernel_for_smoothing], for data of [ndim] axes
    whose spatial axes are [axes]. *)
Definition build_kernel (unweighted : bool) (ndim : nat) (axes : list nat)
    (ranges : Z * Z) : result (ndarray Q) :=
  fullranges <- fill_fullranges ndim axes ranges ;;
  kernel <- np_ones (map (fun x => (1 + x * 2)%Z) fullranges) ;;
  let sum_sq := sum_sq_grid ranges in
  let prod := cumprod_last ranges in
  if unweighted then
    mask <- np_reshape
              (mk_ndarray (shape sum_sq)
                 (map (fun s => (s >? prod)%Z) (elems sum_sq)))
              (shape kernel) ;;
    Ok (zero_where mask kernel)
  else
    kernel <- assign_all 0 kernel
                (mk_ndarray (shape sum_sq)
                   (map (fun s => inject_Z (prod - s) / inject_Z prod)
                        (elems sum_sq))) ;;
    let mask := mk_ndarray (shape kernel)
                  (map (fun w => negb (Qle_bool 0 w)) (elems kernel)) in
    Ok (zero_where mask kernel).

(** ** Convolver *)

Definition cell_add (a b : cell) : cell :=
  match a, b with
  | Val x, Val y => Val (x + y)
  | _, _ => NaN
  end.

Definition cell_scale (w : Q) (a : cell) : cell :=
  match a with
  | Val x => Val (w * x)
  | NaN => NaN
  end.

(** Division of a cell by the kernel sum; a zero sum leaves no number. *)
Definition cell_div (a : cell) (s : Q) : cell :=
  match a with
  | Val x => if Qeq_bool s 0 then NaN else Val (x / s)
  | NaN => NaN
  end.


(** Boundary mode 'nearest': an index beyond the edge is the edge. *)
Definition clamp (n : nat) (i : Z) : nat :=
  Z.to_nat (Z.max 0 (Z.min i (Z.of_nat n - 1))).

(** The input index read for output index [i] and kernel index [k]: the
    kernel is centred at [K / 2] on every axis. *)
Fixpoint neighbour (dsh ksh i k : list nat) : list nat :=
  match dsh, ksh, i, k with
  | n :: dsh', K :: ksh', a :: i', b :: k' =>
      clamp n (Z.of_nat a + Z.of_nat b - Z.of_nat (K / 2))
      :: neighbour dsh' ksh' i' k'
  | _, _, _, _ => []
  end.

(** One output cell: the weighted sum over the kernel's non-zero cells. *)
Definition correlate_at (input : ndarray cell) (weights : ndarray Q)
    (i : list nat) : cell :=
  fold_left
    (fun (acc : cell) (kw : list nat * Q) =>
       if Qeq_bool (snd kw) 0 then acc
       else cell_add acc
              (cell_scale (snd kw)
                 (get NaN input
                    (neighbour (shape input) (shape weights) i (fst kw)))))
    (combine (indices (shape weights)) (elems weights))
    (Val 0).

(** [scipy.ndimage.filters.correlate(input, weights, mode='nearest')] on a
    floating-point input: the output, of the input's dtype, holds the
    weighted sums. *)
Definition correlate (input : ndarray cell) (weights : ndarray Q)
    : result (ndarray cell) :=
  if (List.length (shape input) =? List.length (shape weights))%nat
  then Ok (mk_ndarray (shape input)
             (map (correlate_at input weights) (indices (shape input))))
  else Raise (RuntimeError [Lit "filter weights array has incorrect shape."]).

Definition _apply_kernel_for_smoothing (self : plugin) (c : cube)
    (ranges : Z * Z) : result cube :=
  let data := data c in
  axes <- spatial_axes c ;;
  kernel <- build_kernel (unweighted_mode self)
              (List.length (shape data)) axes ranges ;;
  smoothed <- correlate data kernel ;;
  Ok (mk_cube (cube_name c)
        (mk_ndarray (shape smoothed)
           (map (fun x => cell_div x (np_sum kernel)) (elems smoothed)))
        (coords c)).

(** ** Lead times *)

(** In-place change of the coordinate of a given name. *)
Definition replace_coord (c : cube) (k : coord) : cube :=
  mk_cube (cube_name c) (data c)
    (map (fun k0 => if String.eqb (coord_name k0) (coord_name k)
                    then k else k0)
         (coords c)).

(** [cube.coord(name).convert_units(target)]: the cube's own coordinate is
    converted, not a copy. *)
Definition convert_coord_in_place (c : cube) (name : string) (target : unit_t)
    : result cube :=
  k <- cube_coord c name ;;
  k' <- convert_units k target ;;
  Ok (replace_coord c k').

(** A [ValueError] is caught and raised again with a prefix. *)
Definition reraise_with {A} (prefix : string) (r : result A) : result A :=
  match r with
  | Raise (ValueError m) => Raise (ValueError (Lit prefix :: m))
  | _ => r
  end.

(** [a - b] on one-dimensional numpy arrays. *)
Definition np_sub (a b : list Q) : result (list Q) :=
  if (List.length a =? List.length b)%nat
  then Ok (map (fun p : Q * Q => fst p - snd p) (combine a b))
  else match a, b with
       | _, [y] => Ok (map (fun x => x - y) a)
       | [x], _ => Ok (map (fun y => x - y) b)
       | _, _ => Raise (ValueError
                          [Lit "operands could not be broadcast together"])
       end.

Definition lead_time_not_found_msg (c : cube) : message :=
  [Lit "The forecast period coordinate is not available within ";
   FmtCube (cube_name c);
   Lit ".The time coordinate and forecast_reference_time ";
   Lit "coordinate were also not available for calculating ";
   Lit "the forecast_period."].

(** Returns the cube as the call leaves it, and the lead times. *)
Definition _find_required_lead_times (c : cube) : result (cube * list Q) :=
  match cube_coords c "forecast_period" with
  | _ :: _ =>
      c <- reraise_with "For forecast_period: "
             (convert_coord_in_place c "forecast_period" Hours) ;;
      k <- cube_coord c "forecast_period" ;;
      Ok (c, points k)
  | [] =>
      match cube_coords c "time", cube_coords c "forecast_reference_time" with
      | _ :: _, _ :: _ =>
          c <- reraise_with "For time/forecast_reference_time: "
                 (c <- convert_coord_in_place c "time" HoursSinceEpoch ;;
                  convert_coord_in_place c "forecast_reference_time"
                    HoursSinceEpoch) ;;
          t <- cube_coord c "time" ;;
          r <- cube_coord c "forecast_reference_time" ;;
          required_lead_times <- np_sub (points t) (points r) ;;
          Ok (c, required_lead_times)
      | _, _ => Raise (CoordinateNotFoundError (lead_time_not_found_msg c))
      end
  end.

(** ** Interpolation of the radius schedule *)

Definition Qlt_bool (a b : Q) : bool := negb (Qle_bool b a).

(** [np.interp] is numpy's [arr_interp] (compiled_base.c), which trusts
    its sample points to be increasing and does not check it. *)

(** [arr[i]]. *)
Definition item (arr : list Q) (i : Z) : Q := nth (Z.to_nat i) arr 0.

Definition LIKELY_IN_CACHE_SIZE : Z := 8.

(** The search of a short array:
    [for (i = 1; i < len && key >= arr[i]; ++i);] and [return i - 1]. *)
Fixpoint linear_search (key : Q) (rest : list Q) (i : Z) : Z :=
  match rest with
  | a :: rest' =>
      if Qle_bool a key then linear_search key rest' (i + 1) else (i - 1)%Z
  | [] => (i - 1)%Z
  end.

(** The bisection [while (imin < imax)].  Each turn takes at least one
    index off the interval, so that [fuel] turns are enough for an
    interval of [fuel] indices. *)
Fixpoint bisection (fuel : nat) (key : Q) (arr : list Q) (imin imax : Z)
    : Z :=
  match fuel with
  | O => (imin - 1)%Z
  | S fuel' =>
      if (imin <? imax)%Z then
        let imid := (imin + Z.shiftr (imax - imin) 1)%Z in
        if Qle_bool (item arr imid) key
        then bisection fuel' key arr (imid + 1) imax
        else bisection fuel' key arr imin imid
      else (imin - 1)%Z
  end.

(** [binary_search_with_guess(key, arr, len, guess)]: the index [j] with
    [arr[j] <= key < arr[j + 1]] of an increasing array, [-1] below its first
    item and [len] above its last. *)
Definition binary_search_with_guess (key : Q) (arr : list Q) (guess : Z)
    : Z :=
  let len := Z.of_nat (List.length arr) in
  if Qlt_bool (item arr (len - 1)) key then len
  else if Qlt_bool key (item arr 0) then (-1)%Z
  else if (len <=? 4)%Z then linear_search key (tl arr) 1
  else
    let guess := if (len - 3 <? guess)%Z then (len - 3)%Z else guess in
    let guess := if (guess <? 1)%Z then 1%Z else guess in
    if Qlt_bool key (item arr guess) then
      if Qlt_bool key (item arr (guess - 1)) then
        let imax := (guess - 1)%Z in
        let imin :=
          if (LIKELY_IN_CACHE_SIZE <? guess)%Z
             && Qle_bool (item arr (guess - LIKELY_IN_CACHE_SIZE)) key
          then (guess - LIKELY_IN_CACHE_SIZE)%Z
          else 0%Z in
        bisection (List.length arr) key arr imin imax
      else (guess - 1)%Z
    else if Qlt_bool key (item arr (guess + 1)) then guess
    else if Qlt_bool key (item arr (guess + 2)) then (guess + 1)%Z
    else
      let imin := (guess + 2)%Z in
      let imax :=
        if (guess <? len - LIKELY_IN_CACHE_SIZE - 1)%Z
           && Qlt_bool key (item arr (guess + LIKELY_IN_CACHE_SIZE))
        then (guess + LIKELY_IN_CACHE_SIZE)%Z
        else len in
      bisection (List.length arr) key arr imin imax.

(** The value for the index found: the first or the last value outside
    the sample range, else the line through the two neighbours. *)
Definition interp_value (x : Q) (xp fp : list Q) (j : Z) : Q :=
  let len := Z.of_nat (List.length xp) in
  if (j =? -1)%Z then item fp 0
  else if (j =? len)%Z then item fp (len - 1)
  else if (j =? len - 1)%Z then item fp j
  else (item fp (j + 1) - item fp j) / (item xp (j + 1) - item xp j)
       * (x - item xp j) + item fp j.

(** The loop over [x]: each search starts from the index found last. *)
Fixpoint arr_interp (xs xp fp : list Q) (j : Z) : list Q :=
  match xs with
  | [] => []
  | x :: xs' =>
      let j := binary_search_with_guess x xp j in
      interp_value x xp fp j :: arr_interp xs' xp fp j
  end.

Definition np_interp (xs xp fp : list Q) : result (list Q) :=
  match xp with
  | [] => Raise (ValueError [Lit "array of sample points is empty"])
  | xp_val :: xp' =>
      if negb (List.length xp =? List.length fp)%nat
      then Raise (ValueError [Lit "fp and xp are not of the same length."])
      else
        let lval := item fp 0 in
        let rval := item fp (Z.of_nat (List.length xp) - 1) in
        match xp' with
        | [] =>
            let fp_val := item fp 0 in
            Ok (map (fun x_val =>
                       if Qlt_bool x_val xp_val then lval
                       else if Qlt_bool xp_val x_val then rval
                       else fp_val)
                    xs)
        | _ => Ok (arr_interp xs xp fp 0)
        end
  end.

(** The radii of a schedule, as [np.interp] takes them. *)
Definition radii_as_array (r : radii_t) : result (list Q) :=
  match r with
  | RList rs => Ok rs
  | RFloat _ => Raise (ValueError [Lit "object of too small depth for desired array"])
  end.

(** ** Time slices *)

Fixpoint remove_nth {A} (l : list A) (k : nat) : list A :=
  match l, k with
  | [], _ => []
  | _ :: l', O => l'
  | a :: l', S k' => a :: remove_nth l' k'
  end.

Fixpoint insert_nth {A} (l : list A) (k : nat) (v : A) : list A :=
  match k, l with
  | O, _ => v :: l
  | S k', a :: l' => a :: insert_nth l' k' v
  | S _, [] => [v]
  end.

(** The sub-array at index [i] of axis [ax]; the axis is dropped. *)
Definition take_along {A} (d : A) (a : ndarray A) (ax i : nat) : ndarray A :=
  let sh := remove_nth (shape a) ax in
  mk_ndarray sh (map (fun idx => get d a (insert_nth idx ax i)) (indices sh)).

Definition slice_coord (ax i : nat) (k : coord) : coord :=
  match coord_dim k with
  | Some d =>
      if (d =? ax)%nat
      then mk_coord (coord_name k) [nth i (points k) 0] (units k) None
      else if (ax <? d)%nat
      then mk_coord (coord_name k) (points k) (units k) (Some (d - 1)%nat)
      else k
  | None => k
  end.

(** [cube.slices_over(name)]: one cube per point of the coordinate's axis;
    a scalar coordinate gives the cube itself as the only slice. *)
Definition slices_over (c : cube) (name : string) : result (list cube) :=
  k <- cube_coord c name ;;
  match coord_dim k with
  | None => Ok [c]
  | Some ax =>
      Ok (map (fun i =>
                 mk_cube (cube_name c) (take_along NaN (data c) ax i)
                   (map (slice_coord ax i) (coords c)))
              (seq 0 (nth ax (shape (data c)) 0%nat)))
  end.

(** [iris.util.new_axis(cube, name)]: a leading axis of extent one, spanned
    by the scalar coordinate [name]. *)
Definition new_axis (c : cube) (name : string) : result cube :=
  k <- cube_coord c name ;;
  match coord_dim k with
  | Some _ => Raise (ValueError [Lit name; Lit " is not a scalar coordinate."])
  | None =>
      Ok (mk_cube (cube_name c)
            (mk_ndarray (1%nat :: shape (data c)) (elems (data c)))
            (map (fun k0 =>
                    if String.eqb (coord_name k0) name
                    then mk_coord (coord_name k0) (points k0) (units k0)
                           (Some 0%nat)
                    else mk_coord (coord_name k0) (points k0) (units k0)
                           (option_map S (coord_dim k0)))
                 (coords c)))
  end.

Definition points_named (name : string) (c : cube) : list Q :=
  flat_map points (cube_coords c name).

Fixpoint Qlist_eqb (a b : list Q) : bool :=
  match a, b with
  | [], [] => true
  | x :: a', y :: b' => Qeq_bool x y && Qlist_eqb a' b'
  | _, _ => false
  end.

(** Modelled from the spec: [concatenate_cubes] of
    [improver.ensemble_calibration.ensemble_calibration_utilities], which the
    sources only import.  The spec has it "reassemble all slices, in
    lead-time order, into one field with a restored time axis": the slices,
    each with a leading time axis of extent one, are joined along that axis
    in the order given; a coordinate on that axis, or a scalar coordinate
    that differs between slices, gets the points of all slices. *)
Definition concatenate_cubes (cubes : list cube) : result cube :=
  match cubes with
  | [] => Raise (ValueError [Lit "no cubes to concatenate"])
  | c0 :: _ =>
      Ok (mk_cube (cube_name c0)
            (mk_ndarray (List.length cubes :: tl (shape (data c0)))
               (flat_map (fun c => elems (data c)) cubes))
            (map (fun k =>
                    let pts := flat_map (points_named (coord_name k)) cubes in
                    match coord_dim k with
                    | Some O => mk_coord (coord_name k) pts (units k) (Some 0%nat)
                    | Some _ => k
                    | None =>
                        if forallb (fun c => Qlist_eqb
                                      (points_named (coord_name k) c) (points k))
                                   cubes
                        then k
                        else mk_coord (coord_name k) pts (units k) (Some 0%nat)
                    end)
                 (coords c0)))
  end.

(** ** Orchestration *)

Definition is_nan (x : cell) : bool :=
  match x with NaN => true | Val _ => false end.

Definition realization_msg : message :=
  [Lit "Does not operate across realizations."].
Definition nan_msg : message :=
  [Lit "Error: NaN detected in input cube data"].

(** The checks that open [process]. *)
Definition validity_gate (c : cube) : result unit :=
  _ <- match cube_coord c "realization" with
       | Raise (CoordinateNotFoundError _) => Ok tt
       | Raise e => Raise e
       | Ok realiz_coord =>
           if (1 <? List.length (points realiz_coord))%nat
           then Raise (ValueError realization_msg)
           else Ok tt
       end ;;
  if existsb is_nan (elems (data c))
  then Raise (ValueError nan_msg)
  else Ok tt.

(** The radius of every required lead time, with the cube as the lead-time
    search leaves it. *)
Definition required_radii (self : plugin) (lts : list Q) (c : cube)
    : result (cube * list Q) :=
  '(c, required_lead_times) <- _find_required_lead_times c ;;
  radii <- radii_as_array (radii_in_km self) ;;
  required_radii_in_km <- np_interp required_lead_times lts radii ;;
  Ok (c, required_radii_in_km).

(** The loop over the time slices and their radii. *)
Fixpoint smooth_slices (self : plugin) (work : list (cube * Q))
    : result (list cube) :=
  match work with
  | [] => Ok []
  | (cube_slice, radius_in_km) :: work' =>
      ranges <- _get_grid_x_y_kernel_ranges cube_slice radius_in_km ;;
      cube_slice <- _apply_kernel_for_smoothing self cube_slice ranges ;;
      cube_slice <- new_axis cube_slice "time" ;;
      cubes <- smooth_slices self work' ;;
      Ok (cube_slice :: cubes)
  end.

(** What follows the gate.  The result is the argument cube as the call
    leaves it (the cube is a mutable object) and the cube returned. *)
Definition process_body (self : plugin) (c : cube) : result (cube * cube) :=
  match lead_times self with
  | None =>
      match radii_in_km self with
      | RFloat radii =>
          ranges <- _get_grid_x_y_kernel_ranges c radii ;;
          c <- _apply_kernel_for_smoothing self c ranges ;;
          Ok (c, c)
      | RList _ =>
          (* a list times 1000 is a longer list, which [int] refuses once
             divided by the spacing *)
          _ <- grid_spacings c ;;
          Raise (TypeError
                   [Lit "only length-1 arrays can be converted to Python scalars"])
      end
  | Some lts =>
      '(c, required_radii_in_km) <- required_radii self lts c ;;
      slices <- slices_over c "time" ;;
      cubes <- smooth_slices self (combine slices required_radii_in_km) ;;
      out <- concatenate_cubes cubes ;;
      Ok (c, out)
  end.

Definition process (self : plugin) (c : cube) : result (cube * cube) :=
  _ <- validity_gate c ;;
  process_body self c.

(** ** Quantities the properties speak of *)

(** The double [radius_in_km * 1000 / abs(d)] of one axis. *)
Definition quotient (radius_in_km : Q) (d : float64) : float64 :=
  f64_div (f64_mul (round64 radius_in_km) (Finite 1000)) (f64_abs d).

(** The cell count of one axis: [int(radius_in_km * 1000 / abs(d))]. *)
Definition cells (radius_in_km : Q) (d : float64) : result Z :=
  int_of_float (quotient radius_in_km d).

(** A 2x2 grid of ones with a spacing of [d] metres on both axes, axes
    (y, x). *)
Definition square_grid (d : Q) : cube :=
  mk_cube "square"
    (mk_ndarray [2; 2]%nat (repeat (Val 1) 4))
    [mk_coord "projection_y_coordinate" [0; d] Metres (Some 0%nat);
     mk_coord "projection_x_coordinate" [0; d] Metres (Some 1%nat)].

(** A 2x2 grid of ones whose coordinates are in kilometres, with the points
    [p0] and [p1] on both axes, axes (y, x). *)
Definition kilometre_grid (p0 p1 : Q) : cube :=
  mk_cube "kilometres"
    (mk_ndarray [2; 2]%nat (repeat (Val 1) 4))
    [mk_coord "projection_y_coordinate" [p0; p1] Kilometres (Some 0%nat);
     mk_coord "projection_x_coordinate" [p0; p1] Kilometres (Some 1%nat)].

(** A flat 5x5 grid of ones with a spacing of 1 km, axes (y, x). *)
Definition flat_grid : cube :=
  mk_cube "flat"
    (mk_ndarray [5; 5]%nat (repeat (Val 1) 25))
    [mk_coord "projection_y_coordinate" [0; 1000; 2000; 3000; 4000] Metres
       (Some 0%nat);
     mk_coord "projection_x_coordinate" [0; 1000; 2000; 3000; 4000] Metres
       (Some 1%nat)].

(** Strictly increasing sample points, as [np.interp] expects them. *)
Fixpoint increasing (xp : list Q) : Prop :=
  match xp with
  | x0 :: ((x1 :: _) as xp') => x0 < x1 /\ increasing xp'
  | _ => True
  end.



(** The kernel cell at offsets [i] and [j] from the kernel's origin along
    the data axes of x and of y; every other axis has extent one. *)
Definition kernel_index (ndim ax ay i j : nat) : list nat :=
  upd (upd (repeat 0%nat ndim) ax i) ay j.

(** The weight at open-grid coordinates [(cx, cy)]: [cx] cells along the
    data axis of x and [cy] cells along that of y from the kernel centre. *)
Definition kernel_at (k : ndarray Q) (ndim ax ay : nat) (ranges : Z * Z)
    (cx cy : Z) : Q :=
  get 0 k (kernel_index ndim ax ay
             (Z.to_nat (cx + fst ranges)) (Z.to_nat (cy + snd ranges))).

(** The shape of the kernel for spatial axes [ax], [ay]. *)
Definition kernel_shape (ndim ax ay : nat) (ranges : Z * Z) : list nat :=
  map Z.to_nat
    (map (fun x => (1 + x * 2)%Z)
       (upd (upd (repeat 0%Z ndim) ax (fst ranges)) ay (snd ranges))).

(** The raw weight of the weighted kernel at squared distance [s]. *)
Definition raw_weight (ranges : Z * Z) (s : Z) : Q :=
  inject_Z (cumprod_last ranges - s) / inject_Z (cumprod_last ranges).

(** The kernel cells of weighted mode before masking: the raw weights,
    broadcast over the kernel's shape. *)
Definition broadcast_weights (ndim ax ay : nat) (ranges : Z * Z) : list Q :=
  let vsh := [Z.to_nat (1 + fst ranges * 2); Z.to_nat (1 + snd ranges * 2)] in
  map (fun idx =>
         nth (ravel vsh (broadcast_index vsh idx))
             (map (raw_weight ranges) (elems (sum_sq_grid ranges))) 0)
      (indices (kernel_shape ndim ax ay ranges)).

(** A 3x3 grid with axes (y, x): 1 km between rows, 2 km between
    columns. *)
Definition anisotropic_grid : cube :=
  mk_cube "anisotropic"
    (mk_ndarray [3; 3]%nat
       [Val 0; Val 0; Val 0; Val 0; Val 1; Val 0; Val 0; Val 0; Val 0])
    [mk_coord "projection_y_coordinate" [0; 1000; 2000] Metres (Some 0%nat);
     mk_coord "projection_x_coordinate" [0; 2000; 4000] Metres (Some 1%nat)].

(** The two errors of the validity gate. *)
Definition data_validity_error (e : exn) : Prop :=
  e = ValueError realization_msg \/ e = ValueError nan_msg.

Definition is_validity (e : exn) : bool :=
  match e with
  | ValueError [Lit s] =>
      String.eqb s "Does not operate across realizations."
      || String.eqb s "Error: NaN detected in input cube data"
  | _ => false
  end.

(** A field the gate refuses: more than one realization, or a NaN. *)
Definition invalid_data (c : cube) : Prop :=
  (exists k, cube_coord c "realization" = Ok k
             /\ (1 < List.length (points k))%nat)
  \/ In NaN (elems (data c)).

(** A cube of two times, with forecast periods in seconds. *)
Definition scheduled_cube : cube :=
  mk_cube "scheduled"
    (mk_ndarray [2; 3; 3]%nat
       (map (fun z => Val (inject_Z (Z.of_nat z))) (seq 0 18)))
    [mk_coord "time" [10; 13] HoursSinceEpoch (Some 0%nat);
     mk_coord "forecast_period" [0; 10800] Seconds (Some 0%nat);
     mk_coord "projection_y_coordinate" [0; 1000; 2000] Metres (Some 1%nat);
     mk_coord "projection_x_coordinate" [0; 1000; 2000] Metres (Some 2%nat)].


(** What the lead-time search does to a coordinate of the cube: nothing, or
    the in-place conversion of the forecast period to hours, or of the time
    and the reference time to hours since the epoch. *)
Definition converted_in_place (k k' : coord) : Prop :=
  k' = k
  \/ (coord_name k = "forecast_period" /\ convert_units k Hours = Ok k')
  \/ ((coord_name k = "time" \/ coord_name k = "forecast_reference_time")
      /\ convert_units k HoursSinceEpoch = Ok k').

(** Two cells that hold the same number, or both none. *)
Definition cell_equiv (a b : cell) : Prop :=
  match a, b with
  | Val x, Val y => x == y
  | NaN, NaN => True
  | _, _ => False
  end.

(** Two cells that hold numbers, the first not above the second. *)
Definition cell_le (a b : cell) : Prop :=
  match a, b with
  | Val x, Val y => x <= y
  | _, _ => False
  end.

(* ================================================================= *)
(** * Properties *)

Lemma Ok_inj {A} (a b : A) : Ok a = Ok b -> a = b.
Proof. intros H. now injection H. Qed.

(** ** Constructor *)

(** C10. A float radius with a lead-time schedule never constructs: [len] of
    the float raises [TypeError], not the configuration error; hence an
    instance that carries a schedule carries a list of radii of the
    schedule's length. *)
Theorem init_float_radius_with_schedule :
  (forall r lts u,
      __init__ (RFloat r) (Some lts) u
      = Raise (TypeError [Lit "object of type 'float' has no len()"])
      /\ __init__ (RFloat r) (Some lts) u <> Raise (ValueError mismatch_msg))
  /\ (forall radii lts u p l,
         __init__ radii lts u = Ok p ->
         lead_times p = Some l ->
         exists rs, radii_in_km p = RList rs
                    /\ List.length rs = List.length l).
Proof.
  split.
  - intros r lts u. split; [reflexivity | discriminate].
  - intros radii lts u p l Hinit Hl.
    unfold __init__ in Hinit.
    destruct lts as [lts|]; simpl in Hinit.
    + destruct radii as [r|rs]; simpl in Hinit; [discriminate|].
      destruct (Nat.eqb (List.length rs) (List.length lts)) eqn:E;
        simpl in Hinit; [|discriminate].
      inversion Hinit; subst p; simpl in *.
      inversion Hl; subst l.
      exists rs. split; [reflexivity | now apply Nat.eqb_eq].
    + inversion Hinit; subst p; simpl in Hl; discriminate.
Qed.

Lemma init_float_radius_with_schedule_witness :
  exists rs, radii_in_km (mk_plugin (RList [10; 30]) (Some [0; 6]) false)
             = RList rs
             /\ List.length rs = List.length [0; 6].
Proof.
  apply (proj2 init_float_radius_with_schedule
           (RList [10; 30]) (Some [0; 6]) false
           (mk_plugin (RList [10; 30]) (Some [0; 6]) false) [0; 6]);
    reflexivity.
Defined.

(** ** Radius resolver *)

(** *** Rounding *)

Lemma pow2_pos (e : Z) : 0 < pow2 e.
Proof. apply Qpower_0_lt. reflexivity. Qed.

Lemma pow2_le (a b : Z) : (a <= b)%Z -> pow2 a <= pow2 b.
Proof. intros H. apply Qpower_le_compat_l; [exact H | discriminate]. Qed.

Lemma pow2_lt (a b : Z) : (a < b)%Z -> pow2 a < pow2 b.
Proof. intros H. apply Qpower_lt_compat_l; [exact H | reflexivity]. Qed.

Lemma pow2_lt_inv (a b : Z) : pow2 a < pow2 b -> (a < b)%Z.
Proof. intros H. apply (Qpower_lt_compat_l_inv 2); [exact H | reflexivity]. Qed.

Lemma pow2_plus (a b : Z) : pow2 (a + b) == pow2 a * pow2 b.
Proof. apply Qpower_plus. discriminate. Qed.

Lemma pow2_Z (a : Z) : (0 <= a)%Z -> pow2 a == inject_Z (2 ^ a).
Proof. intros H. unfold pow2. now rewrite (Zpower_Qpower 2 a H). Qed.

(** A fraction of positive integers between two powers of two. *)
Lemma fraction_bracket (n : Z) (d : positive) (a b : Z) :
  (0 <= a)%Z -> (0 <= b)%Z ->
  (2 ^ a <= n < 2 ^ (a + 1))%Z -> (2 ^ b <= Z.pos d < 2 ^ (b + 1))%Z ->
  pow2 (a - b - 1) <= n # d /\ n # d < pow2 (a - b + 1).
Proof.
  intros Ha Hb Hn Hd.
  assert (E1 : pow2 a == pow2 (a - b - 1) * pow2 (b + 1))
    by (rewrite <- pow2_plus; now replace (a - b - 1 + (b + 1))%Z with a by lia).
  assert (E2 : pow2 (a + 1) == pow2 (a - b + 1) * pow2 b)
    by (rewrite <- pow2_plus; now replace (a - b + 1 + b)%Z with (a + 1)%Z by lia).
  rewrite (pow2_Z a), (pow2_Z (b + 1)) in E1 by lia.
  rewrite (pow2_Z (a + 1)), (pow2_Z b) in E2 by lia.
  pose proof (pow2_pos (a - b - 1)) as P1.
  pose proof (pow2_pos (a - b + 1)) as P2.
  destruct (pow2 (a - b - 1)) as [u1 v1], (pow2 (a - b + 1)) as [u2 v2].
  unfold Qeq, Qle, Qlt in *. simpl in *. split; nia.
Qed.

Lemma ilog2_spec (q : Q) :
  0 < q -> pow2 (ilog2 q) <= q /\ q < pow2 (ilog2 q + 1).
Proof.
  intros Hq. destruct q as [n d].
  assert (Hn : (0 < n)%Z) by (unfold Qlt in Hq; simpl in Hq; lia).
  pose proof (Z.log2_spec n Hn) as Sn.
  pose proof (Z.log2_spec (Z.pos d) ltac:(lia)) as Sd.
  pose proof (Z.log2_nonneg n) as Nn.
  pose proof (Z.log2_nonneg (Z.pos d)) as Nd.
  rewrite <- !Z.add_1_r in Sn, Sd.
  destruct (fraction_bracket n d _ _ Nn Nd Sn Sd) as [B1 B2].
  unfold ilog2. cbn [Qnum Qden].
  set (l := (Z.log2 n - Z.log2 (Z.pos d))%Z) in *.
  destruct (Qle_bool (pow2 l) (n # d)) eqn:E.
  - apply Qle_bool_iff in E. split; assumption.
  - replace (l - 1 + 1)%Z with l by lia. split; [exact B1|].
    apply Qnot_le_lt. intros H. apply Qle_bool_iff in H. congruence.
Qed.

Lemma ilog2_le (a b : Q) : 0 < a -> a <= b -> (ilog2 a <= ilog2 b)%Z.
Proof.
  intros Ha Hab.
  destruct (ilog2_spec a Ha) as [A1 _].
  destruct (ilog2_spec b (Qlt_le_trans _ _ _ Ha Hab)) as [_ B2].
  assert (H : pow2 (ilog2 a) < pow2 (ilog2 b + 1)).
  { eapply Qle_lt_trans; [exact A1|]. eapply Qle_lt_trans; eassumption. }
  apply pow2_lt_inv in H. lia.
Qed.

(** Rounding to the nearest integer, ties to even. *)
Lemma rne_bounds (q : Q) : (Qfloor q <= rne q <= Qfloor q + 1)%Z.
Proof.
  unfold rne. destruct (Qcompare _ _); [destruct (Z.even _)| |]; lia.
Qed.

Lemma rne_Z (z : Z) : rne (inject_Z z) = z.
Proof.
  unfold rne. rewrite Qfloor_Z.
  assert (E : Qcompare (inject_Z z - inject_Z z) (1 # 2) = Lt).
  { apply Qlt_alt. setoid_replace (inject_Z z - inject_Z z) with 0 by ring.
    reflexivity. }
  now rewrite E.
Qed.

Lemma rne_le (x y : Q) : x <= y -> (rne x <= rne y)%Z.
Proof.
  intros Hxy. pose proof (Qfloor_resp_le x y Hxy) as Hf.
  pose proof (rne_bounds x) as Bx. pose proof (rne_bounds y) as By.
  destruct (Z.eq_dec (Qfloor x) (Qfloor y)) as [E|N]; [|lia].
  unfold rne in *. rewrite <- E in *.
  assert (Hr : x - inject_Z (Qfloor x) <= y - inject_Z (Qfloor x)).
  { apply Qplus_le_l with (z := inject_Z (Qfloor x)).
    now ring_simplify. }
  destruct (Qcompare (x - inject_Z (Qfloor x)) (1 # 2)) eqn:Cx;
    destruct (Qcompare (y - inject_Z (Qfloor x)) (1 # 2)) eqn:Cy;
    try (destruct (Z.even (Qfloor x)); lia); try lia.
  - apply Qeq_alt in Cx. apply Qlt_alt in Cy. exfalso.
    rewrite Cx in Hr. exact (Qlt_not_le _ _ Cy Hr).
  - apply Qgt_alt in Cx. apply Qeq_alt in Cy. exfalso.
    rewrite Cy in Hr. exact (Qlt_not_le _ _ Cx Hr).
  - apply Qgt_alt in Cx. apply Qlt_alt in Cy. exfalso.
    apply (Qlt_irrefl (1 # 2)).
    eapply Qlt_le_trans; [exact Cx|]. eapply Qle_trans; [exact Hr|].
    now apply Qlt_le_weak.
Qed.

Lemma round_pos_unfold (a : Q) :
  round_pos a == inject_Z (rne (a / pow2 (exponent a))) * pow2 (exponent a).
Proof. apply Qred_correct. Qed.

Lemma rne_nonneg (x : Q) : 0 <= x -> (0 <= rne x)%Z.
Proof. intros H. rewrite <- (rne_Z 0). now apply rne_le. Qed.

Lemma round_pos_nonneg (a : Q) : 0 <= a -> 0 <= round_pos a.
Proof.
  intros Ha. rewrite round_pos_unfold.
  apply Qmult_le_0_compat; [|apply Qlt_le_weak, pow2_pos].
  change 0 with (inject_Z 0). rewrite <- Zle_Qle. apply rne_nonneg.
  apply Qle_shift_div_l; [apply pow2_pos|]. now rewrite Qmult_0_l.
Qed.

(** The significand has at most 53 bits. *)
Lemma significand_upper (a : Q) :
  0 < a -> (rne (a / pow2 (exponent a)) <= 2 ^ 53)%Z.
Proof.
  intros Ha. rewrite <- (rne_Z (2 ^ 53)). apply rne_le.
  apply Qle_shift_div_r; [apply pow2_pos|].
  rewrite <- (pow2_Z 53) by lia. rewrite <- pow2_plus.
  apply Qlt_le_weak. eapply Qlt_le_trans; [apply (ilog2_spec a Ha)|].
  apply pow2_le. unfold exponent. lia.
Qed.

(** Above the subnormal range it has exactly 53. *)
Lemma significand_lower (a : Q) :
  0 < a -> (-1074 < exponent a)%Z ->
  (2 ^ 52 <= rne (a / pow2 (exponent a)))%Z.
Proof.
  intros Ha He. rewrite <- (rne_Z (2 ^ 52)). apply rne_le.
  apply Qle_shift_div_l; [apply pow2_pos|].
  rewrite <- (pow2_Z 52) by lia. rewrite <- pow2_plus.
  eapply Qle_trans; [|apply (ilog2_spec a Ha)].
  apply pow2_le. unfold exponent in *. lia.
Qed.

Lemma exponent_le (a b : Q) : 0 < a -> a <= b -> (exponent a <= exponent b)%Z.
Proof.
  intros Ha Hab. pose proof (ilog2_le a b Ha Hab). unfold exponent. lia.
Qed.

Lemma round_pos_le (a b : Q) : 0 < a -> a <= b -> round_pos a <= round_pos b.
Proof.
  intros Ha Hab.
  assert (Hb : 0 < b) by (eapply Qlt_le_trans; eassumption).
  pose proof (exponent_le a b Ha Hab) as He.
  rewrite !round_pos_unfold.
  destruct (Z.eq_dec (exponent a) (exponent b)) as [E|N].
  - rewrite E. apply Qmult_le_compat_r; [|apply Qlt_le_weak, pow2_pos].
    rewrite <- Zle_Qle. apply rne_le.
    apply Qmult_le_compat_r; [exact Hab|].
    apply Qlt_le_weak, Qinv_lt_0_compat, pow2_pos.
  - assert (Hlt : (exponent a < exponent b)%Z) by lia.
    assert (Hsub : (-1074 < exponent b)%Z) by (unfold exponent in *; lia).
    pose proof (significand_upper a Ha) as Ua.
    pose proof (significand_lower b Hb Hsub) as Lb.
    apply Qle_trans with (inject_Z (2 ^ 53) * pow2 (exponent a)).
    { apply Qmult_le_compat_r; [|apply Qlt_le_weak, pow2_pos].
      now rewrite <- Zle_Qle. }
    apply Qle_trans with (inject_Z (2 ^ 52) * pow2 (exponent b)).
    { rewrite <- (pow2_Z 53), <- (pow2_Z 52) by lia.
      rewrite <- !pow2_plus. apply pow2_le. lia. }
    apply Qmult_le_compat_r; [|apply Qlt_le_weak, pow2_pos].
    now rewrite <- Zle_Qle.
Qed.

Lemma Qnum_sign (q : Q) :
  match Qnum q with
  | Z0 => q == 0
  | Zpos _ => 0 < q
  | Zneg _ => q < 0
  end.
Proof. destruct q as [[|p|p] d]; unfold Qeq, Qlt; simpl; lia. Qed.

Lemma round_nearest_sign (q : Q) :
  match Qnum q with
  | Z0 => round_nearest q = 0
  | Zpos _ => 0 <= round_nearest q
  | Zneg _ => round_nearest q <= 0
  end.
Proof.
  pose proof (Qnum_sign q) as Hs. unfold round_nearest.
  destruct (Qnum q) eqn:E; [reflexivity | |].
  - apply round_pos_nonneg. now apply Qlt_le_weak.
  - assert (H : 0 <= round_pos (- q)).
    { apply round_pos_nonneg. apply Qlt_le_weak.
      apply (Qplus_lt_l _ _ q). now ring_simplify. }
    apply (Qplus_le_l _ _ (round_pos (- q))). now ring_simplify.
Qed.

(** Rounding keeps the order. *)
Lemma round_nearest_le (x y : Q) :
  x <= y -> round_nearest x <= round_nearest y.
Proof.
  intros Hxy.
  pose proof (Qnum_sign x) as Sx. pose proof (Qnum_sign y) as Sy.
  pose proof (round_nearest_sign x) as Rx.
  pose proof (round_nearest_sign y) as Ry.
  unfold round_nearest in *.
  destruct (Qnum x) eqn:Ex, (Qnum y) eqn:Ey.
  - apply Qle_refl.
  - exact Ry.
  - exfalso. rewrite Sx in Hxy. exact (Qlt_not_le _ _ Sy Hxy).
  - exfalso. rewrite Sy in Hxy. exact (Qlt_not_le _ _ Sx Hxy).
  - now apply round_pos_le.
  - exfalso. apply (Qlt_irrefl 0).
    eapply Qlt_le_trans; [exact Sx|]. eapply Qle_trans; [exact Hxy|].
    now apply Qlt_le_weak.
  - exact Rx.
  - eapply Qle_trans; eassumption.
  - apply Qopp_le_compat. apply round_pos_le.
    + apply (Qplus_lt_l _ _ y). now ring_simplify.
    + now apply Qopp_le_compat.
Qed.

Lemma round_nearest_pos (q : Q) : 0 < round_nearest q -> 0 < q.
Proof.
  intros H. pose proof (Qnum_sign q) as S.
  pose proof (round_nearest_sign q) as R.
  destruct (Qnum q); [| exact S |].
  - rewrite R in H. discriminate H.
  - exfalso. exact (Qlt_not_le _ _ H R).
Qed.

Lemma round64_finite (q v : Q) : round64 q = Finite v -> v = round_nearest q.
Proof.
  unfold round64. destruct (Qle_bool _ _); [discriminate|].
  intros H. now injection H.
Qed.

(** *** Bounds check *)

Lemma Qabs_zero (d : Q) : Qabs d == 0 -> d == 0.
Proof.
  destruct d as [n p]. unfold Qabs, Qeq. simpl. lia.
Qed.

(** With cell counts on both axes the resolver is the bounds check on
    them. *)
Lemma resolver_is_check (c : cube) (r : Q) (dx dy : float64) (gx gy : Z) :
  grid_spacings c = Ok (dx, dy) ->
  cells r dx = Ok gx -> cells r dy = Ok gy ->
  _get_grid_x_y_kernel_ranges c r = check_cell_extents r gx gy.
Proof.
  intros Hg Hx Hy. unfold _get_grid_x_y_kernel_ranges.
  rewrite Hg. cbn [bind]. unfold cells, quotient in Hx, Hy.
  unfold int_of_quotient. rewrite Hy. cbn [bind]. rewrite Hx. reflexivity.
Qed.

Lemma check_zero (r : Q) (gx gy : Z) :
  (gx = 0 \/ gy = 0)%Z ->
  check_cell_extents r gx gy
  = Raise (ValueError (radius_msg r "gives zero cell extent")).
Proof.
  intros H. unfold check_cell_extents.
  assert (E : ((gx =? 0)%Z || (gy =? 0)%Z) = true).
  { apply orb_true_iff. destruct H; [left | right]; now apply Z.eqb_eq. }
  rewrite E. reflexivity.
Qed.

Lemma check_in_bounds (r : Q) (gx gy : Z) :
  (1 <= gx <= 500)%Z -> (1 <= gy <= 500)%Z ->
  check_cell_extents r gx gy = Ok (gx, gy).
Proof.
  intros Hx Hy. unfold check_cell_extents, MAX_KERNEL_CELL_RADIUS.
  destruct (Z.eqb_spec gx 0); [lia|].
  destruct (Z.eqb_spec gy 0); [lia|].
  destruct (Z.ltb_spec gx 0); [lia|].
  destruct (Z.ltb_spec gy 0); [lia|].
  simpl.
  destruct (Z.gtb_spec gx 500); [lia|].
  destruct (Z.gtb_spec gy 500); [lia|].
  reflexivity.
Qed.

Lemma check_out_of_bounds (r : Q) (gx gy : Z) :
  ~ ((1 <= gx <= 500)%Z /\ (1 <= gy <= 500)%Z) ->
  exists what, check_cell_extents r gx gy = Raise (ValueError (radius_msg r what)).
Proof.
  intros H. unfold check_cell_extents, MAX_KERNEL_CELL_RADIUS.
  destruct (Z.eqb_spec gx 0); [eexists; reflexivity|].
  destruct (Z.eqb_spec gy 0); [eexists; reflexivity|].
  destruct (Z.ltb_spec gx 0); [eexists; reflexivity|].
  destruct (Z.ltb_spec gy 0); [eexists; reflexivity|].
  simpl.
  destruct (Z.gtb_spec gx 500); [eexists; reflexivity|].
  destruct (Z.gtb_spec gy 500); [eexists; reflexivity|].
  lia.
Qed.

(** C3. On a grid where [int(radius_in_km * 1000 / abs(d))], computed in
    binary64 as the code computes it, gives a cell count on both axes: a
    count of zero on either axis raises the zero-extent error, a negative
    one raises an error, 500 on both axes is returned, more than 500 on
    either axis raises an error, and every such message holds the
    radius. *)
Theorem radius_extent_bounds (c : cube) (r : Q) (dx dy : float64)
    (gx gy : Z) :
  grid_spacings c = Ok (dx, dy) ->
  cells r dx = Ok gx -> cells r dy = Ok gy ->
  ((gx = 0 \/ gy = 0)%Z ->
     _get_grid_x_y_kernel_ranges c r
     = Raise (ValueError (radius_msg r "gives zero cell extent")))
  /\ ((gx < 0 \/ gy < 0)%Z ->
        exists what, _get_grid_x_y_kernel_ranges c r
                     = Raise (ValueError (radius_msg r what)))
  /\ ((gx = 500 /\ gy = 500)%Z ->
        _get_grid_x_y_kernel_ranges c r = Ok (500, 500)%Z)
  /\ ((gx > 500 \/ gy > 500)%Z ->
        exists what, _get_grid_x_y_kernel_ranges c r
                     = Raise (ValueError (radius_msg r what)))
  /\ (forall what, In (FmtFloat r) (radius_msg r what)).
Proof.
  intros Hg Hx Hy. rewrite (resolver_is_check c r dx dy gx gy Hg Hx Hy).
  repeat split.
  - apply check_zero.
  - intros H. apply check_out_of_bounds. lia.
  - intros [Ex Ey]. rewrite Ex, Ey. apply check_in_bounds; lia.
  - intros H. apply check_out_of_bounds. lia.
  - intros what. simpl. auto.
Qed.

Lemma radius_extent_bounds_witness :
  _get_grid_x_y_kernel_ranges flat_grid (1 # 2)
  = Raise (ValueError (radius_msg (1 # 2) "gives zero cell extent"))
  /\ (exists what, _get_grid_x_y_kernel_ranges flat_grid (- (3 # 2))
                   = Raise (ValueError (radius_msg (- (3 # 2)) what)))
  /\ _get_grid_x_y_kernel_ranges flat_grid 500 = Ok (500, 500)%Z
  /\ (exists what, _get_grid_x_y_kernel_ranges flat_grid 501
                   = Raise (ValueError (radius_msg 501 what)))
  /\ cells (3507 # 10) (Finite 700) = Ok 501%Z
  /\ (exists what, _get_grid_x_y_kernel_ranges (square_grid 700) (3507 # 10)
                   = Raise (ValueError (radius_msg (3507 # 10) what)))
  /\ cells (11 # 10) (round64 (22 # 10)) = Ok 499%Z.
Proof.
  assert (Hg : grid_spacings flat_grid = Ok (Finite 1000, Finite 1000))
    by (vm_compute; reflexivity).
  assert (Hs : grid_spacings (square_grid 700)
               = Ok (Finite 700, Finite 700))
    by (vm_compute; reflexivity).
  assert (C0 : cells (1 # 2) (Finite 1000) = Ok 0%Z)
    by (vm_compute; reflexivity).
  assert (C1 : cells (- (3 # 2)) (Finite 1000) = Ok (-1)%Z)
    by (vm_compute; reflexivity).
  assert (C2 : cells 500 (Finite 1000) = Ok 500%Z)
    by (vm_compute; reflexivity).
  assert (C3 : cells 501 (Finite 1000) = Ok 501%Z)
    by (vm_compute; reflexivity).
  assert (C4 : cells (3507 # 10) (Finite 700) = Ok 501%Z)
    by (vm_compute; reflexivity).
  split; [|split; [|split; [|split; [|split; [|split]]]]].
  - apply (proj1 (radius_extent_bounds flat_grid _ _ _ _ _ Hg C0 C0)).
    left. reflexivity.
  - apply (proj1 (proj2 (radius_extent_bounds flat_grid _ _ _ _ _
                           Hg C1 C1))).
    left. reflexivity.
  - apply (proj1 (proj2 (proj2 (radius_extent_bounds flat_grid _ _ _ _ _
                                  Hg C2 C2)))).
    split; reflexivity.
  - apply (proj1 (proj2 (proj2 (proj2
             (radius_extent_bounds flat_grid _ _ _ _ _ Hg C3 C3))))).
    left. reflexivity.
  - exact C4.
  - apply (proj1 (proj2 (proj2 (proj2
             (radius_extent_bounds (square_grid 700) _ _ _ _ _
                Hs C4 C4))))).
    left. reflexivity.
  - vm_compute. reflexivity.
Defined.

Lemma grid_spacings_of_points (c : cube) (x y : coord)
    (x0 x1 y0 y1 : float64) (xs ys : list float64) :
  cube_coord c "projection_x_coordinate" = Ok x ->
  cube_coord c "projection_y_coordinate" = Ok y ->
  convert_units64 x Metres = Ok (x0 :: x1 :: xs) ->
  convert_units64 y Metres = Ok (y0 :: y1 :: ys) ->
  grid_spacings c = Ok (f64_sub x1 x0, f64_sub y1 y0).
Proof.
  intros Hx Hy Hxm Hym.
  unfold grid_spacings, spatial_coords.
  rewrite Hx, Hy. cbn [bind]. rewrite Hxm. cbn [bind]. rewrite Hym.
  reflexivity.
Qed.

(** Truncation is the floor on what is not negative. *)
Lemma py_int_floor (q : Q) : (1 <= py_int q)%Z -> py_int q = Qfloor q.
Proof.
  destruct q as [n p]. unfold py_int, Qfloor. simpl. intros H.
  destruct (Z_lt_le_dec n 0) as [Hn|Hn].
  - assert (Hq : (Z.quot n (Z.pos p) <= 0)%Z).
    { replace n with (- (- n))%Z by lia. rewrite Z.quot_opp_l by lia.
      assert (0 <= Z.quot (- n) (Z.pos p))%Z by (apply Z.quot_pos; lia).
      lia. }
    lia.
  - apply Z.quot_div_nonneg; lia.
Qed.

(** C2, corrected. On a grid whose two spatial coordinates convert to
    metres and have two points, the cell count of each axis is the double
    [radius * 1000 / abs(difference)], computed in binary64, truncated,
    independently of the other axis; the resolver returns the pair exactly
    when both counts lie in 1..500, where truncation is the floor, raises a
    [ValueError] when one does not, and raises as well when a quotient is
    no finite double. *)
Theorem radius_resolution (c : cube) (x y : coord)
    (x0 x1 y0 y1 : float64) (xs ys : list float64) (r : Q) :
  cube_coord c "projection_x_coordinate" = Ok x ->
  cube_coord c "projection_y_coordinate" = Ok y ->
  convert_units64 x Metres = Ok (x0 :: x1 :: xs) ->
  convert_units64 y Metres = Ok (y0 :: y1 :: ys) ->
  match quotient r (f64_sub x1 x0), quotient r (f64_sub y1 y0) with
  | Finite qx, Finite qy =>
      ((1 <= py_int qx <= 500)%Z /\ (1 <= py_int qy <= 500)%Z ->
         _get_grid_x_y_kernel_ranges c r = Ok (py_int qx, py_int qy)
         /\ py_int qx = Qfloor qx
         /\ py_int qy = Qfloor qy)
      /\ (~ ((1 <= py_int qx <= 500)%Z /\ (1 <= py_int qy <= 500)%Z) ->
            exists m, _get_grid_x_y_kernel_ranges c r = Raise (ValueError m))
  | _, _ => exists e, _get_grid_x_y_kernel_ranges c r = Raise e
  end.
Proof.
  intros Hx Hy Hxm Hym.
  pose proof (grid_spacings_of_points c x y x0 x1 y0 y1 xs ys
                Hx Hy Hxm Hym) as Hg.
  set (dx := f64_sub x1 x0) in *.
  set (dy := f64_sub y1 y0) in *.
  assert (Hres : _get_grid_x_y_kernel_ranges c r
                 = (gy <- int_of_float (quotient r dy) ;;
                    gx <- int_of_float (quotient r dx) ;;
                    check_cell_extents r gx gy)).
  { unfold _get_grid_x_y_kernel_ranges. rewrite Hg. reflexivity. }
  rewrite Hres.
  destruct (quotient r dx) as [qx|sx|], (quotient r dy) as [qy|sy|];
    cbn [int_of_float bind]; try (eexists; reflexivity).
  split.
  - intros [Bx By]. split; [|split].
    + apply check_in_bounds; assumption.
    + apply py_int_floor. exact (proj1 Bx).
    + apply py_int_floor. exact (proj1 By).
  - intros H. destruct (check_out_of_bounds r _ _ H) as [what E].
    eexists. exact E.
Qed.

Lemma radius_resolution_witness :
  (_get_grid_x_y_kernel_ranges flat_grid 2 = Ok (2, 2)%Z
   /\ (2 = Qfloor 2)%Z)
  /\ (exists m, _get_grid_x_y_kernel_ranges flat_grid (1 # 2)
                = Raise (ValueError m))
  /\ _get_grid_x_y_kernel_ranges (square_grid 110) (803 # 100)
     = Ok (72, 72)%Z
  /\ (exists e, _get_grid_x_y_kernel_ranges (square_grid 0) 1 = Raise e)
  /\ _get_grid_x_y_kernel_ranges (kilometre_grid (303 # 10) (322 # 10))
       (57 # 10)
     = Ok (2, 2)%Z.
Proof.
  pose proof (fun d r =>
    radius_resolution (square_grid d)
      (mk_coord "projection_x_coordinate" [0; d] Metres (Some 1%nat))
      (mk_coord "projection_y_coordinate" [0; d] Metres (Some 0%nat))
      (round64 0) (round64 d) (round64 0) (round64 d) [] [] r
      eq_refl eq_refl eq_refl eq_refl) as H.
  cbv beta in H.
  pose proof (fun r =>
    radius_resolution flat_grid
      (mk_coord "projection_x_coordinate" [0; 1000; 2000; 3000; 4000] Metres
         (Some 1%nat))
      (mk_coord "projection_y_coordinate" [0; 1000; 2000; 3000; 4000] Metres
         (Some 0%nat))
      (round64 0) (round64 1000) (round64 0) (round64 1000)
      (map round64 [2000; 3000; 4000]) (map round64 [2000; 3000; 4000]) r
      eq_refl eq_refl eq_refl eq_refl) as F.
  split; [|split; [|split; [|split]]].
  - specialize (F 2). vm_compute in F.
    destruct (proj1 F) as [H1 [H2 _]].
    + repeat split; discriminate.
    + split; assumption.
  - specialize (F (1 # 2)). vm_compute in F. vm_compute.
    apply (proj2 F). intros [[H1 _] _]. now apply H1.
  - specialize (H 110 (803 # 100)). vm_compute in H. vm_compute.
    apply (proj1 H). repeat split; discriminate.
  - specialize (H 0 1). vm_compute in H. vm_compute. exact H.
  - clear H F.
    assert (Kx : convert_units64
                   (mk_coord "projection_x_coordinate" [303 # 10; 322 # 10]
                      Kilometres (Some 1%nat)) Metres
                 = Ok [f64_mul (round64 (303 # 10)) (Finite 1000);
                       f64_mul (round64 (322 # 10)) (Finite 1000)])
      by (vm_compute; reflexivity).
    assert (Ky : convert_units64
                   (mk_coord "projection_y_coordinate" [303 # 10; 322 # 10]
                      Kilometres (Some 0%nat)) Metres
                 = Ok [f64_mul (round64 (303 # 10)) (Finite 1000);
                       f64_mul (round64 (322 # 10)) (Finite 1000)])
      by (vm_compute; reflexivity).
    pose proof
      (radius_resolution (kilometre_grid (303 # 10) (322 # 10)) _ _
         _ _ _ _ [] [] (57 # 10) eq_refl eq_refl Kx Ky) as K.
    vm_compute in K. vm_compute.
    apply (proj1 K). repeat split; discriminate.
Defined.

(** C2 as stated fails: a radius of half a kilometre on the 1 km grid has
    floor 0 on both axes, and the resolver raises instead of returning
    them. *)
Lemma radius_resolution_counterexample :
  grid_spacings flat_grid = Ok (Finite 1000, Finite 1000)
  /\ quotient (1 # 2) (Finite 1000) = Finite (1 # 2)
  /\ (Qfloor ((1 # 2) * 1000 / Qabs 1000) = 0)%Z
  /\ _get_grid_x_y_kernel_ranges flat_grid (1 # 2)
     = Raise (ValueError (radius_msg (1 # 2) "gives zero cell extent"))
  /\ _get_grid_x_y_kernel_ranges flat_grid (1 # 2)
     <> Ok (Qfloor ((1 # 2) * 1000 / Qabs 1000),
            Qfloor ((1 # 2) * 1000 / Qabs 1000)).
Proof.
  vm_compute. repeat split. discriminate.
Qed.

(** ** Interpolation of the radius schedule *)



Lemma increasing_tail (x0 : Q) (xp : list Q) :
  increasing (x0 :: xp) -> increasing xp.
Proof.
  destruct xp as [|x1 xp]; simpl; [trivial | intros [_ H]; exact H].
Qed.



Lemma increasing_le_last (xp : list Q) (j : nat) :
  increasing xp -> (j < List.length xp)%nat -> nth j xp 0 <= last xp 0.
Proof.
  revert j. induction xp as [|x0 xp IH]; intros j Hinc Hj; simpl in Hj.
  - lia.
  - destruct xp as [|x1 xp].
    + destruct j as [|j]; [apply Qle_refl | simpl in Hj; lia].
    + change (last (x0 :: x1 :: xp) 0) with (last (x1 :: xp) 0).
      destruct j as [|j].
      * simpl nth. destruct Hinc as [H01 Hinc].
        apply Qle_trans with x1; [apply Qlt_le_weak; exact H01|].
        apply (IH 0%nat Hinc). simpl. lia.
      * simpl nth. apply (IH j (increasing_tail _ _ Hinc)). simpl in *. lia.
Qed.







(** The loop ends within as many turns as the interval has indices,
    whatever the array holds: more fuel does not change what it returns. *)
Lemma bisection_fuel (fuel fuel' : nat) (key : Q) (arr : list Q)
    (imin imax : Z) :
  (imax - imin <= Z.of_nat fuel)%Z -> (imax - imin <= Z.of_nat fuel')%Z ->
  bisection fuel key arr imin imax = bisection fuel' key arr imin imax.
Proof.
  revert fuel' imin imax. induction fuel as [|fuel IH];
    intros [|fuel'] imin imax H H'; cbn [bisection]; try reflexivity.
  - destruct (Z.ltb_spec imin imax); [lia | reflexivity].
  - destruct (Z.ltb_spec imin imax); [lia | reflexivity].
  - destruct (Z.ltb_spec imin imax) as [Hlt|Hge]; [|reflexivity].
    rewrite Z.shiftr_div_pow2 by lia. change (2 ^ 1)%Z with 2%Z.
    assert (Hhalf : (0 <= (imax - imin) / 2 < imax - imin)%Z)
      by (split; [apply Z.div_pos; lia | apply Z.div_lt; lia]).
    set (imid := (imin + (imax - imin) / 2)%Z).
    assert (Hmid : (imin <= imid < imax)%Z) by (unfold imid; lia).
    clearbody imid. clear Hhalf.
    destruct (Qle_bool (item arr imid) key); apply IH; lia.
Qed.












(** ** Arrays *)

Lemma length_upd {A} (l : list A) (k : nat) (v : A) :
  List.length (upd l k v) = List.length l.
Proof.
  revert k. induction l as [|a l IH]; intros [|k]; simpl; auto.
Qed.

Lemma nth_upd_eq {A} (l : list A) (k : nat) (v d : A) :
  (k < List.length l)%nat -> nth k (upd l k v) d = v.
Proof.
  revert k. induction l as [|a l IH]; intros [|k] H; simpl in *;
    try lia; auto. apply IH. lia.
Qed.

Lemma nth_upd_neq {A} (l : list A) (k n : nat) (v d : A) :
  n <> k -> nth n (upd l k v) d = nth n l d.
Proof.
  revert k n. induction l as [|a l IH]; intros [|k] [|n] H; simpl;
    try reflexivity; try congruence. apply IH. congruence.
Qed.

Lemma upd_comm {A} (l : list A) (j k : nat) (a b : A) :
  j <> k -> upd (upd l j a) k b = upd (upd l k b) j a.
Proof.
  revert j k. induction l as [|x l IH]; intros [|j] [|k] H; simpl;
    try reflexivity; try congruence. f_equal. apply IH. congruence.
Qed.

Lemma upd_repeat {A} (c v : A) (n k : nat) :
  (k < n)%nat -> upd (repeat c n) k v = repeat c k ++ v :: repeat c (n - S k).
Proof.
  revert n. induction k as [|k IH]; intros [|n] H; try lia; simpl.
  - now rewrite Nat.sub_0_r.
  - f_equal. apply IH. lia.
Qed.

Lemma upd_app_r {A} (l1 l2 : list A) (k : nat) (v : A) :
  upd (l1 ++ l2) (List.length l1 + k) v = l1 ++ upd l2 k v.
Proof.
  induction l1 as [|a l1 IH]; simpl; [reflexivity | now rewrite IH].
Qed.

(** A list of [c] with two entries replaced, the first before the second. *)
Lemma upd_repeat_two {A} (c a b : A) (n j k : nat) :
  (j < k)%nat -> (k < n)%nat ->
  upd (upd (repeat c n) j a) k b
  = repeat c j ++ a :: repeat c (k - S j) ++ b :: repeat c (n - S k).
Proof.
  intros Hjk Hkn. rewrite upd_repeat by lia.
  replace k with (List.length (repeat c j) + S (k - S j))%nat at 1
    by (rewrite repeat_length; lia).
  rewrite upd_app_r. simpl. rewrite upd_repeat by lia.
  replace (n - S j - S (k - S j))%nat with (n - S k)%nat by lia.
  reflexivity.
Qed.

Lemma size_of_app (l1 l2 : list nat) :
  size_of (l1 ++ l2) = (size_of l1 * size_of l2)%nat.
Proof.
  induction l1 as [|a l1 IH]; simpl; [lia | rewrite IH; lia].
Qed.

Lemma size_of_ones (p : nat) : size_of (repeat 1%nat p) = 1%nat.
Proof.
  induction p as [|p IH]; simpl; [reflexivity | rewrite IH; reflexivity].
Qed.

Lemma ravel_ones (p : nat) (sh idx : list nat) :
  ravel (repeat 1%nat p ++ sh) (repeat 0%nat p ++ idx) = ravel sh idx.
Proof.
  induction p as [|p IH]; simpl; [reflexivity | exact IH].
Qed.

Lemma ravel_ones_only (p : nat) :
  ravel (repeat 1%nat p) (repeat 0%nat p) = 0%nat.
Proof.
  induction p as [|p IH]; simpl; [reflexivity | exact IH].
Qed.

(** Row-major position in a shape that is one everywhere but on two axes. *)
Lemma ravel_two (p q r n m i j : nat) :
  ravel (repeat 1%nat p ++ n :: repeat 1%nat q ++ m :: repeat 1%nat r)
        (repeat 0%nat p ++ i :: repeat 0%nat q ++ j :: repeat 0%nat r)
  = (i * m + j)%nat.
Proof.
  rewrite ravel_ones. simpl ravel at 1.
  rewrite size_of_app, size_of_ones. simpl size_of.
  rewrite size_of_ones, ravel_ones. simpl ravel.
  rewrite size_of_ones, ravel_ones_only. lia.
Qed.

Lemma size_of_two (p q r n m : nat) :
  size_of (repeat 1%nat p ++ n :: repeat 1%nat q ++ m :: repeat 1%nat r)
  = (n * m)%nat.
Proof.
  rewrite size_of_app, size_of_ones. simpl size_of.
  rewrite size_of_app, size_of_ones. simpl size_of.
  rewrite size_of_ones. lia.
Qed.

Lemma length_indices (sh : list nat) :
  List.length (indices sh) = size_of sh.
Proof.
  induction sh as [|n sh IH]; simpl; [reflexivity|].
  assert (H : forall l : list nat,
             List.length (flat_map (fun i => map (cons i) (indices sh)) l)
             = (List.length l * size_of sh)%nat).
  { induction l as [|a l IHl]; simpl; [reflexivity|].
    rewrite length_app, length_map, IH, IHl. reflexivity. }
  rewrite H, length_seq. reflexivity.
Qed.

Lemma ravel_lt (sh idx : list nat) :
  Forall2 lt idx sh -> (ravel sh idx < size_of sh)%nat.
Proof.
  intros H. induction H as [|i n idx sh Hin _ IH]; simpl; [lia|]. nia.
Qed.

Lemma nth_flat_map_blocks {A B} (f : A -> list B) (w : nat) (l : list A)
    (a b : nat) (da : A) (db : B) :
  (forall x, List.length (f x) = w) ->
  (a < List.length l)%nat -> (b < w)%nat ->
  nth (a * w + b) (flat_map f l) db = nth b (f (nth a l da)) db.
Proof.
  intros Hw. revert a. induction l as [|x l IH]; intros a Ha Hb; simpl in Ha.
  - lia.
  - simpl flat_map. destruct a as [|a].
    + simpl. rewrite app_nth1 by (rewrite Hw; exact Hb). reflexivity.
    + rewrite app_nth2 by (rewrite Hw; simpl; lia).
      rewrite Hw. replace (S a * w + b - w)%nat with (a * w + b)%nat
        by (simpl; lia).
      simpl nth. apply IH; lia.
Qed.

(** [indices] lists the multi-indices at their row-major positions. *)
Lemma nth_indices (sh idx : list nat) (d : list nat) :
  Forall2 lt idx sh -> nth (ravel sh idx) (indices sh) d = idx.
Proof.
  intros H. induction H as [|i n idx sh Hin Hrest IH]; simpl; [reflexivity|].
  rewrite (nth_flat_map_blocks
             (fun i => map (cons i) (indices sh)) (size_of sh) (seq 0 n)
             i (ravel sh idx) 0%nat d).
  - rewrite seq_nth by exact Hin. simpl.
    rewrite (nth_indep _ d (i :: d)).
    + rewrite (map_nth (cons i)). now rewrite IH.
    + rewrite length_map, length_indices. now apply ravel_lt.
  - intros x. now rewrite length_map, length_indices.
  - now rewrite length_seq.
  - now apply ravel_lt.
Qed.

Lemma skipn_last_two {A} (l : list A) (k : nat) (d : A) :
  List.length l = S (S k) -> skipn k l = [nth k l d; nth (S k) l d].
Proof.
  revert l. induction k as [|k IH]; intros l H.
  - destruct l as [|a [|b [|c l]]]; try discriminate. reflexivity.
  - destruct l as [|a l]; [discriminate|]. simpl in H.
    simpl skipn. rewrite (IH l) by lia. reflexivity.
Qed.

(** ** Kernel builder *)

Arguments sum_sq_grid : simpl never.
Arguments kernel_shape : simpl never.
Arguments kernel_index : simpl never.

Lemma map_upd {A B} (f : A -> B) (l : list A) (k : nat) (v : A) :
  map f (upd l k v) = upd (map f l) k (f v).
Proof.
  revert k. induction l as [|a l IH]; intros [|k]; simpl;
    try reflexivity. now rewrite IH.
Qed.

Lemma Forall_upd {A} (P : A -> Prop) (l : list A) (k : nat) (v : A) :
  Forall P l -> P v -> Forall P (upd l k v).
Proof.
  intros Hl Hv. revert k.
  induction Hl as [|a l Ha Hl IH]; intros [|k]; simpl; auto.
Qed.

Lemma fill_fullranges_ok (ndim ax ay : nat) (ranges : Z * Z) :
  (ax < ndim)%nat -> (ay < ndim)%nat ->
  fill_fullranges ndim [ax; ay] ranges
  = Ok (upd (upd (repeat 0%Z ndim) ax (fst ranges)) ay (snd ranges)).
Proof.
  intros Hx Hy. unfold fill_fullranges. simpl.
  assert (E1 : set_item (repeat 0%Z ndim) ax (fst ranges)
               = Ok (upd (repeat 0%Z ndim) ax (fst ranges))).
  { unfold set_item. rewrite repeat_length.
    destruct (Nat.ltb_spec ax ndim); [reflexivity | lia]. }
  rewrite E1. simpl. unfold set_item.
  rewrite length_upd, repeat_length.
  destruct (Nat.ltb_spec ay ndim); [reflexivity | lia].
Qed.

Lemma np_ones_ok (ndim ax ay : nat) (ranges : Z * Z) :
  (0 <= fst ranges)%Z -> (0 <= snd ranges)%Z ->
  np_ones (map (fun x => (1 + x * 2)%Z)
             (upd (upd (repeat 0%Z ndim) ax (fst ranges)) ay (snd ranges)))
  = Ok (mk_ndarray (kernel_shape ndim ax ay ranges)
          (repeat 1 (size_of (kernel_shape ndim ax ay ranges)))).
Proof.
  intros Hx Hy. unfold np_ones.
  assert (F : Forall (fun x => (0 <= x)%Z)
                (upd (upd (repeat 0%Z ndim) ax (fst ranges)) ay (snd ranges))).
  { apply Forall_upd; [apply Forall_upd|]; try assumption.
    apply Forall_forall. intros x Hin. apply repeat_spec in Hin. lia. }
  assert (E : existsb (fun d => (d <? 0)%Z)
                (map (fun x => (1 + x * 2)%Z)
                   (upd (upd (repeat 0%Z ndim) ax (fst ranges)) ay
                      (snd ranges))) = false).
  { induction F as [|a l Ha _ IH]; cbn [map existsb]; [reflexivity|].
    rewrite IH. destruct (Z.ltb_spec (1 + a * 2) 0); [lia | reflexivity]. }
  rewrite E. reflexivity.
Qed.

Lemma kernel_shape_upd (ndim ax ay : nat) (ranges : Z * Z) :
  kernel_shape ndim ax ay ranges
  = upd (upd (repeat 1%nat ndim) ax (Z.to_nat (1 + fst ranges * 2))) ay
        (Z.to_nat (1 + snd ranges * 2)).
Proof.
  unfold kernel_shape. rewrite !map_upd, !map_repeat. reflexivity.
Qed.

Lemma length_kernel_shape (ndim ax ay : nat) (ranges : Z * Z) :
  List.length (kernel_shape ndim ax ay ranges) = ndim.
Proof.
  rewrite kernel_shape_upd, !length_upd. apply repeat_length.
Qed.

Lemma nth_repeat_default {A} (c : A) (n d : nat) : nth d (repeat c n) c = c.
Proof.
  revert d. induction n as [|n IH]; intros [|d]; simpl; auto.
Qed.

(** Extent of the kernel along each axis. *)
Lemma nth_kernel_shape (ndim ax ay d : nat) (ranges : Z * Z) :
  (ax < ndim)%nat -> (ay < ndim)%nat -> ax <> ay ->
  nth d (kernel_shape ndim ax ay ranges) 1%nat
  = if (d =? ax)%nat then Z.to_nat (1 + fst ranges * 2)
    else if (d =? ay)%nat then Z.to_nat (1 + snd ranges * 2)
    else 1%nat.
Proof.
  intros Hx Hy Hne. rewrite kernel_shape_upd.
  destruct (Nat.eqb_spec d ax) as [->|Hdx].
  - rewrite nth_upd_neq by exact Hne.
    apply nth_upd_eq. now rewrite repeat_length.
  - destruct (Nat.eqb_spec d ay) as [->|Hdy].
    + apply nth_upd_eq. now rewrite length_upd, repeat_length.
    + rewrite !nth_upd_neq by assumption. apply nth_repeat_default.
Qed.

Lemma nth_kernel_index (ndim ax ay i j d : nat) :
  (ax < ndim)%nat -> (ay < ndim)%nat -> ax <> ay ->
  nth d (kernel_index ndim ax ay i j) 0%nat
  = if (d =? ax)%nat then i else if (d =? ay)%nat then j else 0%nat.
Proof.
  intros Hx Hy Hne. unfold kernel_index.
  destruct (Nat.eqb_spec d ax) as [->|Hdx].
  - rewrite nth_upd_neq by exact Hne.
    apply nth_upd_eq. now rewrite repeat_length.
  - destruct (Nat.eqb_spec d ay) as [->|Hdy].
    + apply nth_upd_eq. now rewrite length_upd, repeat_length.
    + rewrite !nth_upd_neq by assumption. apply nth_repeat_default.
Qed.

Lemma Forall2_repeat_lt (p : nat) :
  Forall2 lt (repeat 0%nat p) (repeat 1%nat p).
Proof.
  induction p as [|p IH]; simpl; constructor; [lia | exact IH].
Qed.

(** Shape and index of a kernel cell, laid out along the axes. *)
Lemma kernel_layout (ndim ax ay n m i j : nat) :
  (ax < ay)%nat -> (ay < ndim)%nat ->
  upd (upd (repeat 1%nat ndim) ax n) ay m
  = repeat 1%nat ax ++ n :: repeat 1%nat (ay - S ax)
    ++ m :: repeat 1%nat (ndim - S ay)
  /\ upd (upd (repeat 0%nat ndim) ax i) ay j
     = repeat 0%nat ax ++ i :: repeat 0%nat (ay - S ax)
       ++ j :: repeat 0%nat (ndim - S ay).
Proof.
  intros H1 H2. split; apply upd_repeat_two; assumption.
Qed.

Lemma Forall2_layout (p q r n m i j : nat) :
  (i < n)%nat -> (j < m)%nat ->
  Forall2 lt
    (repeat 0%nat p ++ i :: repeat 0%nat q ++ j :: repeat 0%nat r)
    (repeat 1%nat p ++ n :: repeat 1%nat q ++ m :: repeat 1%nat r).
Proof.
  intros Hi Hj.
  apply Forall2_app; [apply Forall2_repeat_lt|].
  constructor; [exact Hi|].
  apply Forall2_app; [apply Forall2_repeat_lt|].
  constructor; [exact Hj | apply Forall2_repeat_lt].
Qed.

(** Size of the kernel, position and validity of a cell's index, for
    distinct spatial axes in either order. *)
Lemma kernel_cell_position (ndim ax ay i j : nat) (ranges : Z * Z) :
  (ax < ndim)%nat -> (ay < ndim)%nat -> ax <> ay ->
  let n := Z.to_nat (1 + fst ranges * 2) in
  let m := Z.to_nat (1 + snd ranges * 2) in
  (i < n)%nat -> (j < m)%nat ->
  size_of (kernel_shape ndim ax ay ranges) = (n * m)%nat
  /\ Forall2 lt (kernel_index ndim ax ay i j) (kernel_shape ndim ax ay ranges)
  /\ ravel (kernel_shape ndim ax ay ranges) (kernel_index ndim ax ay i j)
     = if (ax <? ay)%nat then (i * m + j)%nat else (j * n + i)%nat.
Proof.
  intros Hx Hy Hne n m Hi Hj. rewrite kernel_shape_upd. unfold kernel_index.
  fold n m.
  destruct (Nat.ltb_spec ax ay) as [Hlt|Hge].
  - destruct (kernel_layout ndim ax ay n m i j Hlt Hy) as [-> ->].
    split; [|split].
    + apply size_of_two.
    + now apply Forall2_layout.
    + apply ravel_two.
  - assert (Hlt : (ay < ax)%nat) by lia.
    rewrite (upd_comm (repeat 1%nat ndim)) by exact Hne.
    rewrite (upd_comm (repeat 0%nat ndim)) by exact Hne.
    destruct (kernel_layout ndim ay ax m n j i Hlt Hx) as [-> ->].
    split; [|split].
    + rewrite size_of_two. lia.
    + now apply Forall2_layout.
    + apply ravel_two.
Qed.

Lemma nth_map_lt {A B} (f : A -> B) (l : list A) (t : nat) (d : A) (d' : B) :
  (t < List.length l)%nat -> nth t (map f l) d' = f (nth t l d).
Proof.
  intros H. rewrite (nth_indep _ d' (f d)) by (now rewrite length_map).
  apply map_nth.
Qed.

Lemma nth_repeat_lt {A} (c d : A) (n t : nat) :
  (t < n)%nat -> nth t (repeat c n) d = c.
Proof.
  intros H. rewrite (nth_indep _ d c) by (now rewrite repeat_length).
  apply nth_repeat_default.
Qed.

Lemma length_arange (a b : Z) : List.length (arange a b) = Z.to_nat (b - a).
Proof. unfold arange. now rewrite length_map, length_seq. Qed.

Lemma nth_arange (a b : Z) (i : nat) :
  (i < Z.to_nat (b - a))%nat -> nth i (arange a b) 0%Z = (a + Z.of_nat i)%Z.
Proof.
  intros H. unfold arange.
  rewrite (nth_map_lt _ _ _ 0%nat) by (now rewrite length_seq).
  now rewrite seq_nth.
Qed.

Lemma grid_extent (r : Z) : Z.to_nat (r + 1 - - r) = Z.to_nat (1 + r * 2).
Proof. f_equal. lia. Qed.

Lemma shape_sum_sq_grid (ranges : Z * Z) :
  shape (sum_sq_grid ranges)
  = [Z.to_nat (1 + fst ranges * 2); Z.to_nat (1 + snd ranges * 2)].
Proof.
  unfold sum_sq_grid. simpl. now rewrite !length_arange, !grid_extent.
Qed.

Lemma length_sum_sq_grid (ranges : Z * Z) :
  List.length (elems (sum_sq_grid ranges))
  = (Z.to_nat (1 + fst ranges * 2) * Z.to_nat (1 + snd ranges * 2))%nat.
Proof.
  unfold sum_sq_grid. simpl.
  assert (H : forall (l g : list Z),
             List.length
               (flat_map (fun a => map (fun b => (a ^ 2 + b ^ 2)%Z) g) l)
             = (List.length l * List.length g)%nat).
  { intros l g. induction l as [|x l IH]; [reflexivity|].
    cbn [flat_map]. rewrite length_app, length_map, IH. reflexivity. }
  now rewrite H, !length_arange, !grid_extent.
Qed.

(** The grid of squared distances at row [a], column [b]. *)
Lemma nth_sum_sq_grid (ranges : Z * Z) (a b : nat) :
  (a < Z.to_nat (1 + fst ranges * 2))%nat ->
  (b < Z.to_nat (1 + snd ranges * 2))%nat ->
  nth (a * Z.to_nat (1 + snd ranges * 2) + b) (elems (sum_sq_grid ranges)) 0%Z
  = ((Z.of_nat a - fst ranges) ^ 2 + (Z.of_nat b - snd ranges) ^ 2)%Z.
Proof.
  intros Ha Hb. unfold sum_sq_grid. simpl elems.
  rewrite <- !grid_extent in *.
  rewrite (nth_flat_map_blocks _ (Z.to_nat (snd ranges + 1 - - snd ranges))
             _ a b 0%Z 0%Z).
  - rewrite (nth_map_lt _ _ _ 0%Z) by (now rewrite length_arange).
    rewrite !nth_arange by assumption. f_equal; f_equal; lia.
  - intros x. now rewrite length_map, length_arange.
  - now rewrite length_arange.
  - exact Hb.
Qed.

(** The unweighted kernel, for distinct spatial axes. *)
Lemma build_kernel_unweighted (ndim ax ay : nat) (ranges : Z * Z) :
  (ax < ndim)%nat -> (ay < ndim)%nat -> ax <> ay ->
  (0 <= fst ranges)%Z -> (0 <= snd ranges)%Z ->
  build_kernel true ndim [ax; ay] ranges
  = Ok (mk_ndarray (kernel_shape ndim ax ay ranges)
          (map (fun p : bool * Q => if fst p then 0 else snd p)
             (combine
                (map (fun s => (s >? cumprod_last ranges)%Z)
                   (elems (sum_sq_grid ranges)))
                (repeat 1 (size_of (kernel_shape ndim ax ay ranges)))))).
Proof.
  intros Hx Hy Hne Hrx Hry. unfold build_kernel.
  rewrite fill_fullranges_ok by assumption. cbn [bind].
  rewrite np_ones_ok by assumption. cbn [bind].
  unfold np_reshape. cbn [shape elems].
  rewrite length_map, length_sum_sq_grid.
  assert (Hs : size_of (kernel_shape ndim ax ay ranges)
               = (Z.to_nat (1 + fst ranges * 2)
                  * Z.to_nat (1 + snd ranges * 2))%nat).
  { apply (kernel_cell_position ndim ax ay 0 0 ranges Hx Hy Hne); lia. }
  rewrite Hs, Nat.eqb_refl. reflexivity.
Qed.

Lemma get_mk {A} (d : A) (sh : list nat) (el : list A) (idx : list nat) :
  get d (mk_ndarray sh el) idx = nth (ravel sh idx) el d.
Proof. reflexivity. Qed.

(** A cell of the unweighted kernel, where the mask keeps its place: the x
    axis before the y axis, or equal ranges. *)
Lemma unweighted_cell (ndim ax ay : nat) (rx ry : Z) (k : ndarray Q)
    (cx cy : Z) :
  (ax < ndim)%nat -> (ay < ndim)%nat -> ax <> ay ->
  (0 <= rx)%Z -> (0 <= ry)%Z ->
  (ax < ay)%nat \/ rx = ry ->
  (- rx <= cx <= rx)%Z -> (- ry <= cy <= ry)%Z ->
  build_kernel true ndim [ax; ay] (rx, ry) = Ok k ->
  kernel_at k ndim ax ay (rx, ry) cx cy
  = if (cx ^ 2 + cy ^ 2 >? rx * ry)%Z then 0 else 1.
Proof.
  intros Hx Hy Hne Hrx Hry Hlay Hcx Hcy Hb.
  rewrite build_kernel_unweighted in Hb by assumption.
  apply Ok_inj in Hb. subst k.
  unfold kernel_at. rewrite get_mk. cbn [fst snd].
  set (i := Z.to_nat (cx + rx)). set (j := Z.to_nat (cy + ry)).
  set (n := Z.to_nat (1 + rx * 2)). set (m := Z.to_nat (1 + ry * 2)).
  assert (Hi : (i < n)%nat) by (unfold i, n; lia).
  assert (Hj : (j < m)%nat) by (unfold j, m; lia).
  destruct (kernel_cell_position ndim ax ay i j (rx, ry) Hx Hy Hne Hi Hj)
    as [Hs [_ Hr]].
  cbn [fst snd] in Hs, Hr. fold n m in Hs, Hr. rewrite Hr, Hs.
  set (t := if (ax <? ay)%nat then (i * m + j)%nat else (j * n + i)%nat).
  assert (Ht : (t < n * m)%nat).
  { unfold t. destruct (ax <? ay)%nat; nia. }
  assert (Hse : nth t (elems (sum_sq_grid (rx, ry))) 0%Z
                = (cx ^ 2 + cy ^ 2)%Z).
  { unfold t. destruct (Nat.ltb_spec ax ay) as [Hlt|Hge].
    - unfold m. change ry with (snd (rx, ry)) at 1.
      rewrite nth_sum_sq_grid by (cbn [fst snd]; assumption).
      cbn [fst snd]. unfold i, j. f_equal; f_equal; lia.
    - destruct Hlay as [Hlt| ->]; [lia|].
      assert (n = m) by reflexivity.
      unfold n. change ry with (snd (ry, ry)) at 1.
      rewrite nth_sum_sq_grid by (cbn [fst snd]; fold n m; lia).
      cbn [fst snd]. rewrite Z.add_comm. unfold i, j. f_equal; f_equal; lia. }
  rewrite (nth_map_lt _ _ _ (true, 0)).
  - rewrite combine_nth
      by (now rewrite length_map, length_sum_sq_grid, repeat_length).
    cbn [fst snd].
    rewrite (nth_map_lt _ _ _ 0%Z)
      by (rewrite length_sum_sq_grid; exact Ht).
    rewrite Hse. unfold cumprod_last. cbn [fst snd].
    destruct (cx ^ 2 + cy ^ 2 >? rx * ry)%Z; [reflexivity|].
    now apply nth_repeat_lt.
  - rewrite length_combine, length_map, length_sum_sq_grid, repeat_length.
    cbn [fst snd]. fold n m. lia.
Qed.

(** The weighted kernel, for distinct spatial axes: the assignment
    broadcasts or raises. *)
Lemma build_kernel_weighted (ndim ax ay : nat) (ranges : Z * Z) :
  (ax < ndim)%nat -> (ay < ndim)%nat -> ax <> ay ->
  (0 <= fst ranges)%Z -> (0 <= snd ranges)%Z ->
  build_kernel false ndim [ax; ay] ranges
  = if aligned_ok
         [Z.to_nat (1 + fst ranges * 2); Z.to_nat (1 + snd ranges * 2)]
         (kernel_shape ndim ax ay ranges)
    then Ok (mk_ndarray (kernel_shape ndim ax ay ranges)
               (map (fun p : bool * Q => if fst p then 0 else snd p)
                  (combine
                     (map (fun w => negb (Qle_bool 0 w))
                        (broadcast_weights ndim ax ay ranges))
                     (broadcast_weights ndim ax ay ranges))))
    else Raise (ValueError [Lit "could not broadcast input array"]).
Proof.
  intros Hx Hy Hne Hrx Hry. unfold build_kernel.
  rewrite fill_fullranges_ok by assumption. cbn [bind].
  rewrite np_ones_ok by assumption. cbn [bind].
  unfold assign_all. cbn [shape elems].
  rewrite shape_sum_sq_grid, length_kernel_shape.
  assert (E : squeeze_to ndim
                [Z.to_nat (1 + fst ranges * 2); Z.to_nat (1 + snd ranges * 2)]
              = Some [Z.to_nat (1 + fst ranges * 2);
                      Z.to_nat (1 + snd ranges * 2)]).
  { destruct ndim as [|[|ndim]]; [lia | lia | reflexivity]. }
  rewrite E.
  destruct (aligned_ok _ _); reflexivity.
Qed.

(** The raw weights broadcast into the kernel exactly when the spatial axes
    are the last two, in the order (x, y) or with equal ranges. *)
Lemma aligned_layout (k ax ay : nat) (ranges : Z * Z) :
  (ax < S (S k))%nat -> (ay < S (S k))%nat -> ax <> ay ->
  (1 <= fst ranges)%Z -> (1 <= snd ranges)%Z ->
  aligned_ok [Z.to_nat (1 + fst ranges * 2); Z.to_nat (1 + snd ranges * 2)]
    (kernel_shape (S (S k)) ax ay ranges) = true
  <-> (ax = k /\ ay = S k) \/ (ay = k /\ ax = S k /\ fst ranges = snd ranges).
Proof.
  intros Hx Hy Hne Hrx Hry. unfold aligned_ok.
  rewrite length_kernel_shape. cbn [List.length].
  replace (S (S k) - 2)%nat with k by lia.
  rewrite (skipn_last_two _ k 1%nat) by apply length_kernel_shape.
  rewrite !nth_kernel_shape by assumption.
  cbn [combine forallb fst snd].
  rewrite !andb_true_iff, !orb_true_iff, !Nat.eqb_eq.
  destruct (Nat.eqb_spec k ax), (Nat.eqb_spec k ay),
           (Nat.eqb_spec (S k) ax), (Nat.eqb_spec (S k) ay); lia.
Qed.

Lemma broadcast_index_last_two (k n m : nat) (idx : list nat) :
  List.length idx = S (S k) -> n <> 1%nat -> m <> 1%nat ->
  broadcast_index [n; m] idx = [nth k idx 0%nat; nth (S k) idx 0%nat].
Proof.
  intros Hl Hn Hm. unfold broadcast_index. rewrite Hl. cbn [List.length].
  replace (S (S k) - 2)%nat with k by lia.
  rewrite (skipn_last_two _ k 0%nat) by exact Hl.
  cbn [combine map fst snd].
  destruct (Nat.eqb_spec n 1); [contradiction|].
  destruct (Nat.eqb_spec m 1); [contradiction|]. reflexivity.
Qed.

Lemma length_kernel_index (ndim ax ay i j : nat) :
  List.length (kernel_index ndim ax ay i j) = ndim.
Proof.
  unfold kernel_index. rewrite !length_upd. apply repeat_length.
Qed.

(** A cell of the weighted kernel: the raw weight of its squared distance,
    or zero where that is negative. *)
Lemma weighted_cell (ndim ax ay : nat) (rx ry : Z) (k : ndarray Q)
    (cx cy : Z) :
  (ax < ndim)%nat -> (ay < ndim)%nat -> ax <> ay ->
  (1 <= rx)%Z -> (1 <= ry)%Z ->
  (- rx <= cx <= rx)%Z -> (- ry <= cy <= ry)%Z ->
  build_kernel false ndim [ax; ay] (rx, ry) = Ok k ->
  kernel_at k ndim ax ay (rx, ry) cx cy
  = if negb (Qle_bool 0 (raw_weight (rx, ry) (cx ^ 2 + cy ^ 2)))
    then 0 else raw_weight (rx, ry) (cx ^ 2 + cy ^ 2).
Proof.
  intros Hx Hy Hne Hrx Hry Hcx Hcy Hb.
  rewrite build_kernel_weighted in Hb by (cbn [fst snd]; lia || assumption).
  destruct ndim as [|[|nd]]; [lia | lia |].
  destruct (aligned_ok _ _) eqn:Ea; [|discriminate].
  apply aligned_layout in Ea; [|cbn [fst snd]; lia || assumption ..].
  cbn [fst snd] in Ea.
  apply Ok_inj in Hb. subst k.
  unfold kernel_at. rewrite get_mk. cbn [fst snd].
  set (i := Z.to_nat (cx + rx)). set (j := Z.to_nat (cy + ry)).
  set (n := Z.to_nat (1 + rx * 2)). set (m := Z.to_nat (1 + ry * 2)).
  assert (Hi : (i < n)%nat) by (unfold i, n; lia).
  assert (Hj : (j < m)%nat) by (unfold j, m; lia).
  destruct (kernel_cell_position (S (S nd)) ax ay i j (rx, ry)
              Hx Hy Hne Hi Hj) as [Hs [Hv _]].
  cbn [fst snd] in Hs. fold n m in Hs.
  set (t := ravel (kernel_shape (S (S nd)) ax ay (rx, ry))
              (kernel_index (S (S nd)) ax ay i j)).
  assert (Ht : (t < size_of (kernel_shape (S (S nd)) ax ay (rx, ry)))%nat)
    by (apply ravel_lt; exact Hv).
  assert (Hlen : List.length (broadcast_weights (S (S nd)) ax ay (rx, ry))
                 = size_of (kernel_shape (S (S nd)) ax ay (rx, ry))).
  { unfold broadcast_weights. now rewrite length_map, length_indices. }
  assert (Hw : nth t (broadcast_weights (S (S nd)) ax ay (rx, ry)) 0
               = raw_weight (rx, ry) (cx ^ 2 + cy ^ 2)).
  { unfold broadcast_weights. cbn [fst snd]. fold n m.
    rewrite (nth_map_lt _ _ _ []) by (rewrite length_indices; exact Ht).
    unfold t. rewrite nth_indices by exact Hv.
    rewrite (broadcast_index_last_two nd)
      by (rewrite ?length_kernel_index; unfold n, m; lia || reflexivity).
    rewrite !nth_kernel_index by assumption.
    assert (Hpos : forall a b, (a < n)%nat -> (b < m)%nat ->
              nth (ravel [n; m] [a; b])
                (map (raw_weight (rx, ry)) (elems (sum_sq_grid (rx, ry)))) 0
              = raw_weight (rx, ry)
                  ((Z.of_nat a - rx) ^ 2 + (Z.of_nat b - ry) ^ 2)).
    { intros a b Ha Hb.
      replace (ravel [n; m] [a; b]) with (a * m + b)%nat
        by (cbn [ravel size_of fold_right]; lia).
      rewrite (nth_map_lt _ _ _ 0%Z)
        by (rewrite length_sum_sq_grid; cbn [fst snd]; fold n m; nia).
      pose proof (nth_sum_sq_grid (rx, ry) a b) as Hg.
      cbn [fst snd] in Hg. fold n m in Hg.
      rewrite Hg by assumption. reflexivity. }
    destruct Ea as [[-> ->]|[-> [-> Er]]].
    - rewrite Nat.eqb_refl.
      destruct (Nat.eqb_spec (S nd) nd); [lia|]. rewrite Nat.eqb_refl.
      rewrite Hpos by assumption. unfold i, j. f_equal. f_equal; f_equal; lia.
    - subst ry.
      destruct (Nat.eqb_spec nd (S nd)); [lia|]. rewrite !Nat.eqb_refl.
      rewrite Hpos by (fold n m; assumption || exact Hi || exact Hj).
      unfold i, j. f_equal. rewrite Z.add_comm. f_equal; f_equal; lia. }
  rewrite (nth_map_lt _ _ _ (true, 0)).
  - rewrite combine_nth by (now rewrite length_map).
    cbn [fst snd].
    rewrite (nth_map_lt _ _ _ 0) by (rewrite Hlen; exact Ht).
    rewrite Hw. reflexivity.
  - rewrite length_combine, length_map, Nat.min_id, Hlen. exact Ht.
Qed.

Lemma build_kernel_shape (unweighted : bool) (ndim ax ay : nat)
    (ranges : Z * Z) (k : ndarray Q) :
  (ax < ndim)%nat -> (ay < ndim)%nat -> ax <> ay ->
  (0 <= fst ranges)%Z -> (0 <= snd ranges)%Z ->
  build_kernel unweighted ndim [ax; ay] ranges = Ok k ->
  shape k = kernel_shape ndim ax ay ranges.
Proof.
  intros Hx Hy Hne Hrx Hry Hb. destruct unweighted.
  - rewrite build_kernel_unweighted in Hb by assumption.
    apply Ok_inj in Hb. now subst k.
  - rewrite build_kernel_weighted in Hb by assumption.
    destruct (aligned_ok _ _); [|discriminate].
    apply Ok_inj in Hb. now subst k.
Qed.

(** Sign of the raw weight: positive inside the disc, zero on its boundary,
    negative outside; and strictly smaller at a larger squared distance. *)
Lemma raw_weight_sign (ranges : Z * Z) (s : Z) :
  (0 < cumprod_last ranges)%Z ->
  (0 <= raw_weight ranges s <-> (s <= cumprod_last ranges)%Z)
  /\ (raw_weight ranges s == 0 <-> s = cumprod_last ranges)
  /\ (0 < raw_weight ranges s <-> (s < cumprod_last ranges)%Z).
Proof.
  intros HP. unfold raw_weight.
  destruct (cumprod_last ranges) as [|p|p]; try lia.
  remember (Z.pos p - s)%Z as num eqn:Hnum.
  unfold Qdiv, Qinv, Qmult, Qle, Qlt, Qeq, inject_Z. simpl. lia.
Qed.

Lemma raw_weight_decreasing (ranges : Z * Z) (s s' : Z) :
  (0 < cumprod_last ranges)%Z -> (s < s')%Z ->
  raw_weight ranges s' < raw_weight ranges s.
Proof.
  intros HP Hs. unfold raw_weight.
  destruct (cumprod_last ranges) as [|p|p]; try lia.
  remember (Z.pos p - s)%Z as num eqn:Hnum.
  remember (Z.pos p - s')%Z as num' eqn:Hnum'.
  unfold Qdiv, Qinv, Qmult, Qlt, inject_Z. simpl. nia.
Qed.

Lemma zero_where_nonneg (ms : list bool) (ws : list Q) :
  Forall (fun w => 0 <= w) ws ->
  Forall (fun w => 0 <= w)
    (map (fun p : bool * Q => if fst p then 0 else snd p) (combine ms ws)).
Proof.
  intros H. revert ms. induction H as [|w ws Hw _ IH]; intros [|b ms];
    simpl; try constructor.
  - destruct b; [apply Qle_refl | exact Hw].
  - apply IH.
Qed.

Lemma zero_where_negative_nonneg (ws : list Q) :
  Forall (fun w => 0 <= w)
    (map (fun p : bool * Q => if fst p then 0 else snd p)
       (combine (map (fun w => negb (Qle_bool 0 w)) ws) ws)).
Proof.
  induction ws as [|w ws IH]; simpl; constructor; [|exact IH].
  destruct (Qle_bool 0 w) eqn:E; simpl.
  - now apply Qle_bool_iff.
  - apply Qle_refl.
Qed.

(** Every weight of a built kernel is non-negative, in both modes. *)
Lemma kernel_nonneg (unweighted : bool) (ndim : nat) (axes : list nat)
    (ranges : Z * Z) (k : ndarray Q) :
  build_kernel unweighted ndim axes ranges = Ok k ->
  Forall (fun w => 0 <= w) (elems k).
Proof.
  unfold build_kernel. intros Hb.
  destruct (fill_fullranges ndim axes ranges) as [fr|e]; [|discriminate].
  cbn [bind] in Hb. unfold np_ones in Hb.
  destruct (existsb _ _); [discriminate|]. cbn [bind] in Hb.
  destruct unweighted.
  - unfold np_reshape in Hb.
    destruct (_ =? _)%nat; [|discriminate]. cbn [bind] in Hb.
    apply Ok_inj in Hb. subst k. unfold zero_where. cbn [elems].
    apply zero_where_nonneg. apply Forall_forall.
    intros w Hin. apply repeat_spec in Hin. subst w. discriminate.
  - destruct (assign_all _ _ _) as [k1|e]; [|discriminate].
    cbn [bind] in Hb. apply Ok_inj in Hb. subst k.
    unfold zero_where. cbn [elems]. apply zero_where_negative_nonneg.
Qed.

(** C1, corrected. For ranges in 1..500 and distinct spatial axes, the
    kernel has extent [2 * range + 1] along each spatial axis and 1 along
    every other axis.  Where the x axis precedes the y axis or the ranges
    are equal, the cell at [(cx, cy)] is zero exactly when
    [cx^2 + cy^2 > rx * ry] in unweighted mode, and exactly when
    [cx^2 + cy^2 >= rx * ry] in weighted mode. *)
Theorem kernel_postcondition (unweighted : bool) (ndim ax ay : nat)
    (rx ry : Z) (k : ndarray Q) :
  (1 <= rx <= 500)%Z -> (1 <= ry <= 500)%Z ->
  (ax < ndim)%nat -> (ay < ndim)%nat -> ax <> ay ->
  build_kernel unweighted ndim [ax; ay] (rx, ry) = Ok k ->
  (List.length (shape k) = ndim
   /\ forall d, (d < ndim)%nat ->
        Z.of_nat (nth d (shape k) 1%nat)
        = if (d =? ax)%nat then (2 * rx + 1)%Z
          else if (d =? ay)%nat then (2 * ry + 1)%Z else 1%Z)
  /\ ((ax < ay)%nat \/ rx = ry ->
      forall cx cy, (- rx <= cx <= rx)%Z -> (- ry <= cy <= ry)%Z ->
        (kernel_at k ndim ax ay (rx, ry) cx cy == 0
         <-> if unweighted then (cx ^ 2 + cy ^ 2 > rx * ry)%Z
             else (cx ^ 2 + cy ^ 2 >= rx * ry)%Z)).
Proof.
  intros Hrx Hry Hx Hy Hne Hb. split.
  - rewrite (build_kernel_shape unweighted ndim ax ay (rx, ry) k)
      by (cbn [fst snd]; lia || assumption).
    split; [apply length_kernel_shape|].
    intros d Hd. rewrite nth_kernel_shape by assumption. cbn [fst snd].
    destruct (d =? ax)%nat; [lia|]. destruct (d =? ay)%nat; lia.
  - intros Hlay cx cy Hcx Hcy. destruct unweighted.
    + rewrite (unweighted_cell ndim ax ay rx ry k cx cy)
        by (lia || assumption).
      destruct (Z.gtb_spec (cx ^ 2 + cy ^ 2) (rx * ry)) as [Hgt|Hle].
      * split; [intros _; lia | reflexivity].
      * split; [intros H; discriminate H | lia].
    + rewrite (weighted_cell ndim ax ay rx ry k cx cy)
        by (lia || assumption).
      assert (HP : (0 < cumprod_last (rx, ry))%Z)
        by (unfold cumprod_last; cbn [fst snd]; nia).
      destruct (raw_weight_sign (rx, ry) (cx ^ 2 + cy ^ 2) HP)
        as [Hle [Heq _]].
      unfold cumprod_last in Hle, Heq. cbn [fst snd] in Hle, Heq.
      destruct (Qle_bool 0 (raw_weight (rx, ry) (cx ^ 2 + cy ^ 2))) eqn:E;
        cbn [negb].
      * apply Qle_bool_iff in E. apply Hle in E.
        rewrite Heq. lia.
      * split; [intros _ | reflexivity].
        destruct (Z_le_gt_dec (cx ^ 2 + cy ^ 2) (rx * ry)) as [H|H]; [|lia].
        apply Hle in H. apply Qle_bool_iff in H. congruence.
Qed.

Lemma kernel_postcondition_witness :
  exists k,
    build_kernel false 3 [1; 2]%nat (2, 2)%Z = Ok k
    /\ Z.of_nat (nth 0 (shape k) 1%nat) = 1%Z
    /\ Z.of_nat (nth 1 (shape k) 1%nat) = (2 * 2 + 1)%Z
    /\ (kernel_at k 3 1 2 (2, 2)%Z 2 0 == 0 <-> (2 ^ 2 + 0 ^ 2 >= 2 * 2)%Z).
Proof.
  eexists. split; [reflexivity|].
  destruct (kernel_postcondition false 3 1 2 2 2 _
              ltac:(lia) ltac:(lia) ltac:(lia) ltac:(lia) ltac:(lia) eq_refl)
    as [[_ Hshape] Hcell].
  split; [|split].
  - apply (Hshape 0%nat). lia.
  - apply (Hshape 1%nat). lia.
  - apply (Hcell ltac:(left; lia) 2%Z 0%Z); lia.
Defined.

(** C1 as stated fails in weighted mode: with ranges (1, 1) the cell at
    (1, 0) lies on the disc boundary, [1 > 1] does not hold, yet its weight
    is zero; the same cell of the unweighted kernel is one. *)
Lemma kernel_postcondition_counterexample :
  exists kw ku,
    build_kernel false 2 [0; 1]%nat (1, 1)%Z = Ok kw
    /\ build_kernel true 2 [0; 1]%nat (1, 1)%Z = Ok ku
    /\ kernel_at kw 2 0 1 (1, 1)%Z 1 0 == 0
    /\ kernel_at ku 2 0 1 (1, 1)%Z 1 0 == 1
    /\ ~ (1 ^ 2 + 0 ^ 2 > 1 * 1)%Z.
Proof.
  do 2 eexists. split; [reflexivity|]. split; [reflexivity|].
  split; [reflexivity|]. split; [reflexivity|]. lia.
Qed.

(** C6. In weighted mode the weight at [(cx, cy)] is
    [(rx*ry - (cx^2 + cy^2)) / (rx*ry)], or zero where that is negative;
    along a ray from the centre the weights strictly decrease from cell to
    cell while they are positive, and they are zero from the disc boundary
    on; every weight of a kernel, in either mode, is non-negative. *)
Theorem weighted_kernel_weights :
  (forall ndim ax ay rx ry k,
      (ax < ndim)%nat -> (ay < ndim)%nat -> ax <> ay ->
      (1 <= rx)%Z -> (1 <= ry)%Z ->
      build_kernel false ndim [ax; ay] (rx, ry) = Ok k ->
      (forall cx cy, (- rx <= cx <= rx)%Z -> (- ry <= cy <= ry)%Z ->
         let raw :=
           inject_Z (rx * ry - (cx ^ 2 + cy ^ 2)) / inject_Z (rx * ry) in
         (raw < 0 -> kernel_at k ndim ax ay (rx, ry) cx cy == 0)
         /\ (0 <= raw -> kernel_at k ndim ax ay (rx, ry) cx cy == raw))
      /\ (forall a b t,
            (a, b) <> (0, 0)%Z -> (0 <= t)%Z ->
            (- rx <= (t + 1) * a <= rx)%Z -> (- ry <= (t + 1) * b <= ry)%Z ->
            0 < kernel_at k ndim ax ay (rx, ry) (t * a) (t * b) ->
            kernel_at k ndim ax ay (rx, ry) ((t + 1) * a) ((t + 1) * b)
            < kernel_at k ndim ax ay (rx, ry) (t * a) (t * b))
      /\ (forall cx cy, (- rx <= cx <= rx)%Z -> (- ry <= cy <= ry)%Z ->
            (rx * ry <= cx ^ 2 + cy ^ 2)%Z ->
            kernel_at k ndim ax ay (rx, ry) cx cy == 0))
  /\ (forall unweighted ndim axes ranges k,
         build_kernel unweighted ndim axes ranges = Ok k ->
         Forall (fun w => 0 <= w) (elems k)).
Proof.
  split; [|exact kernel_nonneg].
  intros ndim ax ay rx ry k Hx Hy Hne Hrx Hry Hb.
  assert (HP : (0 < cumprod_last (rx, ry))%Z)
    by (unfold cumprod_last; cbn [fst snd]; nia).
  assert (Hcell : forall cx cy,
             (- rx <= cx <= rx)%Z -> (- ry <= cy <= ry)%Z ->
             kernel_at k ndim ax ay (rx, ry) cx cy
             = if negb (Qle_bool 0 (raw_weight (rx, ry) (cx ^ 2 + cy ^ 2)))
               then 0 else raw_weight (rx, ry) (cx ^ 2 + cy ^ 2)).
  { intros cx cy Hcx Hcy. now apply weighted_cell. }
  split; [|split].
  - intros cx cy Hcx Hcy raw.
    change raw with (raw_weight (rx, ry) (cx ^ 2 + cy ^ 2)).
    rewrite (Hcell cx cy Hcx Hcy).
    destruct (Qle_bool 0 (raw_weight (rx, ry) (cx ^ 2 + cy ^ 2))) eqn:E;
      cbn [negb].
    + apply Qle_bool_iff in E. split; [|reflexivity].
      intros Hneg. exfalso. exact (Qlt_not_le _ _ Hneg E).
    + split; [reflexivity|].
      intros Hge. apply Qle_bool_iff in Hge. congruence.
  - intros a b t Hab Ht Hxa Hyb.
    assert (Ha : (- rx <= t * a <= rx)%Z) by nia.
    assert (Hb' : (- ry <= t * b <= ry)%Z) by nia.
    rewrite (Hcell _ _ Ha Hb'), (Hcell _ _ Hxa Hyb).
    assert (Hfar : ((t * a) ^ 2 + (t * b) ^ 2
                    < ((t + 1) * a) ^ 2 + ((t + 1) * b) ^ 2)%Z).
    { assert (a <> 0 \/ b <> 0)%Z
        by (destruct (Z.eq_dec a 0); [right; congruence | left; assumption]).
      nia. }
    pose proof (raw_weight_decreasing (rx, ry) _ _ HP Hfar) as Hdec.
    set (w := raw_weight (rx, ry) ((t * a) ^ 2 + (t * b) ^ 2)) in *.
    set (w' := raw_weight (rx, ry)
                 (((t + 1) * a) ^ 2 + ((t + 1) * b) ^ 2)) in *.
    destruct (Qle_bool 0 w) eqn:E; cbn [negb];
      [|intros H; exfalso; exact (Qlt_irrefl _ H)].
    intros Hpos.
    destruct (Qle_bool 0 w') eqn:E'; cbn [negb]; assumption.
  - intros cx cy Hcx Hcy Hout. rewrite (Hcell _ _ Hcx Hcy).
    destruct (raw_weight_sign (rx, ry) (cx ^ 2 + cy ^ 2) HP) as [Hle [Heq _]].
    unfold cumprod_last in Hle, Heq. cbn [fst snd] in Hle, Heq.
    destruct (Qle_bool 0 (raw_weight (rx, ry) (cx ^ 2 + cy ^ 2))) eqn:E;
      cbn [negb]; [|reflexivity].
    apply Qle_bool_iff in E. apply Hle in E. apply Heq. lia.
Qed.

Lemma weighted_kernel_weights_witness :
  exists k,
    build_kernel false 2 [0; 1]%nat (2, 2)%Z = Ok k
    /\ kernel_at k 2 0 1 (2, 2)%Z 2 2 == 0
    /\ kernel_at k 2 0 1 (2, 2)%Z 1 0
       == inject_Z (2 * 2 - (1 ^ 2 + 0 ^ 2)) / inject_Z (2 * 2)
    /\ kernel_at k 2 0 1 (2, 2)%Z ((0 + 1) * 1) ((0 + 1) * 0)
       < kernel_at k 2 0 1 (2, 2)%Z (0 * 1) (0 * 0)
    /\ kernel_at k 2 0 1 (2, 2)%Z 2 0 == 0
    /\ Forall (fun w => 0 <= w) (elems k).
Proof.
  eexists. split; [reflexivity|].
  destruct (proj1 weighted_kernel_weights 2%nat 0%nat 1%nat 2%Z 2%Z _
              ltac:(lia) ltac:(lia) ltac:(lia) ltac:(lia) ltac:(lia) eq_refl)
    as [Hcell [Hray Hzero]].
  split; [|split; [|split; [|split]]].
  - apply (proj1 (Hcell 2%Z 2%Z ltac:(lia) ltac:(lia))). reflexivity.
  - apply (proj2 (Hcell 1%Z 0%Z ltac:(lia) ltac:(lia))). discriminate.
  - apply (Hray 1%Z 0%Z 0%Z); try lia; [discriminate | reflexivity].
  - apply (Hzero 2%Z 0%Z); lia.
  - apply (proj2 weighted_kernel_weights false 2%nat [0; 1]%nat (2, 2)%Z).
    reflexivity.
Defined.

(** ** Kernel symmetry *)

(** Where the mask keeps its place, the kernel is mirrored about both
    axes. *)
Lemma kernel_symmetry_aligned (unweighted : bool) (ndim ax ay : nat)
    (rx ry : Z) (k : ndarray Q) (cx cy : Z) :
  (1 <= rx)%Z -> (1 <= ry)%Z ->
  (ax < ndim)%nat -> (ay < ndim)%nat -> ax <> ay ->
  (ax < ay)%nat \/ rx = ry ->
  (- rx <= cx <= rx)%Z -> (- ry <= cy <= ry)%Z ->
  build_kernel unweighted ndim [ax; ay] (rx, ry) = Ok k ->
  kernel_at k ndim ax ay (rx, ry) (- cx) cy
  = kernel_at k ndim ax ay (rx, ry) cx cy
  /\ kernel_at k ndim ax ay (rx, ry) cx (- cy)
     = kernel_at k ndim ax ay (rx, ry) cx cy
  /\ kernel_at k ndim ax ay (rx, ry) (- cx) (- cy)
     = kernel_at k ndim ax ay (rx, ry) cx cy.
Proof.
  intros Hrx Hry Hx Hy Hne Hlay Hcx Hcy Hb.
  assert (E1 : ((- cx) ^ 2 = cx ^ 2)%Z) by ring.
  assert (E2 : ((- cy) ^ 2 = cy ^ 2)%Z) by ring.
  destruct unweighted.
  - rewrite !(unweighted_cell ndim ax ay rx ry k) by (lia || assumption).
    rewrite E1, E2. repeat split.
  - rewrite !(weighted_cell ndim ax ay rx ry k) by (lia || assumption).
    rewrite E1, E2. repeat split.
Qed.

(** C7, on the grid with axes (y, x), 1 km rows and 2 km columns, and a
    radius of 2 km: the ranges are (1, 2), and the unweighted kernel has
    weight 0 at (-1, -2) but weight 1 at its mirror image (1, -2), so that
    the single one at the centre of the field is smoothed into a pattern
    that is not mirrored either; in weighted mode the same kernel cannot be
    built. *)
Theorem unweighted_kernel_not_mirrored :
  spatial_axes anisotropic_grid = Ok [1; 0]%nat
  /\ _get_grid_x_y_kernel_ranges anisotropic_grid 2 = Ok (1, 2)%Z
  /\ (exists k,
         build_kernel true 2 [1; 0]%nat (1, 2)%Z = Ok k
         /\ shape k = [5; 3]%nat
         /\ elems k = [0; 1; 1; 1; 0; 0; 1; 1; 1; 0; 0; 1; 1; 1; 0]
         /\ kernel_at k 2 1 0 (1, 2)%Z (-1) (-2) = 0
         /\ kernel_at k 2 1 0 (1, 2)%Z 1 (-2) = 1)
  /\ (exists out,
         process (mk_plugin (RFloat 2) None true) anisotropic_grid
         = Ok (out, out)
         /\ elems (data out)
            = [Val (1 # 9); Val (0 # 9); Val (0 # 9);
               Val (1 # 9); Val (1 # 9); Val (1 # 9);
               Val (0 # 9); Val (0 # 9); Val (1 # 9)])
  /\ build_kernel false 2 [1; 0]%nat (1, 2)%Z
     = Raise (ValueError [Lit "could not broadcast input array"]).
Proof.
  split; [reflexivity|]. split; [reflexivity|].
  split; [|split; [|reflexivity]].
  - eexists. split; [reflexivity|]. repeat split.
  - eexists. split; [vm_compute; reflexivity | reflexivity].
Qed.

(** ** Convolver *)

(** A built kernel has as many cells as its shape says. *)
Lemma build_kernel_wf (unweighted : bool) (ndim ax ay : nat)
    (ranges : Z * Z) (k : ndarray Q) :
  (ax < ndim)%nat -> (ay < ndim)%nat -> ax <> ay ->
  (0 <= fst ranges)%Z -> (0 <= snd ranges)%Z ->
  build_kernel unweighted ndim [ax; ay] ranges = Ok k ->
  shape k = kernel_shape ndim ax ay ranges
  /\ List.length (elems k) = size_of (kernel_shape ndim ax ay ranges).
Proof.
  intros Hx Hy Hne Hrx Hry Hb.
  assert (Hs : size_of (kernel_shape ndim ax ay ranges)
               = (Z.to_nat (1 + fst ranges * 2)
                  * Z.to_nat (1 + snd ranges * 2))%nat).
  { apply (kernel_cell_position ndim ax ay 0 0 ranges Hx Hy Hne); lia. }
  destruct unweighted.
  - rewrite build_kernel_unweighted in Hb by assumption.
    apply Ok_inj in Hb. subst k. cbn [shape elems]. split; [reflexivity|].
    rewrite length_map, length_combine, length_map, length_sum_sq_grid,
      repeat_length, Hs. apply Nat.min_id.
  - rewrite build_kernel_weighted in Hb by assumption.
    destruct (aligned_ok _ _); [|discriminate].
    apply Ok_inj in Hb. subst k. cbn [shape elems]. split; [reflexivity|].
    rewrite length_map, length_combine, length_map, Nat.min_id.
    unfold broadcast_weights. now rewrite length_map, length_indices.
Qed.

(** The kernel can be built in unweighted mode, and in weighted mode when
    the spatial axes are the last two, in the order (x, y) or with equal
    ranges. *)
Lemma build_kernel_succeeds (unweighted : bool) (ndim ax ay : nat)
    (rx ry : Z) :
  (ax < ndim)%nat -> (ay < ndim)%nat -> ax <> ay ->
  (1 <= rx)%Z -> (1 <= ry)%Z ->
  unweighted = true
  \/ (S ax = ay /\ S ay = ndim)
  \/ (S ay = ax /\ S ax = ndim /\ rx = ry) ->
  exists k, build_kernel unweighted ndim [ax; ay] (rx, ry) = Ok k.
Proof.
  intros Hx Hy Hne Hrx Hry Hlay. destruct unweighted.
  - rewrite build_kernel_unweighted by (cbn [fst snd]; lia || assumption).
    eexists. reflexivity.
  - destruct Hlay as [Hu|Hlay]; [discriminate|].
    rewrite build_kernel_weighted by (cbn [fst snd]; lia || assumption).
    destruct ndim as [|[|nd]]; [lia | lia |].
    assert (Ea : aligned_ok
                   [Z.to_nat (1 + fst (rx, ry) * 2);
                    Z.to_nat (1 + snd (rx, ry) * 2)]
                   (kernel_shape (S (S nd)) ax ay (rx, ry)) = true).
    { apply aligned_layout; cbn [fst snd]; lia || assumption. }
    rewrite Ea. eexists. reflexivity.
Qed.

Lemma sum_nonneg (l : list Q) :
  Forall (fun x => 0 <= x) l -> 0 <= fold_right Qplus 0 l.
Proof.
  intros H. induction H as [|x l Hx _ IH]; [apply Qle_refl|].
  cbn [fold_right]. replace 0 with (0 + 0)%Q by reflexivity.
  now apply Qplus_le_compat.
Qed.

Lemma sum_positive (l : list Q) (w : Q) :
  Forall (fun x => 0 <= x) l -> In w l -> 0 < w ->
  0 < fold_right Qplus 0 l.
Proof.
  intros Hall. induction Hall as [|x l Hx Hl IH]; intros Hin Hw;
    [contradiction|].
  cbn [fold_right]. replace 0 with (0 + 0)%Q by reflexivity.
  destruct Hin as [->|Hin].
  - apply Qplus_lt_le_compat; [exact Hw | now apply sum_nonneg].
  - rewrite (Qplus_comm x).
    apply Qplus_lt_le_compat; [now apply IH | exact Hx].
Qed.

(** The centre of the kernel carries weight, so the kernel sum by which the
    correlation is divided is positive. *)
Lemma kernel_sum_positive (unweighted : bool) (ndim ax ay : nat)
    (rx ry : Z) (k : ndarray Q) :
  (ax < ndim)%nat -> (ay < ndim)%nat -> ax <> ay ->
  (1 <= rx)%Z -> (1 <= ry)%Z ->
  build_kernel unweighted ndim [ax; ay] (rx, ry) = Ok k ->
  0 < np_sum k.
Proof.
  intros Hx Hy Hne Hrx Hry Hb.
  pose proof (kernel_nonneg _ _ _ _ _ Hb) as Hall.
  assert (HP : (0 < cumprod_last (rx, ry))%Z)
    by (unfold cumprod_last; cbn [fst snd]; nia).
  destruct (build_kernel_wf unweighted ndim ax ay (rx, ry) k)
    as [Hsh Hlen]; try (cbn [fst snd]; lia || assumption).
  set (n := Z.to_nat (1 + rx * 2)) in *.
  set (m := Z.to_nat (1 + ry * 2)) in *.
  destruct unweighted.
  - set (t := (Z.to_nat rx * m + Z.to_nat ry)%nat).
    assert (Hs : size_of (kernel_shape ndim ax ay (rx, ry)) = (n * m)%nat).
    { apply (kernel_cell_position ndim ax ay 0 0 (rx, ry) Hx Hy Hne);
        cbn [fst snd]; lia. }
    assert (Ht : (t < n * m)%nat) by (unfold t, n, m; nia).
    assert (Hc : nth t (elems k) 0 = 1).
    { rewrite build_kernel_unweighted in Hb
        by (cbn [fst snd]; lia || assumption).
      apply Ok_inj in Hb. subst k. cbn [elems].
      rewrite (nth_map_lt _ _ _ (true, 0))
        by (rewrite length_combine, length_map, length_sum_sq_grid,
              repeat_length, Hs; cbn [fst snd]; fold n m; lia).
      rewrite combine_nth
        by (rewrite length_map, length_sum_sq_grid, repeat_length, Hs;
            reflexivity).
      cbn [fst snd].
      rewrite (nth_map_lt _ _ _ 0%Z)
        by (rewrite length_sum_sq_grid; cbn [fst snd]; fold n m; exact Ht).
      pose proof (nth_sum_sq_grid (rx, ry) (Z.to_nat rx) (Z.to_nat ry)) as Hg.
      cbn [fst snd] in Hg. fold n m in Hg. fold t in Hg.
      rewrite Hg by (unfold n, m; lia).
      rewrite !Z2Nat.id, !Z.sub_diag by lia.
      destruct (Z.gtb_spec (0 ^ 2 + 0 ^ 2) (cumprod_last (rx, ry)));
        [simpl in *; lia|].
      apply nth_repeat_lt. rewrite Hs. exact Ht. }
    apply (sum_positive (elems k) 1 Hall); [|reflexivity].
    rewrite <- Hc. apply nth_In. rewrite Hlen, Hs. exact Ht.
  - pose proof (weighted_cell ndim ax ay rx ry k 0 0 Hx Hy Hne Hrx Hry)
      as Hc.
    specialize (Hc ltac:(lia) ltac:(lia) Hb).
    change (0 ^ 2 + 0 ^ 2)%Z with 0%Z in Hc.
    destruct (raw_weight_sign (rx, ry) 0 HP) as [Hle [_ Hpos]].
    assert (Hw : 0 < raw_weight (rx, ry) 0) by (apply Hpos; exact HP).
    assert (E : Qle_bool 0 (raw_weight (rx, ry) 0) = true)
      by (apply Qle_bool_iff, Qlt_le_weak; exact Hw).
    rewrite E in Hc. cbn [negb] in Hc.
    apply (sum_positive (elems k) (raw_weight (rx, ry) 0) Hall); [|exact Hw].
    rewrite <- Hc. unfold kernel_at, get. apply nth_In.
    rewrite Hlen, Hsh. apply ravel_lt.
    apply (kernel_cell_position ndim ax ay _ _ (rx, ry) Hx Hy Hne);
      cbn [fst snd]; lia.
Qed.

Lemma clamp_lt (n : nat) (z : Z) : (0 < n)%nat -> (clamp n z < n)%nat.
Proof. unfold clamp. lia. Qed.

(** With edge replication every index read lies inside the input. *)
Lemma ravel_neighbour_lt (dsh ksh i k : list nat) :
  (0 < size_of dsh)%nat ->
  (ravel dsh (neighbour dsh ksh i k) < size_of dsh)%nat.
Proof.
  revert ksh i k. induction dsh as [|n dsh IH]; intros ksh i k Hpos.
  - simpl. lia.
  - cbn [size_of fold_right] in Hpos. fold (size_of dsh) in Hpos.
    assert (Hn : (0 < n)%nat) by nia.
    assert (Hd : (0 < size_of dsh)%nat) by nia.
    destruct ksh as [|K ksh], i as [|a i], k as [|b k];
      try (cbn [neighbour ravel size_of fold_right];
           fold (size_of dsh); nia).
    cbn [neighbour ravel size_of fold_right]. fold (size_of dsh).
    pose proof (clamp_lt n (Z.of_nat a + Z.of_nat b - Z.of_nat (K / 2)) Hn).
    pose proof (IH ksh i k Hd). nia.
Qed.




(** ** Orchestration *)

Lemma bind_raise {A B} (r : result A) (k : A -> result B) (e : exn) :
  bind r k = Raise e ->
  r = Raise e \/ exists a, r = Ok a /\ k a = Raise e.
Proof.
  destruct r as [a|e']; simpl; intros H.
  - right. exists a. split; [reflexivity | exact H].
  - left. injection H as ->. reflexivity.
Qed.

Lemma Raise_inj {A} (e e' : exn) : @Raise A e = Raise e' -> e = e'.
Proof. intros H. now injection H. Qed.

Ltac raise_step :=
  match goal with
  | H : Ok _ = Raise _ |- _ => discriminate H
  | H : Raise _ = Raise _ |- _ => apply Raise_inj in H; subst
  | H : bind _ _ = Raise _ |- _ =>
      apply bind_raise in H; destruct H as [H | [? [? H]]]
  | H : (if ?b then _ else _) = Raise _ |- _ => destruct b eqn:?
  | H : match ?x with _ => _ end = Raise _ |- _ => destruct x eqn:?
  end.

Create HintDb raises.

Lemma cube_coord_raises (c : cube) (name : string) (e : exn) :
  cube_coord c name = Raise e -> exists m, e = CoordinateNotFoundError m.
Proof.
  unfold cube_coord. intros H. repeat raise_step; eexists; reflexivity.
Qed.

Lemma cube_coord_benign (c : cube) (name : string) (e : exn) :
  cube_coord c name = Raise e -> is_validity e = false.
Proof.
  intros H. apply cube_coord_raises in H. destruct H as [m ->]. reflexivity.
Qed.
#[local] Hint Resolve cube_coord_benign : raises.

Lemma convert_units_benign (k : coord) (u : unit_t) (e : exn) :
  convert_units k u = Raise e -> is_validity e = false.
Proof.
  unfold convert_units. intros H. repeat raise_step. reflexivity.
Qed.
#[local] Hint Resolve convert_units_benign : raises.

Lemma convert_units64_benign (k : coord) (u : unit_t) (e : exn) :
  convert_units64 k u = Raise e -> is_validity e = false.
Proof.
  unfold convert_units64. intros H. repeat raise_step. reflexivity.
Qed.
#[local] Hint Resolve convert_units64_benign : raises.

Lemma first_difference_benign (l : list float64) (e : exn) :
  first_difference l = Raise e -> is_validity e = false.
Proof.
  unfold first_difference. intros H. repeat raise_step; reflexivity.
Qed.
#[local] Hint Resolve first_difference_benign : raises.

Lemma spatial_coords_benign (c : cube) (e : exn) :
  spatial_coords c = Raise e -> is_validity e = false.
Proof.
  unfold spatial_coords. intros H.
  destruct (cube_coord c "projection_x_coordinate") as [x|e1] eqn:E1.
  - destruct (cube_coord c "projection_y_coordinate") as [y|e2] eqn:E2.
    + discriminate H.
    + apply cube_coord_raises in E2. destruct E2 as [m ->].
      simpl in H. apply Raise_inj in H. subst. reflexivity.
  - apply cube_coord_raises in E1. destruct E1 as [m ->].
    simpl in H. apply Raise_inj in H. subst. reflexivity.
Qed.
#[local] Hint Resolve spatial_coords_benign : raises.

Lemma grid_spacings_benign (c : cube) (e : exn) :
  grid_spacings c = Raise e -> is_validity e = false.
Proof.
  unfold grid_spacings. intros H. repeat raise_step; eauto with raises.
Qed.
#[local] Hint Resolve grid_spacings_benign : raises.

Lemma int_of_quotient_benign (a b : float64) (e : exn) :
  int_of_quotient a b = Raise e -> is_validity e = false.
Proof.
  unfold int_of_quotient, int_of_float. intros H.
  repeat raise_step; reflexivity.
Qed.
#[local] Hint Resolve int_of_quotient_benign : raises.

Lemma check_cell_extents_benign (r : Q) (gx gy : Z) (e : exn) :
  check_cell_extents r gx gy = Raise e -> is_validity e = false.
Proof.
  unfold check_cell_extents. intros H. repeat raise_step; reflexivity.
Qed.
#[local] Hint Resolve check_cell_extents_benign : raises.

Lemma resolver_benign (c : cube) (r : Q) (e : exn) :
  _get_grid_x_y_kernel_ranges c r = Raise e -> is_validity e = false.
Proof.
  unfold _get_grid_x_y_kernel_ranges. intros H.
  repeat raise_step; eauto with raises.
Qed.
#[local] Hint Resolve resolver_benign : raises.

Lemma spatial_axes_benign (c : cube) (e : exn) :
  spatial_axes c = Raise e -> is_validity e = false.
Proof.
  unfold spatial_axes, cube_coord_dim0. intros H.
  destruct (cube_coord c "projection_x_coordinate") as [x|e1] eqn:E1.
  - cbn [bind] in H.
    destruct (coord_dim x); cbn [bind] in H.
    + destruct (cube_coord c "projection_y_coordinate") as [y|e2] eqn:E2.
      * cbn [bind] in H. destruct (coord_dim y); cbn [bind] in H.
        -- discriminate H.
        -- apply Raise_inj in H. subst. reflexivity.
      * apply cube_coord_raises in E2. destruct E2 as [m ->].
        cbn [bind] in H. apply Raise_inj in H. subst. reflexivity.
    + apply Raise_inj in H. subst. reflexivity.
  - apply cube_coord_raises in E1. destruct E1 as [m ->].
    cbn [bind] in H. apply Raise_inj in H. subst. reflexivity.
Qed.
#[local] Hint Resolve spatial_axes_benign : raises.

Lemma set_item_benign {A} (l : list A) (k : nat) (v : A) (e : exn) :
  set_item l k v = Raise e -> is_validity e = false.
Proof.
  unfold set_item. intros H. repeat raise_step. reflexivity.
Qed.

Lemma fill_fullranges_benign (ndim : nat) (axes : list nat)
    (ranges : Z * Z) (e : exn) :
  fill_fullranges ndim axes ranges = Raise e -> is_validity e = false.
Proof.
  unfold fill_fullranges.
  assert (G : forall (work : list (nat * Z)) (acc : result (list Z)),
             (forall e0, acc = Raise e0 -> is_validity e0 = false) ->
             fold_left
               (fun (acc0 : result (list Z)) (p : nat * Z) =>
                  fr <- acc0 ;; set_item fr (fst p) (snd p))
               work acc = Raise e ->
             is_validity e = false).
  { induction work as [|p work IH]; intros acc Hacc H.
    - simpl in H. now apply Hacc.
    - simpl in H. apply IH in H; [exact H|].
      intros e0 H0. apply bind_raise in H0.
      destruct H0 as [H0 | [fr [_ H0]]].
      + now apply Hacc.
      + now apply set_item_benign in H0. }
  apply G. intros e0 H0. discriminate H0.
Qed.
#[local] Hint Resolve fill_fullranges_benign : raises.

Lemma np_ones_benign (dims : list Z) (e : exn) :
  np_ones dims = Raise e -> is_validity e = false.
Proof.
  unfold np_ones. intros H. repeat raise_step. reflexivity.
Qed.
#[local] Hint Resolve np_ones_benign : raises.

Lemma np_reshape_benign {A} (a : ndarray A) (sh : list nat) (e : exn) :
  np_reshape a sh = Raise e -> is_validity e = false.
Proof.
  unfold np_reshape. intros H. repeat raise_step. reflexivity.
Qed.
#[local] Hint Resolve np_reshape_benign : raises.

Lemma assign_all_benign {A} (d : A) (t v : ndarray A) (e : exn) :
  assign_all d t v = Raise e -> is_validity e = false.
Proof.
  unfold assign_all. intros H. repeat raise_step; reflexivity.
Qed.
#[local] Hint Resolve assign_all_benign : raises.

Lemma build_kernel_benign (u : bool) (ndim : nat) (axes : list nat)
    (ranges : Z * Z) (e : exn) :
  build_kernel u ndim axes ranges = Raise e -> is_validity e = false.
Proof.
  unfold build_kernel. intros H.
  apply bind_raise in H. destruct H as [H | [fr [_ H]]];
    [eauto with raises|].
  apply bind_raise in H. destruct H as [H | [k0 [_ H]]];
    [eauto with raises|].
  destruct u.
  - apply bind_raise in H. destruct H as [H | [mask [_ H]]];
      [eauto with raises | discriminate H].
  - apply bind_raise in H. destruct H as [H | [k1 [_ H]]];
      [eauto with raises | discriminate H].
Qed.
#[local] Hint Resolve build_kernel_benign : raises.

Lemma correlate_benign (a : ndarray cell) (w : ndarray Q) (e : exn) :
  correlate a w = Raise e -> is_validity e = false.
Proof.
  unfold correlate. intros H. repeat raise_step. reflexivity.
Qed.
#[local] Hint Resolve correlate_benign : raises.

Lemma apply_kernel_benign (self : plugin) (c : cube) (ranges : Z * Z)
    (e : exn) :
  _apply_kernel_for_smoothing self c ranges = Raise e ->
  is_validity e = false.
Proof.
  unfold _apply_kernel_for_smoothing. intros H.
  apply bind_raise in H. destruct H as [H | [axes [_ H]]];
    [eauto with raises|].
  apply bind_raise in H. destruct H as [H | [k [_ H]]];
    [eauto with raises|].
  apply bind_raise in H. destruct H as [H | [sm [_ H]]];
    [eauto with raises | discriminate H].
Qed.
#[local] Hint Resolve apply_kernel_benign : raises.

Lemma convert_coord_in_place_benign (c : cube) (name : string) (u : unit_t)
    (e : exn) :
  convert_coord_in_place c name u = Raise e -> is_validity e = false.
Proof.
  unfold convert_coord_in_place. intros H.
  repeat raise_step; eauto with raises.
Qed.
#[local] Hint Resolve convert_coord_in_place_benign : raises.

Lemma reraise_with_benign {A} (prefix : string) (r : result A) (e : exn) :
  prefix <> "Does not operate across realizations." ->
  prefix <> "Error: NaN detected in input cube data" ->
  (forall e0, r = Raise e0 -> is_validity e0 = false) ->
  reraise_with prefix r = Raise e -> is_validity e = false.
Proof.
  intros H1 H2 Hr H. unfold reraise_with in H.
  destruct r as [a|e0]; [discriminate H|].
  destruct e0 as [m|m|m|m|m|m];
    try (apply Raise_inj in H; subst; now apply Hr).
  apply Raise_inj in H. subst e. cbn [is_validity].
  destruct m; [|reflexivity].
  apply String.eqb_neq in H1. apply String.eqb_neq in H2.
  now rewrite H1, H2.
Qed.

Lemma np_sub_benign (a b : list Q) (e : exn) :
  np_sub a b = Raise e -> is_validity e = false.
Proof.
  unfold np_sub. intros H. repeat raise_step; reflexivity.
Qed.
#[local] Hint Resolve np_sub_benign : raises.

Lemma find_required_lead_times_benign (c : cube) (e : exn) :
  _find_required_lead_times c = Raise e -> is_validity e = false.
Proof.
  unfold _find_required_lead_times. intros H.
  destruct (cube_coords c "forecast_period").
  - destruct (cube_coords c "time");
      [apply Raise_inj in H; subst; reflexivity|].
    destruct (cube_coords c "forecast_reference_time");
      [apply Raise_inj in H; subst; reflexivity|].
    apply bind_raise in H. destruct H as [H | [cube1 [_ H]]].
    + apply reraise_with_benign in H; try discriminate; [exact H|].
      intros e0 H0. repeat raise_step; eauto with raises.
    + repeat raise_step; eauto with raises.
  - apply bind_raise in H. destruct H as [H | [cube1 [_ H]]].
    + apply reraise_with_benign in H; try discriminate; [exact H|].
      intros e0 H0. eauto with raises.
    + repeat raise_step; eauto with raises.
Qed.
#[local] Hint Resolve find_required_lead_times_benign : raises.

Lemma np_interp_benign (xs xp fp : list Q) (e : exn) :
  np_interp xs xp fp = Raise e -> is_validity e = false.
Proof.
  unfold np_interp. intros H. repeat raise_step; reflexivity.
Qed.
#[local] Hint Resolve np_interp_benign : raises.

Lemma radii_as_array_benign (r : radii_t) (e : exn) :
  radii_as_array r = Raise e -> is_validity e = false.
Proof.
  unfold radii_as_array. intros H. repeat raise_step; reflexivity.
Qed.
#[local] Hint Resolve radii_as_array_benign : raises.

Lemma required_radii_benign (self : plugin) (lts : list Q) (c : cube)
    (e : exn) :
  required_radii self lts c = Raise e -> is_validity e = false.
Proof.
  unfold required_radii. intros H.
  apply bind_raise in H. destruct H as [H | [[c1 lead] [_ H]]];
    [eauto with raises|].
  apply bind_raise in H. destruct H as [H | [rs [_ H]]];
    [eauto with raises|].
  apply bind_raise in H. destruct H as [H | [rr [_ H]]];
    [eauto with raises | discriminate H].
Qed.
#[local] Hint Resolve required_radii_benign : raises.

Lemma slices_over_benign (c : cube) (name : string) (e : exn) :
  slices_over c name = Raise e -> is_validity e = false.
Proof.
  unfold slices_over. intros H.
  apply bind_raise in H. destruct H as [H | [k [_ H]]];
    [eauto with raises|].
  destruct (coord_dim k); discriminate H.
Qed.
#[local] Hint Resolve slices_over_benign : raises.

Lemma new_axis_benign (c : cube) (name : string) (e : exn) :
  new_axis c name = Raise e -> is_validity e = false.
Proof.
  unfold new_axis. intros H.
  apply bind_raise in H. destruct H as [H | [k [_ H]]];
    [eauto with raises|].
  destruct (coord_dim k); [|discriminate H].
  apply Raise_inj in H. subst. reflexivity.
Qed.
#[local] Hint Resolve new_axis_benign : raises.

Lemma smooth_slices_benign (self : plugin) (work : list (cube * Q))
    (e : exn) :
  smooth_slices self work = Raise e -> is_validity e = false.
Proof.
  induction work as [|[cs r] work IH]; intros H; [discriminate H|].
  cbn [smooth_slices] in H.
  apply bind_raise in H. destruct H as [H | [ranges [_ H]]];
    [eauto with raises|].
  apply bind_raise in H. destruct H as [H | [c1 [_ H]]];
    [eauto with raises|].
  apply bind_raise in H. destruct H as [H | [c2 [_ H]]];
    [eauto with raises|].
  apply bind_raise in H. destruct H as [H | [cubes [_ H]]];
    [now apply IH | discriminate H].
Qed.
#[local] Hint Resolve smooth_slices_benign : raises.

Lemma concatenate_cubes_benign (cubes : list cube) (e : exn) :
  concatenate_cubes cubes = Raise e -> is_validity e = false.
Proof.
  unfold concatenate_cubes. intros H.
  destruct cubes; [|discriminate H].
  apply Raise_inj in H. subst. reflexivity.
Qed.
#[local] Hint Resolve concatenate_cubes_benign : raises.

(** Nothing after the gate raises one of the gate's errors. *)
Lemma process_body_benign (self : plugin) (c : cube) (e : exn) :
  process_body self c = Raise e -> is_validity e = false.
Proof.
  unfold process_body. intros H.
  destruct (lead_times self) as [lts|].
  - apply bind_raise in H. destruct H as [H | [[c1 rr] [_ H]]];
      [eauto with raises|].
    apply bind_raise in H. destruct H as [H | [sl [_ H]]];
      [eauto with raises|].
    apply bind_raise in H. destruct H as [H | [cubes [_ H]]];
      [eauto with raises|].
    apply bind_raise in H. destruct H as [H | [out [_ H]]];
      [eauto with raises | discriminate H].
  - destruct (radii_in_km self) as [r|rs].
    + apply bind_raise in H. destruct H as [H | [ranges [_ H]]];
        [eauto with raises|].
      apply bind_raise in H. destruct H as [H | [c1 [_ H]]];
        [eauto with raises | discriminate H].
    + apply bind_raise in H. destruct H as [H | [g [_ H]]];
        [eauto with raises|].
      apply Raise_inj in H. subst. reflexivity.
Qed.

Lemma is_nan_iff (l : list cell) : existsb is_nan l = true <-> In NaN l.
Proof.
  rewrite existsb_exists. split.
  - intros [x [Hin Hx]]. destruct x; [discriminate | exact Hin].
  - intros H. exists NaN. split; [exact H | reflexivity].
Qed.

(** The gate either passes a valid field or raises one of its two errors
    on an invalid one. *)
Lemma validity_gate_spec (c : cube) :
  (validity_gate c = Ok tt /\ ~ invalid_data c)
  \/ (exists e, validity_gate c = Raise e
                /\ data_validity_error e /\ invalid_data c).
Proof.
  unfold validity_gate, invalid_data, data_validity_error.
  destruct (cube_coord c "realization") as [k|e] eqn:Ek.
  - destruct (Nat.ltb_spec 1 (List.length (points k))) as [Hlt|Hge].
    + right. eexists. split; [reflexivity|]. split; [left; reflexivity|].
      left. exists k. split; [reflexivity | exact Hlt].
    + cbn [bind]. destruct (existsb is_nan (elems (data c))) eqn:En.
      * right. eexists. split; [reflexivity|].
        split; [right; reflexivity|]. right. now apply is_nan_iff.
      * left. split; [reflexivity|]. intros [[k' [Hk' Hlt]]|Hin].
        -- apply Ok_inj in Hk'. subst k'. lia.
        -- apply is_nan_iff in Hin. congruence.
  - apply cube_coord_raises in Ek. destruct Ek as [m ->]. cbn [bind].
    destruct (existsb is_nan (elems (data c))) eqn:En.
    + right. eexists. split; [reflexivity|].
      split; [right; reflexivity|]. right. now apply is_nan_iff.
    + left. split; [reflexivity|]. intros [[k' [Hk' _]]|Hin].
      * discriminate Hk'.
      * apply is_nan_iff in Hin. congruence.
Qed.

(** C8. [process] raises a data-validity error exactly when the field has
    a realization coordinate of more than one point or a NaN, whatever the
    rest of the field and the plugin are; any other field passes the gate
    and is processed by what follows it. *)
Theorem data_validity_gate :
  (forall self c,
      (exists e, process self c = Raise e /\ data_validity_error e)
      <-> invalid_data c)
  /\ (forall self c, ~ invalid_data c -> process self c = process_body self c).
Proof.
  split.
  - intros self c. unfold process.
    destruct (validity_gate_spec c) as [[Hg Hv]|[e [Hg [He Hi]]]];
      rewrite Hg; cbn [bind].
    + split; [|contradiction].
      intros [e [Hp He]]. apply process_body_benign in Hp.
      destruct He as [-> | ->]; discriminate Hp.
    + split; [intros _; exact Hi|].
      intros _. exists e. split; [reflexivity | exact He].
  - intros self c Hv. unfold process.
    destruct (validity_gate_spec c) as [[Hg _]|[e [_ [_ Hi]]]];
      [|contradiction].
    rewrite Hg. reflexivity.
Qed.

Lemma data_validity_gate_witness :
  process (mk_plugin (RFloat 1) None true) flat_grid
  = process_body (mk_plugin (RFloat 1) None true) flat_grid
  /\ (exists e,
         process (mk_plugin (RFloat 1) None true)
           (mk_cube "gap" (mk_ndarray [1; 2]%nat [Val 1; NaN]) []) = Raise e
         /\ data_validity_error e).
Proof.
  split.
  - apply (proj2 data_validity_gate).
    intros [[k [Hk _]]|Hin].
    + discriminate Hk.
    + simpl in Hin. repeat (destruct Hin as [Hin|Hin]; [discriminate Hin|]).
      exact Hin.
  - apply (proj1 data_validity_gate). right. simpl. auto.
Defined.

(** ** Frame *)

(** With a constant radius the cube returned is the argument cube, with
    its name, coordinates and shape as they were. *)
Lemma frame_constant_radius (self : plugin) (c after out : cube) :
  lead_times self = None ->
  process self c = Ok (after, out) ->
  after = out
  /\ cube_name out = cube_name c
  /\ coords out = coords c
  /\ shape (data out) = shape (data c).
Proof.
  intros Hl H. unfold process in H.
  destruct (validity_gate c); [|discriminate H]. cbn [bind] in H.
  unfold process_body in H. rewrite Hl in H.
  destruct (radii_in_km self) as [r|rs].
  - destruct (_get_grid_x_y_kernel_ranges c r) as [ranges|];
      [|discriminate H].
    cbn [bind] in H.
    destruct (_apply_kernel_for_smoothing self c ranges) as [c1|] eqn:Ea;
      [|discriminate H].
    cbn [bind] in H. apply Ok_inj in H. injection H as <- <-.
    split; [reflexivity|].
    unfold _apply_kernel_for_smoothing in Ea.
    destruct (spatial_axes c); [|discriminate Ea]. cbn [bind] in Ea.
    destruct (build_kernel _ _ _ _); [|discriminate Ea]. cbn [bind] in Ea.
    unfold correlate in Ea.
    destruct (_ =? _)%nat; [|discriminate Ea]. cbn [bind] in Ea.
    apply Ok_inj in Ea. subst c1. repeat split.
  - destruct (grid_spacings c); discriminate H.
Qed.

Lemma cube_coord_name (c : cube) (name : string) (k : coord) :
  cube_coord c name = Ok k -> coord_name k = name.
Proof.
  unfold cube_coord, cube_coords. intros H.
  destruct (filter _ (coords c)) as [|k0 [|k1 l]] eqn:E; try discriminate H.
  apply Ok_inj in H. subst k0.
  assert (Hin : In k (filter (fun k0 => String.eqb (coord_name k0) name)
                        (coords c))) by (rewrite E; left; reflexivity).
  apply filter_In in Hin. destruct Hin as [_ Hn]. now apply String.eqb_eq.
Qed.

Lemma convert_units_name (k k' : coord) (u : unit_t) :
  convert_units k u = Ok k' -> coord_name k' = coord_name k.
Proof.
  unfold convert_units. intros H.
  destruct (unit_eqb (units k) u); [apply Ok_inj in H; now subst|].
  destruct (dimension_eqb _ _); [|discriminate H].
  apply Ok_inj in H. now subst.
Qed.

Lemma cube_coord_singleton (c : cube) (name : string) (k : coord) :
  cube_coord c name = Ok k -> cube_coords c name = [k].
Proof.
  unfold cube_coord. intros H.
  destruct (cube_coords c name) as [|k0 [|k1 l]]; try discriminate H.
  apply Ok_inj in H. now subst.
Qed.

(** The smoothing step changes the data only. *)
Lemma apply_kernel_frame (self : plugin) (c c' : cube) (ranges : Z * Z) :
  _apply_kernel_for_smoothing self c ranges = Ok c' ->
  cube_name c' = cube_name c
  /\ coords c' = coords c
  /\ shape (data c') = shape (data c).
Proof.
  unfold _apply_kernel_for_smoothing. intros H.
  destruct (spatial_axes c); [|discriminate H]. cbn [bind] in H.
  destruct (build_kernel _ _ _ _); [|discriminate H]. cbn [bind] in H.
  unfold correlate in H.
  destruct (_ =? _)%nat; [|discriminate H]. cbn [bind] in H.
  apply Ok_inj in H. subst c'. repeat split.
Qed.

Lemma slice_coord_name (ax i : nat) (k : coord) :
  coord_name (slice_coord ax i k) = coord_name k.
Proof.
  unfold slice_coord. destruct (coord_dim k) as [d|]; [|reflexivity].
  destruct (d =? ax)%nat; [reflexivity|].
  destruct (ax <? d)%nat; reflexivity.
Qed.

Lemma Forall2_map_r {A B} (R : A -> B -> Prop) (f : A -> B) (l : list A) :
  (forall x, In x l -> R x (f x)) -> Forall2 R l (map f l).
Proof.
  induction l as [|x l IH]; intros H; cbn [map]; constructor.
  - apply H. left. reflexivity.
  - apply IH. intros y Hy. apply H. right. exact Hy.
Qed.

Lemma Forall2_compose {A B C} (R1 : A -> B -> Prop) (R2 : B -> C -> Prop)
    (R : A -> C -> Prop) (l1 : list A) (l2 : list B) (l3 : list C) :
  (forall a b c, R1 a b -> R2 b c -> R a c) ->
  Forall2 R1 l1 l2 -> Forall2 R2 l2 l3 -> Forall2 R l1 l3.
Proof.
  intros HR H1. revert l3. induction H1 as [|a b l1 l2 Hab _ IH];
    intros l3 H2; inversion H2; subst; constructor; eauto.
Qed.

Lemma reraise_with_ok {A} (prefix : string) (r : result A) (a : A) :
  reraise_with prefix r = Ok a -> r = Ok a.
Proof.
  destruct r as [x|e]; [trivial|]. destruct e; discriminate.
Qed.

(** The in-place conversion of one coordinate leaves the name and the data
    of the cube and its other coordinates as they were. *)
Lemma convert_in_place_frame (c c' : cube) (name : string) (u : unit_t) :
  convert_coord_in_place c name u = Ok c' ->
  cube_name c' = cube_name c
  /\ data c' = data c
  /\ Forall2 (fun k k' =>
                k' = k \/ (coord_name k = name /\ convert_units k u = Ok k'))
       (coords c) (coords c').
Proof.
  unfold convert_coord_in_place. intros H.
  destruct (cube_coord c name) as [k|] eqn:Ek; [|discriminate H].
  cbn [bind] in H.
  destruct (convert_units k u) as [k'|] eqn:Ec; [|discriminate H].
  cbn [bind] in H. apply Ok_inj in H. subst c'.
  unfold replace_coord. cbn [cube_name data coords].
  split; [reflexivity|]. split; [reflexivity|].
  apply Forall2_map_r. intros k0 Hin.
  destruct (String.eqb (coord_name k0) (coord_name k')) eqn:E;
    [|left; reflexivity].
  right. apply String.eqb_eq in E.
  rewrite (convert_units_name k k' u Ec) in E.
  rewrite (cube_coord_name c name k Ek) in E.
  assert (Hk : k0 = k).
  { pose proof (cube_coord_singleton c name k Ek) as Hs.
    unfold cube_coords in Hs.
    assert (Hf : In k0 (filter (fun k1 => String.eqb (coord_name k1) name)
                          (coords c)))
      by (apply filter_In; split; [exact Hin | now apply String.eqb_eq]).
    rewrite Hs in Hf. destruct Hf as [Hf|[]]. now symmetry. }
  subst k0. split; assumption.
Qed.

(** The lead-time search changes nothing of the cube but the coordinates it
    converts. *)
Lemma lead_time_search_frame (c c' : cube) (lead : list Q) :
  _find_required_lead_times c = Ok (c', lead) ->
  cube_name c' = cube_name c
  /\ data c' = data c
  /\ Forall2 converted_in_place (coords c) (coords c').
Proof.
  unfold _find_required_lead_times. intros H.
  destruct (cube_coords c "forecast_period") as [|k0 l0].
  - destruct (cube_coords c "time") as [|kt lt]; [discriminate H|].
    destruct (cube_coords c "forecast_reference_time") as [|kf lf];
      [discriminate H|].
    destruct (reraise_with _ _) as [cube2|] eqn:Er; [|discriminate H].
    cbn [bind] in H. apply reraise_with_ok in Er.
    destruct (convert_coord_in_place c "time" HoursSinceEpoch)
      as [cube1|] eqn:E1; [|discriminate Er].
    cbn [bind] in Er.
    destruct (cube_coord cube2 "time") as [t|]; [|discriminate H].
    cbn [bind] in H.
    destruct (cube_coord cube2 "forecast_reference_time") as [f|];
      [|discriminate H].
    cbn [bind] in H. destruct (np_sub _ _) as [diff|]; [|discriminate H].
    cbn [bind] in H. apply Ok_inj in H. injection H as <- _.
    destruct (convert_in_place_frame _ _ _ _ E1) as [N1 [D1 F1]].
    destruct (convert_in_place_frame _ _ _ _ Er) as [N2 [D2 F2]].
    split; [congruence|]. split; [congruence|].
    refine (Forall2_compose _ _ _ _ _ _ _ F1 F2).
    intros ka kb kc [->|[Ha Hb]] [->|[Hb' Hk]].
    + left. reflexivity.
    + right. right. split; [right; exact Hb' | exact Hk].
    + right. right. split; [left; exact Ha | exact Hb].
    + exfalso. rewrite (convert_units_name ka kb _ Hb), Ha in Hb'.
      discriminate Hb'.
  - destruct (reraise_with _ _) as [cube1|] eqn:Er; [|discriminate H].
    cbn [bind] in H. apply reraise_with_ok in Er.
    destruct (cube_coord cube1 "forecast_period") as [k|]; [|discriminate H].
    cbn [bind] in H. apply Ok_inj in H. injection H as <- _.
    destruct (convert_in_place_frame _ _ _ _ Er) as [N1 [D1 F1]].
    split; [exact N1|]. split; [exact D1|].
    revert F1. apply Forall2_impl. intros ka kb [->|[Ha Hb]].
    + left. reflexivity.
    + right. left. split; assumption.
Qed.

Lemma Forall2_refl {A} (R : A -> A -> Prop) (l : list A) :
  (forall a, R a a) -> Forall2 R l l.
Proof. intros H. induction l; constructor; auto. Qed.

(** The first cube of the loop over the slices carries the coordinates of
    the first slice, under the names and in the units they had. *)
Lemma smooth_slices_head (self : plugin) (sl : cube) (r : Q)
    (work : list (cube * Q)) (cubes : list cube) :
  smooth_slices self ((sl, r) :: work) = Ok cubes ->
  exists out0 rest,
    cubes = out0 :: rest
    /\ map coord_name (coords out0) = map coord_name (coords sl)
    /\ map units (coords out0) = map units (coords sl).
Proof.
  cbn [smooth_slices]. intros H.
  destruct (_get_grid_x_y_kernel_ranges sl r) as [ranges|]; [|discriminate H].
  cbn [bind] in H.
  destruct (_apply_kernel_for_smoothing self sl ranges) as [sm|] eqn:Ea;
    [|discriminate H].
  cbn [bind] in H.
  destruct (new_axis sm "time") as [out0|] eqn:En; [|discriminate H].
  cbn [bind] in H.
  destruct (smooth_slices self work) as [rest|]; [|discriminate H].
  cbn [bind] in H. apply Ok_inj in H. subst cubes.
  exists out0, rest. split; [reflexivity|].
  destruct (apply_kernel_frame self sl sm ranges Ea) as [_ [Hco _]].
  unfold new_axis in En.
  destruct (cube_coord sm "time") as [k|]; [|discriminate En].
  cbn [bind] in En. destruct (coord_dim k); [discriminate En|].
  apply Ok_inj in En. subst out0. cbn [coords]. rewrite Hco, !map_map.
  split; apply map_ext; intros k0;
    destruct (String.eqb (coord_name k0) "time"); reflexivity.
Qed.

Lemma slice_coord_units (ax i : nat) (k : coord) :
  units (slice_coord ax i k) = units k.
Proof.
  unfold slice_coord. destruct (coord_dim k) as [d|]; [|reflexivity].
  destruct (d =? ax)%nat; [reflexivity|].
  destruct (ax <? d)%nat; reflexivity.
Qed.

(** C9, corrected. After a successful [process] the argument cube has its
    name, and its coordinates are as they were but for the in-place
    conversions of the lead-time search: the forecast period in hours, or
    the time and the reference time in hours since the epoch.  The cube
    returned has the coordinates of the argument cube, as the call leaves
    them, by name and unit.  With a constant radius the cube returned is
    the argument cube, whose coordinates and shape are unchanged and whose
    data are overwritten; in schedule mode the data of the argument cube
    are as they were. *)
Theorem process_frame (self : plugin) (c after out : cube) :
  process self c = Ok (after, out) ->
  cube_name after = cube_name c
  /\ Forall2 converted_in_place (coords c) (coords after)
  /\ map coord_name (coords out) = map coord_name (coords after)
  /\ map units (coords out) = map units (coords after)
  /\ (lead_times self = None ->
      after = out /\ coords after = coords c
      /\ shape (data out) = shape (data c))
  /\ (lead_times self <> None -> data after = data c).
Proof.
  intros H.
  destruct (lead_times self) as [lts|] eqn:Hl.
  - assert (Hb : process_body self c = Ok (after, out)).
    { unfold process in H. destruct (validity_gate c); [exact H|].
      discriminate H. }
    unfold process_body in Hb. rewrite Hl in Hb.
    unfold required_radii in Hb.
    destruct (_find_required_lead_times c) as [[c1 lead]|] eqn:Ef;
      [|discriminate Hb].
    cbn [bind] in Hb.
    destruct (radii_as_array (radii_in_km self)) as [rs|]; [|discriminate Hb].
    cbn [bind] in Hb.
    destruct (np_interp lead lts rs) as [radii|]; [|discriminate Hb].
    cbn [bind] in Hb.
    destruct (slices_over c1 "time") as [slices|] eqn:Es; [|discriminate Hb].
    cbn [bind] in Hb.
    destruct (smooth_slices self (combine slices radii)) as [cubes|] eqn:Ec;
      [|discriminate Hb].
    cbn [bind] in Hb.
    destruct (concatenate_cubes cubes) as [o|] eqn:Eo; [|discriminate Hb].
    cbn [bind] in Hb. apply Ok_inj in Hb. injection Hb as <- <-.
    destruct (lead_time_search_frame c c1 lead Ef) as [N1 [D1 F1]].
    split; [exact N1|]. split; [exact F1|].
    assert (Hout : map coord_name (coords o) = map coord_name (coords c1)
                   /\ map units (coords o) = map units (coords c1)).
    { unfold concatenate_cubes in Eo.
      destruct cubes as [|c0 rest0] eqn:Hcubes; [discriminate Eo|].
      apply Ok_inj in Eo. subst o. cbn [coords].
      destruct slices as [|sl slices']; [discriminate Ec|].
      destruct radii as [|r radii']; [discriminate Ec|].
      cbn [combine] in Ec.
      destruct (smooth_slices_head self sl r _ _ Ec)
        as [out0 [rest [Eh [Hn Hu]]]].
      injection Eh as <- _.
      assert (Hsl : map coord_name (coords sl) = map coord_name (coords c1)
                    /\ map units (coords sl) = map units (coords c1)).
      { unfold slices_over in Es.
        destruct (cube_coord c1 "time") as [kt|]; [|discriminate Es].
        cbn [bind] in Es. destruct (coord_dim kt) as [ax|].
        - apply Ok_inj in Es.
          destruct (seq 0 (nth ax (shape (data c1)) 0%nat)) as [|i0 others];
            [discriminate Es|].
          cbn [map] in Es. injection Es as <- _. cbn [coords].
          rewrite !map_map. split; apply map_ext; intros k0.
          + apply slice_coord_name.
          + apply slice_coord_units.
        - apply Ok_inj in Es. injection Es as <- _. split; reflexivity. }
      destruct Hsl as [Hsn Hsu]. rewrite <- Hsn, <- Hsu, <- Hn, <- Hu.
      rewrite !map_map. split; apply map_ext; intros k0.
      - destruct (coord_dim k0) as [[|d]|]; try reflexivity.
        destruct (forallb _ _); reflexivity.
      - destruct (coord_dim k0) as [[|d]|]; try reflexivity.
        destruct (forallb _ _); reflexivity. }
    split; [exact (proj1 Hout)|]. split; [exact (proj2 Hout)|].
    split; [discriminate|]. intros _. exact D1.
  - destruct (frame_constant_radius self c after out Hl H)
      as [E [Hn [Hc Hs]]].
    subst out. split; [exact Hn|].
    split; [rewrite Hc; apply Forall2_refl; intros a; left; reflexivity|].
    split; [reflexivity|]. split; [reflexivity|].
    split; [intros _; repeat split; assumption|].
    intros Hne. congruence.
Qed.

Lemma process_frame_witness :
  (exists after out,
      process (mk_plugin (RList [1; 3]) (Some [0; 6]) true) scheduled_cube
      = Ok (after, out)
      /\ cube_name after = cube_name scheduled_cube
      /\ Forall2 converted_in_place (coords scheduled_cube) (coords after)
      /\ map units (coords out) = map units (coords after)
      /\ data after = data scheduled_cube)
  /\ (exists out,
         process (mk_plugin (RFloat 1) None true) flat_grid = Ok (out, out)
         /\ coords out = coords flat_grid).
Proof.
  split.
  - destruct (process (mk_plugin (RList [1; 3]) (Some [0; 6]) true)
                scheduled_cube) as [[after out]|e] eqn:E;
      [|vm_compute in E; discriminate E].
    destruct (process_frame _ _ _ _ E) as [H1 [H2 [_ [H3 [_ H4]]]]].
    exists after, out. split; [reflexivity|]. split; [exact H1|].
    split; [exact H2|]. split; [exact H3|]. apply H4. discriminate.
  - destruct (process (mk_plugin (RFloat 1) None true) flat_grid)
      as [[after out]|e] eqn:E; [|vm_compute in E; discriminate E].
    destruct (process_frame _ _ _ _ E) as [_ [_ [_ [_ [H5 _]]]]].
    destruct (H5 eq_refl) as [-> [Hc _]].
    exists out. split; [reflexivity | exact Hc].
Defined.

(** C9 as stated fails: in schedule mode, on a cube whose forecast periods
    are in seconds, [process] succeeds and the lead-time search has left
    the forecast-period coordinate of the argument cube, and so of the cube
    returned, in hours with other points; the spatial coordinates, of which
    the resolver converts copies, and the data of the argument cube are as
    they were. *)
Lemma process_frame_counterexample :
  exists after out,
    process (mk_plugin (RList [1; 3]) (Some [0; 6]) true) scheduled_cube
    = Ok (after, out)
    /\ cube_coord scheduled_cube "forecast_period"
       = Ok (mk_coord "forecast_period" [0; 10800] Seconds (Some 0%nat))
    /\ cube_coord after "forecast_period"
       = Ok (mk_coord "forecast_period" [0 # 3600; 10800 # 3600] Hours
               (Some 0%nat))
    /\ cube_coord out "forecast_period"
       = Ok (mk_coord "forecast_period" [0 # 3600; 10800 # 3600] Hours
               (Some 0%nat))
    /\ _find_required_lead_times scheduled_cube
       = Ok (after, [0 # 3600; 10800 # 3600])
    /\ coords after <> coords scheduled_cube
    /\ cube_coord after "projection_x_coordinate"
       = cube_coord scheduled_cube "projection_x_coordinate"
    /\ data after = data scheduled_cube.
Proof.
  do 2 eexists. split; [vm_compute; reflexivity|].
  repeat split. discriminate.
Qed.

(* ================================================================= *)
(** * Further properties *)

(** ** Constructor *)

(** X1. With a list of radii and a lead-time schedule the constructor
    raises the mismatch error exactly when the lengths differ, and builds
    the instance as given otherwise; without a schedule it always builds
    the instance, whatever the radii. *)
Theorem init_length_check :
  (forall rs lts u,
      List.length rs <> List.length lts ->
      __init__ (RList rs) (Some lts) u = Raise (ValueError mismatch_msg))
  /\ (forall rs lts u,
         List.length rs = List.length lts ->
         __init__ (RList rs) (Some lts) u
         = Ok (mk_plugin (RList rs) (Some lts) u))
  /\ (forall radii u, __init__ radii None u = Ok (mk_plugin radii None u)).
Proof.
  split; [|split].
  - intros rs lts u H. unfold __init__. cbn [py_len bind].
    apply Nat.eqb_neq in H. rewrite H. reflexivity.
  - intros rs lts u H. unfold __init__. cbn [py_len bind].
    apply Nat.eqb_eq in H. rewrite H. reflexivity.
  - intros [r|rs] u; reflexivity.
Qed.

Lemma init_length_check_witness :
  __init__ (RList [10; 20; 30]) (Some [0; 6]) false
  = Raise (ValueError mismatch_msg)
  /\ __init__ (RList [10; 30]) (Some [0; 6]) true
     = Ok (mk_plugin (RList [10; 30]) (Some [0; 6]) true).
Proof.
  split.
  - apply (proj1 init_length_check). simpl. lia.
  - apply (proj1 (proj2 init_length_check)). reflexivity.
Defined.

(** ** Radius resolver *)

Lemma check_ok_inv (r : Q) (a b gx gy : Z) :
  check_cell_extents r a b = Ok (gx, gy) ->
  a = gx /\ b = gy /\ (1 <= gx <= 500)%Z /\ (1 <= gy <= 500)%Z.
Proof.
  unfold check_cell_extents, MAX_KERNEL_CELL_RADIUS. intros H.
  destruct (Z.eqb_spec a 0); [discriminate H|].
  destruct (Z.eqb_spec b 0); [discriminate H|].
  destruct (Z.ltb_spec a 0); [discriminate H|].
  destruct (Z.ltb_spec b 0); [discriminate H|].
  cbn [orb bind] in H.
  destruct (Z.gtb_spec a 500); [discriminate H|].
  destruct (Z.gtb_spec b 500); [discriminate H|].
  cbn [orb] in H. apply Ok_inj in H. injection H as <- <-. lia.
Qed.

(** What a returning resolver has computed. *)
Lemma resolver_ok_inv (c : cube) (r : Q) (gx gy : Z) :
  _get_grid_x_y_kernel_ranges c r = Ok (gx, gy) ->
  exists dx dy qx qy,
    grid_spacings c = Ok (dx, dy)
    /\ quotient r dx = Finite qx /\ quotient r dy = Finite qy
    /\ gx = py_int qx /\ gy = py_int qy
    /\ (1 <= gx <= 500)%Z /\ (1 <= gy <= 500)%Z.
Proof.
  unfold _get_grid_x_y_kernel_ranges. intros H.
  destruct (grid_spacings c) as [[dx dy]|e]; [|discriminate H].
  cbn [bind] in H.
  change (gy0 <- int_of_float (quotient r dy) ;;
          gx0 <- int_of_float (quotient r dx) ;;
          check_cell_extents r gx0 gy0 = Ok (gx, gy)) in H.
  destruct (quotient r dy) as [qy|sy|] eqn:Ey;
    [|discriminate H|discriminate H].
  destruct (quotient r dx) as [qx|sx|] eqn:Ex;
    [|discriminate H|discriminate H].
  cbn [int_of_float bind] in H.
  apply check_ok_inv in H. destruct H as [H1 [H2 [H3 H4]]].
  exists dx, dy, qx, qy. repeat split; (now symmetry) || lia.
Qed.

Lemma py_int_pos (q : Q) : (1 <= py_int q)%Z -> 0 < q.
Proof.
  destruct q as [n p]. unfold py_int, Qlt. simpl. intros H.
  destruct (Z_lt_le_dec 0 n) as [Hn|Hn]; [lia|].
  exfalso.
  assert (Z.quot n (Z.pos p) <= 0)%Z; [|lia].
  replace n with (- (- n))%Z by lia. rewrite Z.quot_opp_l by lia.
  assert (0 <= Z.quot (- n) (Z.pos p))%Z by (apply Z.quot_pos; lia). lia.
Qed.

(** A finite quotient comes from a finite radius in metres, divided by a
    spacing that is not zero or by an infinite one. *)
Lemma quotient_finite_inv (r : Q) (d : float64) (q : Q) :
  quotient r d = Finite q ->
  exists a,
    f64_mul (round64 r) (Finite 1000)
    = Finite (round_nearest (round_nearest r * 1000))
    /\ a = round_nearest (round_nearest r * 1000)
    /\ ((exists b, d = Finite b /\ 0 < Qabs b
                   /\ q = round_nearest (a / Qabs b))
        \/ ((exists t, d = Infinity t) /\ q = 0)).
Proof.
  unfold quotient. intros H.
  destruct (round64 r) as [r'|s|] eqn:Er.
  - apply round64_finite in Er. subst r'. cbn [f64_mul] in *.
    destruct (round64 (round_nearest r * 1000)) as [a|s|] eqn:Ea.
    + apply round64_finite in Ea. subst a.
      eexists. split; [reflexivity|]. split; [reflexivity|].
      destruct d as [b|t|]; cbn [f64_abs f64_div] in H.
      * left. exists b. split; [reflexivity|].
        destruct (Qeq_bool (Qabs b) 0) eqn:E.
        { destruct (Qeq_bool (round_nearest (round_nearest r * 1000)) 0);
            discriminate H. }
        apply round64_finite in H. split; [|exact H].
        destruct (Qle_lt_or_eq _ _ (Qabs_nonneg b)) as [Hlt|Heq];
          [exact Hlt|].
        symmetry in Heq. apply Qeq_eq_bool in Heq. congruence.
      * right. split; [eexists; reflexivity|]. now injection H.
      * discriminate H.
    + destruct d as [b|t|]; discriminate H.
    + destruct d as [b|t|]; discriminate H.
  - cbn [f64_mul] in H. change (Qeq_bool 1000 0) with false in H.
    destruct d as [b|t|]; discriminate H.
  - destruct d as [b|t|]; discriminate H.
Qed.

Lemma Qdiv_le (a1 a2 b : Q) : 0 < b -> a1 <= a2 -> a1 / b <= a2 / b.
Proof.
  intros Hb Ha. apply Qmult_le_compat_r; [exact Ha|].
  apply Qlt_le_weak. now apply Qinv_lt_0_compat.
Qed.

(** A positive quotient has a positive radius. *)
Lemma quotient_pos (r : Q) (d : float64) (q : Q) :
  quotient r d = Finite q -> 0 < q -> 0 < r.
Proof.
  intros H Hq. destruct (quotient_finite_inv r d q H)
    as [a [_ [Ea [[b [_ [Hb Eq]]]|[_ Eq]]]]].
  - subst q a. apply round_nearest_pos in Hq.
    apply round_nearest_pos. apply Qnot_le_lt. intros Hle.
    apply (Qlt_not_le _ _ Hq).
    apply Qle_trans with (0 / Qabs b);
      [|unfold Qdiv; rewrite Qmult_0_l; apply Qle_refl].
    apply Qdiv_le; [exact Hb|].
    change 0 with (round_nearest 0). apply round_nearest_le.
    setoid_replace 0 with (0 * 1000) by ring.
    apply Qmult_le_compat_r; [exact Hle | discriminate].
  - subst q. discriminate Hq.
Qed.

(** The quotient keeps the order of the radii. *)
Lemma quotient_le (r1 r2 : Q) (d : float64) (q1 q2 : Q) :
  r1 <= r2 -> quotient r1 d = Finite q1 -> quotient r2 d = Finite q2 ->
  q1 <= q2.
Proof.
  intros Hr H1 H2.
  destruct (quotient_finite_inv r1 d q1 H1)
    as [a1 [_ [Ea1 [[b1 [Hd1 [Hb1 Eq1]]]|[[t1 Hd1] Eq1]]]]];
    destruct (quotient_finite_inv r2 d q2 H2)
      as [a2 [_ [Ea2 [[b2 [Hd2 [Hb2 Eq2]]]|[[t2 Hd2] Eq2]]]]];
    subst d; try discriminate Hd2.
  - injection Hd2 as <-. subst q1 q2 a1 a2.
    apply round_nearest_le. apply Qdiv_le; [exact Hb1|].
    apply round_nearest_le.
    apply Qmult_le_compat_r; [|discriminate].
    now apply round_nearest_le.
  - subst q1 q2. apply Qle_refl.
Qed.

(** X2. Whatever the cube and the radius, cell counts that the resolver
    returns lie in 1..500 on both axes, and the radius was positive. *)
Theorem resolver_result_bounds (c : cube) (r : Q) (gx gy : Z) :
  _get_grid_x_y_kernel_ranges c r = Ok (gx, gy) ->
  (1 <= gx <= MAX_KERNEL_CELL_RADIUS)%Z
  /\ (1 <= gy <= MAX_KERNEL_CELL_RADIUS)%Z
  /\ 0 < r.
Proof.
  intros H. apply resolver_ok_inv in H.
  destruct H as [dx [dy [qx [qy [_ [Hqx [_ [Hgx [_ [Bx By]]]]]]]]]].
  unfold MAX_KERNEL_CELL_RADIUS. split; [exact Bx|]. split; [exact By|].
  apply (quotient_pos r dx qx Hqx). apply py_int_pos. lia.
Qed.

Lemma resolver_result_bounds_witness :
  (1 <= 2 <= MAX_KERNEL_CELL_RADIUS)%Z
  /\ (1 <= 2 <= MAX_KERNEL_CELL_RADIUS)%Z
  /\ 0 < 2.
Proof.
  apply (resolver_result_bounds flat_grid 2 2 2). vm_compute. reflexivity.
Defined.

(** X3. A larger radius never resolves to fewer cells: of two radii that
    both resolve on the same cube, the larger has at least the cell counts
    of the smaller on each axis. *)
Theorem resolver_monotone (c : cube) (r1 r2 : Q) (gx1 gy1 gx2 gy2 : Z) :
  r1 <= r2 ->
  _get_grid_x_y_kernel_ranges c r1 = Ok (gx1, gy1) ->
  _get_grid_x_y_kernel_ranges c r2 = Ok (gx2, gy2) ->
  (gx1 <= gx2)%Z /\ (gy1 <= gy2)%Z.
Proof.
  intros Hr H1 H2.
  apply resolver_ok_inv in H1, H2.
  destruct H1 as [dx [dy [qx1 [qy1 [Hg [Hx1 [Hy1 [Ex1 [Ey1 [Bx1 By1]]]]]]]]]].
  destruct H2 as [dx' [dy' [qx2 [qy2 [Hg' [Hx2 [Hy2 [Ex2 [Ey2 [Bx2 By2]]]]]]]]]].
  rewrite Hg in Hg'. apply Ok_inj in Hg'. injection Hg' as <- <-.
  subst gx1 gy1 gx2 gy2.
  rewrite !py_int_floor by lia.
  split; apply Qfloor_resp_le.
  - exact (quotient_le r1 r2 dx qx1 qx2 Hr Hx1 Hx2).
  - exact (quotient_le r1 r2 dy qy1 qy2 Hr Hy1 Hy2).
Qed.

Lemma resolver_monotone_witness : (1 <= 3)%Z /\ (1 <= 3)%Z.
Proof.
  apply (resolver_monotone flat_grid 1 (7 # 2) 1 1 3 3);
    [discriminate | vm_compute; reflexivity | vm_compute; reflexivity].
Defined.

(** X4. The resolver reports an invalid grid exactly when one of the two
    spatial coordinates cannot be found, whatever the radius.  The
    smoothing step reports it when the x coordinate cannot be found, or
    when x spans a data axis and y cannot be found; an x coordinate that is
    scalar escapes as an [IndexError]. *)
Theorem invalid_grid_error (c : cube) :
  (forall r,
      _get_grid_x_y_kernel_ranges c r = Raise (ValueError invalid_grid_msg)
      <-> ((exists e, cube_coord c "projection_x_coordinate" = Raise e)
           \/ (exists e, cube_coord c "projection_y_coordinate" = Raise e)))
  /\ (forall self ranges,
         (exists e, cube_coord c "projection_x_coordinate" = Raise e) ->
         _apply_kernel_for_smoothing self c ranges
         = Raise (ValueError invalid_grid_msg))
  /\ (forall self ranges x d,
         cube_coord c "projection_x_coordinate" = Ok x ->
         coord_dim x = Some d ->
         (exists e, cube_coord c "projection_y_coordinate" = Raise e) ->
         _apply_kernel_for_smoothing self c ranges
         = Raise (ValueError invalid_grid_msg))
  /\ (forall self ranges x,
         cube_coord c "projection_x_coordinate" = Ok x ->
         coord_dim x = None ->
         _apply_kernel_for_smoothing self c ranges
         = Raise (IndexError [Lit "tuple index out of range"])).
Proof.
  split; [|split; [|split]].
  - intros r. split.
    + intros H. unfold _get_grid_x_y_kernel_ranges, grid_spacings,
        spatial_coords in H.
      destruct (cube_coord c "projection_x_coordinate") as [x|ex] eqn:Ex;
        [|left; eexists; reflexivity].
      destruct (cube_coord c "projection_y_coordinate") as [y|ey] eqn:Ey;
        [|right; eexists; reflexivity].
      exfalso. cbn [bind] in H.
      unfold convert_units64, first_difference, int_of_quotient,
        int_of_float, check_cell_extents in H.
      repeat raise_step; discriminate.
    + intros [[e He]|[e He]].
      * unfold _get_grid_x_y_kernel_ranges, grid_spacings, spatial_coords.
        rewrite He. apply cube_coord_raises in He. destruct He as [m ->].
        reflexivity.
      * unfold _get_grid_x_y_kernel_ranges, grid_spacings, spatial_coords.
        rewrite He. apply cube_coord_raises in He. destruct He as [m ->].
        destruct (cube_coord c "projection_x_coordinate") as [x|ex] eqn:Ex.
        -- reflexivity.
        -- apply cube_coord_raises in Ex. destruct Ex as [m' ->].
           reflexivity.
  - intros self ranges [e He].
    unfold _apply_kernel_for_smoothing, spatial_axes, cube_coord_dim0.
    rewrite He. apply cube_coord_raises in He. destruct He as [m ->].
    reflexivity.
  - intros self ranges x d Hx Hd [e He].
    unfold _apply_kernel_for_smoothing, spatial_axes, cube_coord_dim0.
    rewrite Hx. cbn [bind]. rewrite Hd. cbn [bind].
    rewrite He. apply cube_coord_raises in He. destruct He as [m ->].
    reflexivity.
  - intros self ranges x Hx Hd.
    unfold _apply_kernel_for_smoothing, spatial_axes, cube_coord_dim0.
    rewrite Hx. cbn [bind]. rewrite Hd. reflexivity.
Qed.

Lemma invalid_grid_error_witness :
  _get_grid_x_y_kernel_ranges
    (mk_cube "no_y" (mk_ndarray [2]%nat [Val 0; Val 1])
       [mk_coord "projection_x_coordinate" [0; 1000] Metres (Some 0%nat)]) 3
  = Raise (ValueError invalid_grid_msg)
  /\ _apply_kernel_for_smoothing (mk_plugin (RFloat 3) None false)
       (mk_cube "no_y" (mk_ndarray [2]%nat [Val 0; Val 1])
          [mk_coord "projection_x_coordinate" [0; 1000] Metres (Some 0%nat)])
       (3, 3)%Z
     = Raise (ValueError invalid_grid_msg)
  /\ _apply_kernel_for_smoothing (mk_plugin (RFloat 3) None false)
       (mk_cube "scalar_x" (mk_ndarray [2]%nat [Val 0; Val 1])
          [mk_coord "projection_x_coordinate" [0] Metres None])
       (3, 3)%Z
     = Raise (IndexError [Lit "tuple index out of range"]).
Proof.
  split; [|split].
  - apply (proj1 (invalid_grid_error _)). right. eexists. reflexivity.
  - apply (proj1 (proj2 (proj2 (invalid_grid_error _)))
             (mk_plugin (RFloat 3) None false) (3, 3)%Z
             (mk_coord "projection_x_coordinate" [0; 1000] Metres
                (Some 0%nat)) 0%nat);
      [reflexivity | reflexivity | eexists; reflexivity].
  - apply (proj2 (proj2 (proj2 (invalid_grid_error _)))
             (mk_plugin (RFloat 3) None false) (3, 3)%Z
             (mk_coord "projection_x_coordinate" [0] Metres None));
      reflexivity.
Defined.

(** ** Lead times *)

(** Coordinates of a name after the in-place change of a coordinate. *)
Lemma cube_coords_replace (c : cube) (k : coord) (name : string) :
  cube_coords (replace_coord c k) name
  = if String.eqb (coord_name k) name
    then map (fun _ => k) (cube_coords c name)
    else cube_coords c name.
Proof.
  unfold cube_coords, replace_coord. cbn [coords].
  induction (coords c) as [|k0 l IH]; cbn [map filter].
  - destruct (String.eqb (coord_name k) name); reflexivity.
  - destruct (String.eqb_spec (coord_name k0) (coord_name k)) as [E|E].
    + rewrite E. destruct (String.eqb_spec (coord_name k) name) as [E'|E'].
      * cbn [map]. now rewrite IH.
      * exact IH.
    + destruct (String.eqb_spec (coord_name k) name) as [E'|E'].
      * destruct (String.eqb_spec (coord_name k0) name) as [E''|E''];
          [congruence | exact IH].
      * destruct (String.eqb (coord_name k0) name);
          [now rewrite IH | exact IH].
Qed.

Lemma cube_coord_replace_same (c : cube) (k k' : coord) (name : string) :
  cube_coord c name = Ok k -> coord_name k' = name ->
  cube_coord (replace_coord c k') name = Ok k'.
Proof.
  intros H Hn. unfold cube_coord in *. rewrite cube_coords_replace.
  rewrite Hn, String.eqb_refl.
  destruct (cube_coords c name) as [|k0 [|k1 l]]; try discriminate H.
  reflexivity.
Qed.

Lemma cube_coords_replace_other (c : cube) (k : coord) (name : string) :
  coord_name k <> name ->
  cube_coords (replace_coord c k) name = cube_coords c name.
Proof.
  intros Hn. rewrite cube_coords_replace.
  apply String.eqb_neq in Hn. now rewrite Hn.
Qed.

Lemma cube_coord_replace_other (c : cube) (k : coord) (name : string) :
  coord_name k <> name ->
  cube_coord (replace_coord c k) name = cube_coord c name.
Proof.
  intros Hn. unfold cube_coord. now rewrite cube_coords_replace_other.
Qed.

(** The points of a converted coordinate, up to equality of rationals. *)
Lemma convert_units_points (k k' : coord) (u : unit_t) :
  convert_units k u = Ok k' ->
  units k' = u
  /\ Forall2 Qeq (points k')
       (map (fun p => p * unit_scale (units k) / unit_scale u) (points k)).
Proof.
  unfold convert_units. intros H.
  destruct (unit_eqb (units k) u) eqn:E.
  - apply Ok_inj in H. subst k'.
    assert (Hu : units k = u) by (destruct (units k), u; try discriminate E;
                                  reflexivity).
    split; [exact Hu|]. rewrite Hu.
    induction (points k) as [|p l IH]; cbn [map]; constructor; [|exact IH].
    destruct u; cbn [unit_scale]; field.
  - destruct (dimension_eqb _ _); [|discriminate H].
    apply Ok_inj in H. subst k'. cbn [units points]. split; [reflexivity|].
    induction (points k) as [|p l IH]; cbn [map]; constructor;
      [reflexivity | exact IH].
Qed.

Lemma convert_units_ok (k : coord) (u : unit_t) :
  dimension_of (units k) = dimension_of u ->
  exists k', convert_units k u = Ok k'.
Proof.
  intros H. unfold convert_units.
  destruct (unit_eqb (units k) u); [eexists; reflexivity|].
  rewrite H.
  replace (dimension_eqb (dimension_of u) (dimension_of u)) with true
    by (destruct (dimension_of u); reflexivity).
  eexists. reflexivity.
Qed.

(** X5. When the cube has a forecast-period coordinate in a unit of
    duration, the lead times are its points in hours, whatever time and
    reference-time coordinates the cube has; the data and the coordinates of
    every other name are left as they were. *)
Theorem lead_times_from_forecast_period (c : cube) (k : coord) :
  cube_coord c "forecast_period" = Ok k ->
  dimension_of (units k) = Duration ->
  exists c' lead,
    _find_required_lead_times c = Ok (c', lead)
    /\ Forall2 Qeq lead (map (fun p => p * unit_scale (units k)) (points k))
    /\ data c' = data c
    /\ (forall name, name <> "forecast_period" ->
          cube_coords c' name = cube_coords c name).
Proof.
  intros Hk Hd.
  destruct (convert_units_ok k Hours Hd) as [k' Hk'].
  pose proof (cube_coord_name _ _ _ Hk) as Hn.
  pose proof (convert_units_name _ _ _ Hk') as Hn'.
  exists (replace_coord c k'), (points k').
  unfold _find_required_lead_times.
  assert (Hne : cube_coords c "forecast_period" = [k]).
  { unfold cube_coord in Hk.
    destruct (cube_coords c "forecast_period") as [|k0 [|k1 l]];
      try discriminate Hk.
    apply Ok_inj in Hk. now subst. }
  rewrite Hne. unfold convert_coord_in_place. rewrite Hk. cbn [bind].
  rewrite Hk'. cbn [bind reraise_with].
  rewrite (cube_coord_replace_same c k k' "forecast_period" Hk)
    by congruence.
  cbn [bind]. split; [reflexivity|]. split; [|split].
  - destruct (convert_units_points _ _ _ Hk') as [_ Hp].
    cbn [unit_scale] in Hp.
    clear - Hp. revert Hp. generalize (points k').
    induction (points k) as [|p l IH]; intros l' H;
      inversion H as [|x y l1 l2 Hxy Hrest]; subst; cbn [map]; constructor.
    + rewrite Hxy. field.
    + now apply IH.
  - reflexivity.
  - intros name Hname. apply cube_coords_replace_other. congruence.
Qed.

Lemma lead_times_from_forecast_period_witness :
  exists c' lead,
    _find_required_lead_times scheduled_cube = Ok (c', lead)
    /\ Forall2 Qeq lead
         (map (fun p => p * unit_scale Seconds) [0; 10800])
    /\ data c' = data scheduled_cube
    /\ (forall name, name <> "forecast_period" ->
          cube_coords c' name = cube_coords scheduled_cube name).
Proof.
  apply (lead_times_from_forecast_period scheduled_cube
           (mk_coord "forecast_period" [0; 10800] Seconds (Some 0%nat)));
    reflexivity.
Defined.

Lemma np_sub_scalar (a : list Q) (y : Q) :
  np_sub a [y] = Ok (map (fun x => x - y) a).
Proof.
  unfold np_sub. destruct a as [|x [|x' a]]; reflexivity.
Qed.

(** X6. Without a forecast-period coordinate, but with a time coordinate
    and a reference-time coordinate of one point, both in a unit of time
    since the epoch, the lead times are the time points minus the reference
    time, in hours; the data are left as they were. *)
Theorem lead_times_from_time_difference (c : cube) (t f : coord) (r0 : Q) :
  cube_coords c "forecast_period" = [] ->
  cube_coord c "time" = Ok t ->
  cube_coord c "forecast_reference_time" = Ok f ->
  dimension_of (units t) = TimePoint ->
  dimension_of (units f) = TimePoint ->
  points f = [r0] ->
  exists c' lead,
    _find_required_lead_times c = Ok (c', lead)
    /\ Forall2 Qeq lead
         (map (fun p => p * unit_scale (units t) - r0 * unit_scale (units f))
              (points t))
    /\ data c' = data c.
Proof.
  intros Hfp Ht Hf Hdt Hdf Hr.
  destruct (convert_units_ok t HoursSinceEpoch Hdt) as [t' Ht'].
  destruct (convert_units_ok f HoursSinceEpoch Hdf) as [f' Hf'].
  pose proof (cube_coord_name _ _ _ Ht) as Hnt.
  pose proof (cube_coord_name _ _ _ Hf) as Hnf.
  pose proof (convert_units_name _ _ _ Ht') as Hnt'.
  pose proof (convert_units_name _ _ _ Hf') as Hnf'.
  destruct (convert_units_points _ _ _ Ht') as [_ Hpt].
  destruct (convert_units_points _ _ _ Hf') as [_ Hpf].
  rewrite Hr in Hpf. cbn [map unit_scale] in Hpf, Hpt.
  inversion Hpf as [|r' y l1 l2 Hr' Hnil Epf]; subst.
  inversion Hnil; subst.
  set (c1 := replace_coord c t').
  set (c2 := replace_coord c1 f').
  assert (H1f : cube_coord c1 "forecast_reference_time" = Ok f).
  { unfold c1. rewrite cube_coord_replace_other; [exact Hf|].
    rewrite Hnt', Hnt. discriminate. }
  assert (H2t : cube_coord c2 "time" = Ok t').
  { unfold c2. rewrite cube_coord_replace_other
      by (rewrite Hnf', Hnf; discriminate).
    unfold c1. apply (cube_coord_replace_same c t t'); [exact Ht|].
    congruence. }
  assert (H2f : cube_coord c2 "forecast_reference_time" = Ok f').
  { unfold c2. apply (cube_coord_replace_same c1 f f'); [exact H1f|].
    congruence. }
  exists c2, (map (fun x => x - r') (points t')).
  unfold _find_required_lead_times. rewrite Hfp.
  rewrite (cube_coord_singleton _ _ _ Ht), (cube_coord_singleton _ _ _ Hf).
  unfold convert_coord_in_place. rewrite Ht. cbn [bind]. rewrite Ht'.
  cbn [bind]. fold c1. rewrite H1f. cbn [bind]. rewrite Hf'.
  cbn [bind reraise_with]. fold c2. rewrite H2t, H2f. cbn [bind].
  rewrite <- Epf, np_sub_scalar. cbn [bind].
  split; [reflexivity|]. split; [|reflexivity].
  clear - Hpt Hr'. revert Hpt. generalize (points t').
  induction (points t) as [|p l IH]; intros l' H;
    inversion H as [|x y l1 l2 Hxy Hrest]; subst; cbn [map]; constructor.
  - rewrite Hxy, Hr'. field.
  - now apply IH.
Qed.

Lemma lead_times_from_time_difference_witness :
  exists c' lead,
    _find_required_lead_times
      (mk_cube "times" (mk_ndarray [2]%nat [Val 0; Val 1])
         [mk_coord "time" [36000; 46800] SecondsSinceEpoch (Some 0%nat);
          mk_coord "forecast_reference_time" [7] HoursSinceEpoch None])
    = Ok (c', lead)
    /\ Forall2 Qeq lead
         (map (fun p => p * unit_scale SecondsSinceEpoch
                        - 7 * unit_scale HoursSinceEpoch)
              [36000; 46800])
    /\ data c' = mk_ndarray [2]%nat [Val 0; Val 1].
Proof.
  apply (lead_times_from_time_difference
           (mk_cube "times" (mk_ndarray [2]%nat [Val 0; Val 1])
              [mk_coord "time" [36000; 46800] SecondsSinceEpoch (Some 0%nat);
               mk_coord "forecast_reference_time" [7] HoursSinceEpoch None])
           (mk_coord "time" [36000; 46800] SecondsSinceEpoch (Some 0%nat))
           (mk_coord "forecast_reference_time" [7] HoursSinceEpoch None) 7);
    reflexivity.
Defined.

(** X7. The lead-time search reports its not-found error, which names the
    cube, exactly when the cube has no forecast-period coordinate and lacks
    the time or the reference-time coordinate. *)
Theorem lead_times_not_found (c : cube) :
  _find_required_lead_times c
  = Raise (CoordinateNotFoundError (lead_time_not_found_msg c))
  <-> cube_coords c "forecast_period" = []
      /\ (cube_coords c "time" = []
          \/ cube_coords c "forecast_reference_time" = []).
Proof.
  unfold _find_required_lead_times. split.
  - intros H.
    destruct (cube_coords c "forecast_period") as [|kf lf] eqn:Ef.
    + split; [reflexivity|].
      destruct (cube_coords c "time") as [|kt lt] eqn:Et;
        [left; reflexivity|].
      destruct (cube_coords c "forecast_reference_time") as [|kr lr] eqn:Er;
        [right; reflexivity|].
      exfalso. unfold convert_coord_in_place, cube_coord, convert_units,
        reraise_with, np_sub, lead_time_not_found_msg in H.
      repeat raise_step; discriminate || congruence.
    + exfalso. unfold convert_coord_in_place, cube_coord, convert_units,
        reraise_with, lead_time_not_found_msg in H.
      repeat raise_step; discriminate || congruence.
  - intros [Hf [Ht|Hr]]; rewrite Hf.
    + rewrite Ht. reflexivity.
    + rewrite Hr. destruct (cube_coords c "time"); reflexivity.
Qed.

Lemma lead_times_not_found_witness :
  _find_required_lead_times flat_grid
  = Raise (CoordinateNotFoundError (lead_time_not_found_msg flat_grid))
  /\ In (FmtCube "flat") (lead_time_not_found_msg flat_grid).
Proof.
  split.
  - apply (proj2 (lead_times_not_found flat_grid)).
    split; [reflexivity | left; reflexivity].
  - simpl. auto.
Defined.

Lemma convert_units_fails (k : coord) (u : unit_t) :
  dimension_of (units k) <> dimension_of u ->
  convert_units k u
  = Raise (ValueError [Lit "Unable to convert from "; FmtUnits (units k) u]).
Proof.
  intros H. unfold convert_units.
  destruct (unit_eqb (units k) u) eqn:E.
  - exfalso. apply H. destruct (units k), u; try discriminate E; reflexivity.
  - destruct (dimension_eqb _ _) eqn:Ed; [|reflexivity].
    exfalso. apply H.
    destruct (dimension_of (units k)), (dimension_of u);
      try discriminate Ed; reflexivity.
Qed.

(** X8. A forecast-period coordinate whose unit is no duration makes the
    lead-time search raise a [ValueError] that opens with
    "For forecast_period: "; without a forecast period, a time coordinate
    whose unit is no time since the epoch makes it raise one that opens
    with "For time/forecast_reference_time: ". *)
Theorem lead_times_unit_error (c : cube) :
  (forall k,
      cube_coord c "forecast_period" = Ok k ->
      dimension_of (units k) <> Duration ->
      exists m, _find_required_lead_times c
                = Raise (ValueError (Lit "For forecast_period: " :: m)))
  /\ (forall t,
         cube_coords c "forecast_period" = [] ->
         cube_coord c "time" = Ok t ->
         cube_coords c "forecast_reference_time" <> [] ->
         dimension_of (units t) <> TimePoint ->
         exists m, _find_required_lead_times c
                   = Raise (ValueError
                              (Lit "For time/forecast_reference_time: " :: m))).
Proof.
  split.
  - intros k Hk Hd. unfold _find_required_lead_times.
    rewrite (cube_coord_singleton _ _ _ Hk).
    unfold convert_coord_in_place. rewrite Hk. cbn [bind].
    rewrite (convert_units_fails k Hours) by exact Hd.
    eexists. reflexivity.
  - intros t Hfp Ht Hr Hd. unfold _find_required_lead_times.
    rewrite Hfp, (cube_coord_singleton _ _ _ Ht).
    destruct (cube_coords c "forecast_reference_time"); [congruence|].
    unfold convert_coord_in_place. rewrite Ht. cbn [bind].
    rewrite (convert_units_fails t HoursSinceEpoch) by exact Hd.
    eexists. reflexivity.
Qed.

Lemma lead_times_unit_error_witness :
  (exists m,
      _find_required_lead_times
        (mk_cube "metres" (mk_ndarray [1]%nat [Val 0])
           [mk_coord "forecast_period" [3] Metres None])
      = Raise (ValueError (Lit "For forecast_period: " :: m)))
  /\ (exists m,
         _find_required_lead_times
           (mk_cube "hours" (mk_ndarray [1]%nat [Val 0])
              [mk_coord "time" [3] Hours None;
               mk_coord "forecast_reference_time" [0] HoursSinceEpoch None])
         = Raise (ValueError
                    (Lit "For time/forecast_reference_time: " :: m))).
Proof.
  split.
  - apply (proj1 (lead_times_unit_error _)
             (mk_coord "forecast_period" [3] Metres None));
      [reflexivity | discriminate].
  - apply (proj2 (lead_times_unit_error _)
             (mk_coord "time" [3] Hours None));
      [reflexivity | reflexivity | discriminate | discriminate].
Defined.

Lemma convert_units_fails_shape (k : coord) (u : unit_t) (e : exn) :
  convert_units k u = Raise e -> exists m, e = ValueError m.
Proof.
  unfold convert_units. intros H.
  destruct (unit_eqb _ _); [discriminate H|].
  destruct (dimension_eqb _ _); [discriminate H|].
  apply Raise_inj in H. subst. eexists. reflexivity.
Qed.

Lemma replace_coord_fixed (c : cube) (name : string) (k : coord) :
  cube_coord c name = Ok k -> replace_coord c k = c.
Proof.
  intros H. pose proof (cube_coord_name _ _ _ H) as Hn.
  apply cube_coord_singleton in H. unfold cube_coords in H.
  unfold replace_coord. destruct c as [nm d cs]. cbn [cube_name data coords] in *.
  f_equal. rewrite <- (map_id cs) at 2. apply map_ext_in.
  intros k0 Hin. destruct (String.eqb_spec (coord_name k0) (coord_name k))
    as [E|E]; [|reflexivity].
  assert (Hf : In k0 (filter (fun k1 => String.eqb (coord_name k1) name) cs)).
  { apply filter_In. split; [exact Hin|]. apply String.eqb_eq. congruence. }
  rewrite H in Hf. destruct Hf as [Hf|[]]. now symmetry.
Qed.

Lemma convert_coord_in_place_fixed (c : cube) (name : string) (k : coord)
    (u : unit_t) :
  cube_coord c name = Ok k -> units k = u ->
  convert_coord_in_place c name u = Ok c.
Proof.
  intros H Hu. unfold convert_coord_in_place. rewrite H. cbn [bind].
  unfold convert_units. rewrite Hu.
  replace (unit_eqb u u) with true by (destruct u; reflexivity).
  cbn [bind]. now rewrite (replace_coord_fixed c name k H).
Qed.

(** X9. The cube that the lead-time search leaves behind is a fixed point
    of the search: searching it again changes nothing and gives the same
    lead times. *)
Theorem lead_times_search_idempotent (c c' : cube) (lead : list Q) :
  _find_required_lead_times c = Ok (c', lead) ->
  _find_required_lead_times c' = Ok (c', lead).
Proof.
  unfold _find_required_lead_times. intros H.
  destruct (cube_coords c "forecast_period") as [|kf lf] eqn:Ef.
  - destruct (cube_coords c "time") as [|kt lt] eqn:Et; [discriminate H|].
    destruct (cube_coords c "forecast_reference_time") as [|kr lr] eqn:Er;
      [discriminate H|].
    unfold convert_coord_in_place in H.
    destruct (cube_coord c "time") as [t|e] eqn:Ht;
      [|apply cube_coord_raises in Ht; destruct Ht as [m ->];
        discriminate H].
    cbn [bind] in H.
    destruct (convert_units t HoursSinceEpoch) as [t'|e] eqn:Ht';
      [|destruct (convert_units_fails_shape _ _ _ Ht') as [m ->];
        discriminate H].
    cbn [bind] in H. set (c1 := replace_coord c t') in *.
    destruct (cube_coord c1 "forecast_reference_time") as [f|e] eqn:Hf;
      [|apply cube_coord_raises in Hf; destruct Hf as [m ->];
        discriminate H].
    cbn [bind] in H.
    destruct (convert_units f HoursSinceEpoch) as [f'|e] eqn:Hf';
      [|destruct (convert_units_fails_shape _ _ _ Hf') as [m ->];
        discriminate H].
    cbn [bind reraise_with] in H. set (c2 := replace_coord c1 f') in *.
    destruct (cube_coord c2 "time") as [t2|e] eqn:H2t; [|discriminate H].
    cbn [bind] in H.
    destruct (cube_coord c2 "forecast_reference_time") as [f2|e] eqn:H2f;
      [|discriminate H].
    cbn [bind] in H.
    destruct (np_sub (points t2) (points f2)) as [l|e] eqn:Hs;
      [|discriminate H].
    cbn [bind] in H. apply Ok_inj in H. injection H as <- <-.
    pose proof (cube_coord_name _ _ _ Ht) as Hnt.
    pose proof (cube_coord_name _ _ _ Hf) as Hnf.
    pose proof (convert_units_name _ _ _ Ht') as Hnt'.
    pose proof (convert_units_name _ _ _ Hf') as Hnf'.
    assert (E2t : t2 = t').
    { unfold c2 in H2t. rewrite cube_coord_replace_other in H2t
        by (rewrite Hnf', Hnf; discriminate).
      unfold c1 in H2t.
      rewrite (cube_coord_replace_same c t t' "time" Ht) in H2t
        by congruence.
      apply Ok_inj in H2t. now symmetry. }
    assert (E2f : f2 = f').
    { unfold c2 in H2f.
      rewrite (cube_coord_replace_same c1 f f' _ Hf) in H2f by congruence.
      apply Ok_inj in H2f. now symmetry. }
    subst t2 f2.
    assert (Efp : cube_coords c2 "forecast_period" = []).
    { unfold c2, c1. rewrite !cube_coords_replace_other; [exact Ef| |].
      - rewrite Hnt', Hnt. discriminate.
      - rewrite Hnf', Hnf. discriminate. }
    rewrite Efp, (cube_coord_singleton _ _ _ H2t),
      (cube_coord_singleton _ _ _ H2f).
    rewrite (convert_coord_in_place_fixed c2 "time" t' HoursSinceEpoch H2t)
      by (apply (convert_units_points _ _ _ Ht')).
    cbn [bind].
    rewrite (convert_coord_in_place_fixed c2 "forecast_reference_time" f'
               HoursSinceEpoch H2f)
      by (apply (convert_units_points _ _ _ Hf')).
    cbn [bind reraise_with]. rewrite H2t, H2f. cbn [bind]. rewrite Hs.
    reflexivity.
  - unfold convert_coord_in_place in H.
    destruct (cube_coord c "forecast_period") as [k|e] eqn:Hk;
      [|apply cube_coord_raises in Hk; destruct Hk as [m ->];
        discriminate H].
    cbn [bind] in H.
    destruct (convert_units k Hours) as [k'|e] eqn:Hk';
      [|destruct (convert_units_fails_shape _ _ _ Hk') as [m ->];
        discriminate H].
    cbn [bind reraise_with] in H. set (c1 := replace_coord c k') in *.
    pose proof (cube_coord_name _ _ _ Hk) as Hn.
    pose proof (convert_units_name _ _ _ Hk') as Hn'.
    assert (H1 : cube_coord c1 "forecast_period" = Ok k')
      by (apply (cube_coord_replace_same c k k'); congruence).
    rewrite H1 in H. cbn [bind] in H. apply Ok_inj in H. injection H as <- <-.
    rewrite (cube_coord_singleton _ _ _ H1).
    rewrite (convert_coord_in_place_fixed c1 "forecast_period" k' Hours H1)
      by (apply (convert_units_points _ _ _ Hk')).
    cbn [bind reraise_with]. rewrite H1. reflexivity.
Qed.

Lemma lead_times_search_idempotent_witness :
  _find_required_lead_times
    (mk_cube "scheduled" (data scheduled_cube)
       [mk_coord "time" [10; 13] HoursSinceEpoch (Some 0%nat);
        mk_coord "forecast_period" [0 # 3600; 10800 # 3600] Hours
          (Some 0%nat);
        mk_coord "projection_y_coordinate" [0; 1000; 2000] Metres
          (Some 1%nat);
        mk_coord "projection_x_coordinate" [0; 1000; 2000] Metres
          (Some 2%nat)])
  = Ok (mk_cube "scheduled" (data scheduled_cube)
          [mk_coord "time" [10; 13] HoursSinceEpoch (Some 0%nat);
           mk_coord "forecast_period" [0 # 3600; 10800 # 3600] Hours
             (Some 0%nat);
           mk_coord "projection_y_coordinate" [0; 1000; 2000] Metres
             (Some 1%nat);
           mk_coord "projection_x_coordinate" [0; 1000; 2000] Metres
             (Some 2%nat)],
        [0 # 3600; 10800 # 3600]).
Proof.
  apply (lead_times_search_idempotent scheduled_cube). reflexivity.
Defined.

(** ** Kernel builder *)

(** X10. For ranges of at least one cell and spatial coordinates on
    distinct data axes, the unweighted kernel can always be built; the
    weighted kernel can be built exactly when the spatial axes are the last
    two data axes, in the order (x, y) or, in the order (y, x), with equal
    ranges, and the attempt raises the broadcast error otherwise. *)
Theorem kernel_build_conditions (ndim ax ay : nat) (rx ry : Z) :
  (ax < ndim)%nat -> (ay < ndim)%nat -> ax <> ay ->
  (1 <= rx)%Z -> (1 <= ry)%Z ->
  (exists k, build_kernel true ndim [ax; ay] (rx, ry) = Ok k)
  /\ ((exists k, build_kernel false ndim [ax; ay] (rx, ry) = Ok k)
      <-> (S ax = ay /\ S ay = ndim) \/ (S ay = ax /\ S ax = ndim /\ rx = ry))
  /\ (~ ((S ax = ay /\ S ay = ndim) \/ (S ay = ax /\ S ax = ndim /\ rx = ry))
      -> build_kernel false ndim [ax; ay] (rx, ry)
         = Raise (ValueError [Lit "could not broadcast input array"])).
Proof.
  intros Hx Hy Hne Hrx Hry.
  assert (Hw : build_kernel false ndim [ax; ay] (rx, ry)
               = if aligned_ok
                      [Z.to_nat (1 + rx * 2); Z.to_nat (1 + ry * 2)]
                      (kernel_shape ndim ax ay (rx, ry))
                 then Ok (mk_ndarray (kernel_shape ndim ax ay (rx, ry))
                            (map (fun p : bool * Q =>
                                    if fst p then 0 else snd p)
                               (combine
                                  (map (fun w => negb (Qle_bool 0 w))
                                     (broadcast_weights ndim ax ay (rx, ry)))
                                  (broadcast_weights ndim ax ay (rx, ry)))))
                 else Raise (ValueError
                               [Lit "could not broadcast input array"])).
  { apply (build_kernel_weighted ndim ax ay (rx, ry));
      cbn [fst snd]; lia || assumption. }
  destruct ndim as [|[|nd]]; [lia | lia |].
  pose proof (aligned_layout nd ax ay (rx, ry) Hx Hy Hne) as Hal.
  cbn [fst snd] in Hal. specialize (Hal Hrx Hry).
  split; [|split].
  - apply build_kernel_succeeds; try assumption. left. reflexivity.
  - rewrite Hw. split.
    + intros [k Hk]. destruct (aligned_ok _ _); [|discriminate Hk].
      destruct (proj1 Hal eq_refl) as [[H1 H2]|[H1 [H2 H3]]]; lia.
    + intros Hlay.
      assert (E : aligned_ok
                    [Z.to_nat (1 + rx * 2); Z.to_nat (1 + ry * 2)]
                    (kernel_shape (S (S nd)) ax ay (rx, ry)) = true)
        by (apply Hal; lia).
      rewrite E. eexists. reflexivity.
  - intros Hlay. rewrite Hw.
    destruct (aligned_ok _ _); [|reflexivity].
    exfalso. apply Hlay. destruct (proj1 Hal eq_refl) as [[H1 H2]|[H1 [H2 H3]]];
      lia.
Qed.

Lemma kernel_build_conditions_witness :
  (exists k, build_kernel true 3 [2; 1]%nat (1, 2)%Z = Ok k)
  /\ (exists k, build_kernel false 3 [1; 2]%nat (1, 2)%Z = Ok k)
  /\ build_kernel false 3 [2; 1]%nat (1, 2)%Z
     = Raise (ValueError [Lit "could not broadcast input array"]).
Proof.
  split; [|split].
  - apply (kernel_build_conditions 3 2 1 1 2); lia.
  - apply (proj1 (proj2 (kernel_build_conditions 3 1 2 1 2
                           ltac:(lia) ltac:(lia) ltac:(lia)
                           ltac:(lia) ltac:(lia)))).
    left. lia.
  - apply (proj2 (proj2 (kernel_build_conditions 3 2 1 1 2
                           ltac:(lia) ltac:(lia) ltac:(lia)
                           ltac:(lia) ltac:(lia)))).
    lia.
Defined.

Lemma sum_sq_grid_nonneg (ranges : Z * Z) :
  Forall (fun s => (0 <= s)%Z) (elems (sum_sq_grid ranges)).
Proof.
  unfold sum_sq_grid. cbn [elems]. apply Forall_forall. intros s Hin.
  apply in_flat_map in Hin. destruct Hin as [a [_ Hin]].
  apply in_map_iff in Hin. destruct Hin as [b [<- _]]. nia.
Qed.

Lemma raw_weight_le_one (ranges : Z * Z) (s : Z) :
  (0 < cumprod_last ranges)%Z -> (0 <= s)%Z -> raw_weight ranges s <= 1.
Proof.
  intros HP Hs. unfold raw_weight.
  destruct (cumprod_last ranges) as [|p|p]; try lia.
  remember (Z.pos p - s)%Z as num eqn:Hnum.
  unfold Qdiv, Qinv, Qmult, Qle, inject_Z. simpl. lia.
Qed.

Lemma zero_where_le_one (ms : list bool) (ws : list Q) :
  Forall (fun w => w <= 1) ws ->
  Forall (fun w => w <= 1)
    (map (fun p : bool * Q => if fst p then 0 else snd p) (combine ms ws)).
Proof.
  intros H. revert ms. induction H as [|w ws Hw _ IH]; intros [|b ms];
    simpl; try constructor.
  - destruct b; [discriminate | exact Hw].
  - apply IH.
Qed.

(** The centre cell of the unweighted kernel, at its row-major position. *)
Lemma unweighted_centre (ndim ax ay : nat) (rx ry : Z) (k : ndarray Q) :
  (ax < ndim)%nat -> (ay < ndim)%nat -> ax <> ay ->
  (1 <= rx)%Z -> (1 <= ry)%Z ->
  build_kernel true ndim [ax; ay] (rx, ry) = Ok k ->
  nth (Z.to_nat rx * Z.to_nat (1 + ry * 2) + Z.to_nat ry) (elems k) 0 = 1.
Proof.
  intros Hx Hy Hne Hrx Hry Hb.
  set (n := Z.to_nat (1 + rx * 2)). set (m := Z.to_nat (1 + ry * 2)).
  set (t := (Z.to_nat rx * m + Z.to_nat ry)%nat).
  assert (Hs : size_of (kernel_shape ndim ax ay (rx, ry)) = (n * m)%nat).
  { apply (kernel_cell_position ndim ax ay 0 0 (rx, ry) Hx Hy Hne);
      cbn [fst snd]; lia. }
  assert (Ht : (t < n * m)%nat) by (unfold t, n, m; nia).
  rewrite build_kernel_unweighted in Hb
    by (cbn [fst snd]; lia || assumption).
  apply Ok_inj in Hb. subst k. cbn [elems].
  rewrite (nth_map_lt _ _ _ (true, 0))
    by (rewrite length_combine, length_map, length_sum_sq_grid,
          repeat_length, Hs; cbn [fst snd]; fold n m; lia).
  rewrite combine_nth
    by (rewrite length_map, length_sum_sq_grid, repeat_length, Hs;
        reflexivity).
  cbn [fst snd].
  rewrite (nth_map_lt _ _ _ 0%Z)
    by (rewrite length_sum_sq_grid; cbn [fst snd]; fold n m; exact Ht).
  pose proof (nth_sum_sq_grid (rx, ry) (Z.to_nat rx) (Z.to_nat ry)) as Hg.
  cbn [fst snd] in Hg. fold n m in Hg. fold t in Hg.
  rewrite Hg by (unfold n, m; lia).
  rewrite !Z2Nat.id, !Z.sub_diag by lia.
  destruct (Z.gtb_spec (0 ^ 2 + 0 ^ 2) (cumprod_last (rx, ry)));
    [unfold cumprod_last in *; cbn [fst snd] in *; nia|].
  apply nth_repeat_lt. rewrite Hs. exact Ht.
Qed.

(** X11. With ranges of at least one cell, no weight of a kernel exceeds
    one, in either mode and whatever the axes; and with the spatial
    coordinates on distinct axes the centre cell of the kernel has weight
    one. *)
Theorem kernel_weights_at_most_one :
  (forall unweighted ndim axes rx ry k,
      (1 <= rx)%Z -> (1 <= ry)%Z ->
      build_kernel unweighted ndim axes (rx, ry) = Ok k ->
      Forall (fun w => w <= 1) (elems k))
  /\ (forall unweighted ndim ax ay rx ry k,
         (ax < ndim)%nat -> (ay < ndim)%nat -> ax <> ay ->
         (1 <= rx)%Z -> (1 <= ry)%Z ->
         build_kernel unweighted ndim [ax; ay] (rx, ry) = Ok k ->
         kernel_at k ndim ax ay (rx, ry) 0 0 == 1).
Proof.
  split.
  - intros unweighted ndim axes rx ry k Hrx Hry Hb.
    assert (HP : (0 < cumprod_last (rx, ry))%Z)
      by (unfold cumprod_last; cbn [fst snd]; nia).
    unfold build_kernel in Hb.
    destruct (fill_fullranges ndim axes (rx, ry)) as [fr|e];
      [|discriminate Hb].
    cbn [bind] in Hb. unfold np_ones in Hb.
    destruct (existsb _ _); [discriminate Hb|]. cbn [bind] in Hb.
    destruct unweighted.
    + unfold np_reshape in Hb.
      destruct (_ =? _)%nat; [|discriminate Hb]. cbn [bind] in Hb.
      apply Ok_inj in Hb. subst k. unfold zero_where. cbn [elems].
      apply zero_where_le_one. apply Forall_forall.
      intros w Hin. apply repeat_spec in Hin. subst w. apply Qle_refl.
    + unfold assign_all in Hb. cbn [shape elems] in Hb.
      destruct (squeeze_to _ _) as [vsh|]; [|discriminate Hb].
      destruct (aligned_ok _ _); [|discriminate Hb].
      cbn [bind] in Hb. apply Ok_inj in Hb. subst k.
      unfold zero_where. cbn [shape elems].
      apply zero_where_le_one. apply Forall_forall. intros w Hin.
      apply in_map_iff in Hin. destruct Hin as [idx [<- _]].
      match goal with
      | |- nth ?pos ?l 0 <= 1 =>
          destruct (nth_in_or_default pos l 0) as [Hin|Hd]
      end.
      * apply in_map_iff in Hin. destruct Hin as [s [Hs Hin]].
        rewrite <- Hs. apply (raw_weight_le_one (rx, ry) s HP).
        pose proof (sum_sq_grid_nonneg (rx, ry)) as Hall.
        rewrite Forall_forall in Hall. now apply Hall.
      * rewrite Hd. discriminate.
  - intros unweighted ndim ax ay rx ry k Hx Hy Hne Hrx Hry Hb.
    destruct unweighted.
    + unfold kernel_at, get. cbn [fst snd].
      rewrite (build_kernel_shape true ndim ax ay (rx, ry) k)
        by (cbn [fst snd]; lia || assumption).
      rewrite !Z.add_0_l.
      destruct (kernel_cell_position ndim ax ay (Z.to_nat rx) (Z.to_nat ry)
                  (rx, ry) Hx Hy Hne) as [_ [_ Hr]];
        try (cbn [fst snd]; lia).
      cbn [fst snd] in Hr. rewrite Hr.
      replace (if (ax <? ay)%nat
               then (Z.to_nat rx * Z.to_nat (1 + ry * 2) + Z.to_nat ry)%nat
               else (Z.to_nat ry * Z.to_nat (1 + rx * 2) + Z.to_nat rx)%nat)
        with (Z.to_nat rx * Z.to_nat (1 + ry * 2) + Z.to_nat ry)%nat
        by (destruct (ax <? ay)%nat; nia).
      rewrite (unweighted_centre ndim ax ay rx ry k) by assumption.
      reflexivity.
    + rewrite (weighted_cell ndim ax ay rx ry k 0 0)
        by (lia || assumption).
      change (0 ^ 2 + 0 ^ 2)%Z with 0%Z.
      assert (HP : (0 < cumprod_last (rx, ry))%Z)
        by (unfold cumprod_last; cbn [fst snd]; nia).
      destruct (raw_weight_sign (rx, ry) 0 HP) as [Hle _].
      assert (E : Qle_bool 0 (raw_weight (rx, ry) 0) = true)
        by (apply Qle_bool_iff, Hle; lia).
      rewrite E. cbn [negb]. unfold raw_weight.
      rewrite Z.sub_0_r.
      destruct (cumprod_last (rx, ry)) as [|p|p]; try lia.
      unfold Qdiv, Qinv, Qmult, Qeq, inject_Z. simpl. lia.
Qed.

Lemma kernel_weights_at_most_one_witness :
  exists k,
    build_kernel false 2 [1; 0]%nat (2, 2)%Z = Ok k
    /\ Forall (fun w => w <= 1) (elems k)
    /\ kernel_at k 2 1 0 (2, 2)%Z 0 0 == 1.
Proof.
  eexists. split; [reflexivity|]. split.
  - apply (proj1 kernel_weights_at_most_one false 2%nat [1; 0]%nat 2%Z 2%Z);
      [lia | lia | reflexivity].
  - apply (proj2 kernel_weights_at_most_one false 2%nat 1%nat 0%nat 2%Z 2%Z);
      [lia | lia | lia | lia | lia | reflexivity].
Defined.

(** ** Convolver *)






(** ** Orchestration *)

(** X13. The loop over the time slices returns one cube per slice, in the
    order of the slices, each resolved with its own radius, smoothed and
    given a leading time axis of extent one; and it returns nothing at all
    when the resolver, the smoothing or the new axis fails on any one
    slice. *)
Theorem smooth_slices_all_or_nothing (self : plugin) :
  (forall work cubes,
      smooth_slices self work = Ok cubes ->
      Forall2
        (fun (w : cube * Q) (out : cube) =>
           exists ranges smoothed,
             _get_grid_x_y_kernel_ranges (fst w) (snd w) = Ok ranges
             /\ _apply_kernel_for_smoothing self (fst w) ranges = Ok smoothed
             /\ new_axis smoothed "time" = Ok out
             /\ shape (data out) = 1%nat :: shape (data (fst w)))
        work cubes)
  /\ (forall work w,
         In w work ->
         (forall ranges smoothed,
             _get_grid_x_y_kernel_ranges (fst w) (snd w) = Ok ranges ->
             _apply_kernel_for_smoothing self (fst w) ranges = Ok smoothed ->
             exists e, new_axis smoothed "time" = Raise e) ->
         exists e, smooth_slices self work = Raise e).
Proof.
  split.
  - induction work as [|[sl r] work IH]; intros cubes H.
    + apply Ok_inj in H. subst. constructor.
    + cbn [smooth_slices] in H.
      destruct (_get_grid_x_y_kernel_ranges sl r) as [ranges|] eqn:E1;
        [|discriminate H].
      cbn [bind] in H.
      destruct (_apply_kernel_for_smoothing self sl ranges) as [sm|] eqn:E2;
        [|discriminate H].
      cbn [bind] in H.
      destruct (new_axis sm "time") as [out|] eqn:E3; [|discriminate H].
      cbn [bind] in H.
      destruct (smooth_slices self work) as [rest|] eqn:E4; [|discriminate H].
      cbn [bind] in H. apply Ok_inj in H. subst cubes.
      constructor; [|now apply IH].
      exists ranges, sm. cbn [fst snd]. repeat split; try assumption.
      unfold new_axis in E3.
      destruct (cube_coord sm "time") as [kt|]; [|discriminate E3].
      cbn [bind] in E3. destruct (coord_dim kt); [discriminate E3|].
      apply Ok_inj in E3. subst out. cbn [data shape].
      f_equal. unfold _apply_kernel_for_smoothing in E2.
      destruct (spatial_axes sl); [|discriminate E2]. cbn [bind] in E2.
      destruct (build_kernel _ _ _ _); [|discriminate E2]. cbn [bind] in E2.
      unfold correlate in E2.
      destruct (_ =? _)%nat; [|discriminate E2]. cbn [bind] in E2.
      apply Ok_inj in E2. subst sm. reflexivity.
  - induction work as [|[sl r] work IH]; intros w Hin Hfail; [contradiction|].
    cbn [smooth_slices].
    destruct (_get_grid_x_y_kernel_ranges sl r) as [ranges|e] eqn:E1;
      [|eexists; reflexivity].
    cbn [bind].
    destruct (_apply_kernel_for_smoothing self sl ranges) as [sm|e] eqn:E2;
      [|eexists; reflexivity].
    cbn [bind].
    destruct (new_axis sm "time") as [out|e] eqn:E3; [|eexists; reflexivity].
    cbn [bind].
    destruct Hin as [<-|Hin].
    + cbn [fst snd] in Hfail. destruct (Hfail ranges sm E1 E2) as [e He].
      congruence.
    + destruct (IH w Hin Hfail) as [e He]. rewrite He. eexists. reflexivity.
Qed.

Lemma smooth_slices_all_or_nothing_witness :
  exists e,
    smooth_slices (mk_plugin (RList [1; 3]) (Some [0; 6]) true)
      [(flat_grid, 1); (flat_grid, 1 # 2)] = Raise e.
Proof.
  apply (proj2 (smooth_slices_all_or_nothing
                  (mk_plugin (RList [1; 3]) (Some [0; 6]) true))
           [(flat_grid, 1); (flat_grid, 1 # 2)] (flat_grid, 1 # 2)).
  - right. left. reflexivity.
  - intros ranges smoothed H. vm_compute in H. discriminate H.
Defined.

(** ** Interpolation of the radius schedule *)







(** ** Kernel symmetry *)

(** The unweighted kernel at a row-major position. *)
Lemma unweighted_flat (ndim ax ay : nat) (rx ry : Z) (k : ndarray Q)
    (t : nat) :
  (ax < ndim)%nat -> (ay < ndim)%nat -> ax <> ay ->
  (0 <= rx)%Z -> (0 <= ry)%Z ->
  (t < Z.to_nat (1 + rx * 2) * Z.to_nat (1 + ry * 2))%nat ->
  build_kernel true ndim [ax; ay] (rx, ry) = Ok k ->
  nth t (elems k) 0
  = if (nth t (elems (sum_sq_grid (rx, ry))) 0 >? rx * ry)%Z then 0 else 1.
Proof.
  intros Hx Hy Hne Hrx Hry Ht Hb.
  assert (Hs : size_of (kernel_shape ndim ax ay (rx, ry))
               = (Z.to_nat (1 + rx * 2) * Z.to_nat (1 + ry * 2))%nat).
  { apply (kernel_cell_position ndim ax ay 0 0 (rx, ry) Hx Hy Hne);
      cbn [fst snd]; lia. }
  rewrite build_kernel_unweighted in Hb by assumption.
  apply Ok_inj in Hb. subst k. cbn [elems].
  rewrite (nth_map_lt _ _ _ (true, 0))
    by (rewrite length_combine, length_map, length_sum_sq_grid,
          repeat_length, Hs; cbn [fst snd]; lia).
  rewrite combine_nth
    by (rewrite length_map, length_sum_sq_grid, repeat_length, Hs;
        reflexivity).
  cbn [fst snd].
  rewrite (nth_map_lt _ _ _ 0%Z)
    by (rewrite length_sum_sq_grid; cbn [fst snd]; exact Ht).
  unfold cumprod_last. cbn [fst snd].
  destruct (_ >? _)%Z; [reflexivity|].
  apply nth_repeat_lt. rewrite Hs. exact Ht.
Qed.

(** The grid of squared distances reads the same from its last cell
    backwards. *)
Lemma flat_index_lt (n m i j : nat) :
  (i < n)%nat -> (j < m)%nat -> (i * m + j < n * m)%nat.
Proof. intros Hi Hj. nia. Qed.

Lemma reversal_index (n m i j : nat) :
  (i < n)%nat -> (j < m)%nat ->
  ((n - 1 - i) * m + (m - 1 - j) = n * m - 1 - (i * m + j))%nat.
Proof.
  intros Hi Hj.
  replace n with (S (i + (n - 1 - i)))%nat at 2 by lia.
  generalize (n - 1 - i)%nat as p. intro p.
  rewrite Nat.mul_succ_l, Nat.mul_add_distr_r.
  generalize (p * m)%nat as pm, (i * m)%nat as im. intros pm im. lia.
Qed.

Lemma sum_sq_grid_reversal (rx ry : Z) (t : nat) :
  (0 <= rx)%Z -> (0 <= ry)%Z ->
  (t < Z.to_nat (1 + rx * 2) * Z.to_nat (1 + ry * 2))%nat ->
  nth (Z.to_nat (1 + rx * 2) * Z.to_nat (1 + ry * 2) - 1 - t)
      (elems (sum_sq_grid (rx, ry))) 0%Z
  = nth t (elems (sum_sq_grid (rx, ry))) 0%Z.
Proof.
  intros Hrx Hry Ht.
  set (n := Z.to_nat (1 + rx * 2)) in *.
  set (m := Z.to_nat (1 + ry * 2)) in *.
  assert (Hm : (0 < m)%nat) by (unfold m; lia).
  set (a := (t / m)%nat). set (b := (t mod m)%nat).
  assert (Hab : t = (a * m + b)%nat)
    by (unfold a, b; rewrite (Nat.div_mod_eq t m) at 1; lia).
  assert (Hb : (b < m)%nat) by (apply Nat.mod_upper_bound; lia).
  assert (Ha : (a < n)%nat)
    by (apply Nat.Div0.div_lt_upper_bound; lia).
  clearbody a b. subst t. clear Ht.
  assert (Ha' : (n - 1 - a < n)%nat) by lia.
  assert (Hb' : (m - 1 - b < m)%nat) by lia.
  rewrite <- (reversal_index n m a b Ha Hb).
  pose proof (nth_sum_sq_grid (rx, ry) a b) as H1.
  pose proof (nth_sum_sq_grid (rx, ry) (n - 1 - a) (m - 1 - b)) as H2.
  cbn [fst snd] in H1, H2. fold n m in H1, H2.
  rewrite (H1 Ha Hb), (H2 Ha' Hb'). clear H1 H2.
  assert (Hn : Z.of_nat n = (1 + rx * 2)%Z) by (unfold n; lia).
  assert (Hm' : Z.of_nat m = (1 + ry * 2)%Z) by (unfold m; lia).
  clearbody n m.
  replace (Z.of_nat (n - 1 - a) - rx)%Z with (- (Z.of_nat a - rx))%Z by lia.
  replace (Z.of_nat (m - 1 - b) - ry)%Z with (- (Z.of_nat b - ry))%Z by lia.
  ring.
Qed.

(** X15. Where the x axis precedes the y axis or the ranges are equal, the
    kernel of either mode is mirrored about both axes, and with equal
    ranges it is also unchanged when the two coordinates are exchanged.
    In every layout with distinct spatial axes, the kernel of either mode
    is unchanged when both coordinates are negated together. *)
Theorem kernel_symmetries (unweighted : bool) (ndim ax ay : nat)
    (rx ry : Z) (k : ndarray Q) :
  (1 <= rx)%Z -> (1 <= ry)%Z ->
  (ax < ndim)%nat -> (ay < ndim)%nat -> ax <> ay ->
  build_kernel unweighted ndim [ax; ay] (rx, ry) = Ok k ->
  (forall cx cy,
      (- rx <= cx <= rx)%Z -> (- ry <= cy <= ry)%Z ->
      kernel_at k ndim ax ay (rx, ry) (- cx) (- cy)
      = kernel_at k ndim ax ay (rx, ry) cx cy)
  /\ ((ax < ay)%nat \/ rx = ry ->
      forall cx cy,
        (- rx <= cx <= rx)%Z -> (- ry <= cy <= ry)%Z ->
        kernel_at k ndim ax ay (rx, ry) (- cx) cy
        = kernel_at k ndim ax ay (rx, ry) cx cy
        /\ kernel_at k ndim ax ay (rx, ry) cx (- cy)
           = kernel_at k ndim ax ay (rx, ry) cx cy)
  /\ (rx = ry ->
      forall cx cy,
        (- rx <= cx <= rx)%Z -> (- ry <= cy <= ry)%Z ->
        kernel_at k ndim ax ay (rx, ry) cy cx
        = kernel_at k ndim ax ay (rx, ry) cx cy).
Proof.
  intros Hrx Hry Hx Hy Hne Hb. split; [|split].
  - intros cx cy Hcx Hcy. destruct unweighted.
    + unfold kernel_at, get. cbn [fst snd].
      rewrite (build_kernel_shape true ndim ax ay (rx, ry) k)
        by (cbn [fst snd]; lia || assumption).
      set (n := Z.to_nat (1 + rx * 2)). set (m := Z.to_nat (1 + ry * 2)).
      set (i := Z.to_nat (cx + rx)). set (j := Z.to_nat (cy + ry)).
      assert (Hi : (i < n)%nat) by (unfold i, n; lia).
      assert (Hj : (j < m)%nat) by (unfold j, m; lia).
      replace (Z.to_nat (- cx + rx)) with (n - 1 - i)%nat
        by (unfold n, i; lia).
      replace (Z.to_nat (- cy + ry)) with (m - 1 - j)%nat
        by (unfold m, j; lia).
      destruct (kernel_cell_position ndim ax ay i j (rx, ry) Hx Hy Hne)
        as [_ [_ Hr]]; try (cbn [fst snd]; assumption).
      destruct (kernel_cell_position ndim ax ay (n - 1 - i) (m - 1 - j)
                  (rx, ry) Hx Hy Hne) as [_ [_ Hr']];
        try (cbn [fst snd]; fold n m; lia).
      cbn [fst snd] in Hr, Hr'. fold n m in Hr, Hr'. rewrite Hr, Hr'.
      set (t := if (ax <? ay)%nat then (i * m + j)%nat
                else (j * n + i)%nat).
      assert (Ht : (t < n * m)%nat).
      { unfold t. destruct (ax <? ay)%nat.
        - apply flat_index_lt; assumption.
        - rewrite (Nat.mul_comm n m). apply flat_index_lt; assumption. }
      replace (if (ax <? ay)%nat
               then ((n - 1 - i) * m + (m - 1 - j))%nat
               else ((m - 1 - j) * n + (n - 1 - i))%nat)
        with (n * m - 1 - t)%nat.
      2: { unfold t. destruct (ax <? ay)%nat.
           - symmetry. apply reversal_index; assumption.
           - rewrite (Nat.mul_comm n m). symmetry.
             apply reversal_index; assumption. }
      rewrite !(unweighted_flat ndim ax ay rx ry k)
        by (fold n m; lia || assumption).
      pose proof (sum_sq_grid_reversal rx ry t) as E. fold n m in E.
      rewrite E by (lia || assumption).
      reflexivity.
    + rewrite !(weighted_cell ndim ax ay rx ry k) by (lia || assumption).
      replace ((- cx) ^ 2 + (- cy) ^ 2)%Z with (cx ^ 2 + cy ^ 2)%Z by ring.
      reflexivity.
  - intros Hlay cx cy Hcx Hcy.
    assert (E1 : ((- cx) ^ 2 = cx ^ 2)%Z) by ring.
    assert (E2 : ((- cy) ^ 2 = cy ^ 2)%Z) by ring.
    destruct unweighted.
    + rewrite !(unweighted_cell ndim ax ay rx ry k) by (lia || assumption).
      rewrite E1, E2. split; reflexivity.
    + rewrite !(weighted_cell ndim ax ay rx ry k) by (lia || assumption).
      rewrite E1, E2. split; reflexivity.
  - intros Er cx cy Hcx Hcy. subst ry.
    destruct unweighted.
    + rewrite !(unweighted_cell ndim ax ay rx rx k)
        by (lia || assumption || (right; reflexivity)).
      now rewrite Z.add_comm.
    + rewrite !(weighted_cell ndim ax ay rx rx k) by (lia || assumption).
      now rewrite Z.add_comm.
Qed.

Lemma kernel_symmetries_witness :
  exists k,
    build_kernel true 2 [1; 0]%nat (1, 2)%Z = Ok k
    /\ kernel_at k 2 1 0 (1, 2)%Z (- (-1)) (- (-2))
       = kernel_at k 2 1 0 (1, 2)%Z (-1) (-2).
Proof.
  eexists. split; [reflexivity|].
  apply (proj1 (kernel_symmetries true 2 1 0 1 2 _
                  ltac:(lia) ltac:(lia) ltac:(lia) ltac:(lia) ltac:(lia)
                  eq_refl)); lia.
Defined.

(** ** Constant radius *)

(** Where the raw weights do not broadcast into the kernel, the weighted
    kernel is not built. *)
Lemma build_kernel_misaligned (ndim ax ay : nat) (rx ry : Z) :
  (ax < ndim)%nat -> (ay < ndim)%nat -> ax <> ay ->
  (1 <= rx)%Z -> (1 <= ry)%Z ->
  ~ ((S ax = ay /\ S ay = ndim) \/ (S ay = ax /\ S ax = ndim /\ rx = ry)) ->
  build_kernel false ndim [ax; ay] (rx, ry)
  = Raise (ValueError [Lit "could not broadcast input array"]).
Proof.
  intros Hx Hy Hne Hrx Hry Hlay.
  rewrite build_kernel_weighted by (cbn [fst snd]; lia || assumption).
  destruct ndim as [|[|nd]]; [lia | lia |].
  pose proof (aligned_layout nd ax ay (rx, ry) Hx Hy Hne) as Hal.
  cbn [fst snd] in Hal. specialize (Hal Hrx Hry). cbn [fst snd].
  destruct (aligned_ok _ _); [|reflexivity].
  exfalso. apply Hlay.
  destruct (proj1 Hal eq_refl) as [[H1 H2]|[H1 [H2 H3]]]; lia.
Qed.

(** X16. With a constant radius, on a field that passes the gate, whose
    radius resolves to cell counts and whose spatial coordinates lie on
    distinct data axes: [process] returns the argument cube itself, with
    its name, coordinates and shape as they were, in unweighted mode and,
    in weighted mode, where the spatial axes are the last two in the order
    (x, y) or, in the order (y, x), with equal cell counts; in weighted
    mode with any other layout it raises the broadcast error. *)
Theorem process_constant_radius (self : plugin) (c : cube) (r : Q)
    (ax ay : nat) (rx ry : Z) :
  lead_times self = None ->
  radii_in_km self = RFloat r ->
  validity_gate c = Ok tt ->
  _get_grid_x_y_kernel_ranges c r = Ok (rx, ry) ->
  spatial_axes c = Ok [ax; ay] ->
  (ax < List.length (shape (data c)))%nat ->
  (ay < List.length (shape (data c)))%nat -> ax <> ay ->
  (unweighted_mode self = true
   \/ (S ax = ay /\ S ay = List.length (shape (data c)))
   \/ (S ay = ax /\ S ax = List.length (shape (data c)) /\ rx = ry) ->
   exists out,
     process self c = Ok (out, out)
     /\ cube_name out = cube_name c
     /\ coords out = coords c
     /\ shape (data out) = shape (data c)
     /\ List.length (elems (data out)) = size_of (shape (data c)))
  /\ (unweighted_mode self = false ->
      ~ ((S ax = ay /\ S ay = List.length (shape (data c)))
         \/ (S ay = ax /\ S ax = List.length (shape (data c)) /\ rx = ry)) ->
      process self c
      = Raise (ValueError [Lit "could not broadcast input array"])).
Proof.
  intros Hl Hr Hg Hres Hax Hx Hy Hne.
  destruct (resolver_ok_inv c r rx ry Hres)
    as [dx [dy [qx [qy [_ [_ [_ [_ [_ [Hrx Hry]]]]]]]]]].
  assert (Hp : process self c
               = (c' <- _apply_kernel_for_smoothing self c (rx, ry) ;;
                  Ok (c', c'))).
  { unfold process. rewrite Hg. cbn [bind]. unfold process_body.
    rewrite Hl, Hr, Hres. reflexivity. }
  rewrite Hp. unfold _apply_kernel_for_smoothing. rewrite Hax. cbn [bind].
  split.
  - intros Hmode.
    destruct (build_kernel_succeeds (unweighted_mode self)
                (List.length (shape (data c))) ax ay rx ry
                Hx Hy Hne (proj1 Hrx) (proj1 Hry) Hmode) as [k Hk].
    rewrite Hk. cbn [bind].
    destruct (build_kernel_wf (unweighted_mode self) _ ax ay (rx, ry) k
                Hx Hy Hne) as [Hsh _];
      try (cbn [fst snd]; lia); try exact Hk.
    unfold correlate. rewrite Hsh, length_kernel_shape, Nat.eqb_refl.
    cbn [bind shape elems]. eexists. split; [reflexivity|].
    cbn [cube_name coords data shape elems].
    repeat split. now rewrite !length_map, length_indices.
  - intros Hw Hna. rewrite Hw.
    rewrite build_kernel_misaligned by (lia || assumption). reflexivity.
Qed.

Lemma process_constant_radius_witness :
  (exists out,
      process (mk_plugin (RFloat 1) None true) flat_grid = Ok (out, out)
      /\ coords out = coords flat_grid
      /\ shape (data out) = [5; 5]%nat)
  /\ process (mk_plugin (RFloat 2) None false) anisotropic_grid
     = Raise (ValueError [Lit "could not broadcast input array"]).
Proof.
  split.
  - destruct (proj1 (process_constant_radius
                       (mk_plugin (RFloat 1) None true) flat_grid 1
                       1%nat 0%nat 1%Z 1%Z
                       eq_refl eq_refl eq_refl eq_refl eq_refl
                       ltac:(simpl; lia) ltac:(simpl; lia)
                       ltac:(discriminate)))
      as [out [H1 [_ [H2 [H3 _]]]]].
    + left. reflexivity.
    + exists out. repeat split; assumption.
  - apply (proj2 (process_constant_radius
                    (mk_plugin (RFloat 2) None false) anisotropic_grid 2
                    1%nat 0%nat 1%Z 2%Z
                    eq_refl eq_refl eq_refl eq_refl eq_refl
                    ltac:(simpl; lia) ltac:(simpl; lia)
                    ltac:(discriminate))).
    + reflexivity.
    + simpl. lia.
Defined.

(** X17. A list of radii without lead times is accepted by the
    constructor, but [process] of the instance returns for no cube: it
    always raises, and what it raises on a cube that passes the gate and
    has grid spacings is a [TypeError]. *)
Theorem list_radii_without_lead_times (rs : list Q) (u : bool) (c : cube) :
  exists self,
    __init__ (RList rs) None u = Ok self
    /\ (exists e, process self c = Raise e)
    /\ (forall s,
           validity_gate c = Ok tt -> grid_spacings c = Ok s ->
           exists m, process self c = Raise (TypeError m)).
Proof.
  exists (mk_plugin (RList rs) None u). split; [reflexivity|].
  unfold process, process_body. cbn [lead_times radii_in_km].
  split.
  - destruct (validity_gate c) as [[]|e]; cbn [bind];
      [|eexists; reflexivity].
    destruct (grid_spacings c); cbn [bind]; eexists; reflexivity.
  - intros s Hg Hs. rewrite Hg, Hs. cbn [bind]. eexists. reflexivity.
Qed.

(** ** One-cell weighted kernel *)

Lemma indices_ones_prefix (p : nat) (sh : list nat) :
  indices (repeat 1%nat p ++ sh) = map (app (repeat 0%nat p)) (indices sh).
Proof.
  induction p as [|p IH]; cbn [repeat app indices].
  - induction (indices sh) as [|x l IHl]; [reflexivity|].
    cbn [map app]. now rewrite <- IHl.
  - cbn [seq flat_map]. rewrite app_nil_r, IH, map_map. reflexivity.
Qed.

Lemma broadcast_index_prefix (vsh pre idx : list nat) :
  List.length idx = List.length vsh ->
  broadcast_index vsh (pre ++ idx) = broadcast_index vsh idx.
Proof.
  intros Hl. unfold broadcast_index. rewrite length_app, Hl.
  replace (List.length pre + List.length vsh - List.length vsh)%nat
    with (List.length pre) by lia.
  rewrite skipn_app, skipn_all, !Nat.sub_diag. reflexivity.
Qed.

(** The shape of the one-cell kernel where the spatial axes are the last
    two. *)
Lemma unit_kernel_shape (p ax ay : nat) :
  (ax = p /\ ay = S p) \/ (ay = p /\ ax = S p) ->
  kernel_shape (S (S p)) ax ay (1, 1)%Z = repeat 1%nat p ++ [3; 3]%nat.
Proof.
  intros Hlay. rewrite kernel_shape_upd. cbn [fst snd].
  change (Z.to_nat (1 + 1 * 2)) with 3%nat.
  destruct Hlay as [[-> ->]|[-> ->]].
  - rewrite (upd_repeat_two 1%nat 3%nat 3%nat (S (S p)) p (S p)) by lia.
    replace (S p - S p)%nat with 0%nat by lia.
    replace (S (S p) - S (S p))%nat with 0%nat by lia. reflexivity.
  - rewrite upd_comm by lia.
    rewrite (upd_repeat_two 1%nat 3%nat 3%nat (S (S p)) p (S p)) by lia.
    replace (S p - S p)%nat with 0%nat by lia.
    replace (S (S p) - S (S p))%nat with 0%nat by lia. reflexivity.
Qed.

(** With ranges of one cell the weighted kernel is the centre cell alone:
    the raw weight vanishes on the four edge cells and is negative, hence
    masked, on the four corner cells. *)
Lemma unit_kernel (p ax ay : nat) :
  (ax = p /\ ay = S p) \/ (ay = p /\ ax = S p) ->
  build_kernel false (S (S p)) [ax; ay] (1, 1)%Z
  = Ok (mk_ndarray (repeat 1%nat p ++ [3; 3]%nat)
          [0; 0; 0; 0; 1; 0; 0; 0; 0]).
Proof.
  intros Hlay.
  rewrite build_kernel_weighted by (cbn [fst snd]; lia).
  assert (Ea : aligned_ok
                 [Z.to_nat (1 + fst (1, 1)%Z * 2);
                  Z.to_nat (1 + snd (1, 1)%Z * 2)]
                 (kernel_shape (S (S p)) ax ay (1, 1)%Z) = true).
  { apply aligned_layout; cbn [fst snd]; lia. }
  rewrite Ea.
  assert (Ebw : broadcast_weights (S (S p)) ax ay (1, 1)%Z
                = map (fun idx =>
                         nth (ravel [3; 3]%nat idx)
                           (map (raw_weight (1, 1)%Z)
                              (elems (sum_sq_grid (1, 1)%Z))) 0)
                    (indices [3; 3]%nat)).
  { unfold broadcast_weights. cbn [fst snd].
    change (Z.to_nat (1 + 1 * 2)) with 3%nat.
    rewrite (unit_kernel_shape p ax ay Hlay), indices_ones_prefix, map_map.
    apply map_ext_in. intros idx Hin.
    rewrite broadcast_index_prefix.
    - cbn in Hin.
      repeat (destruct Hin as [<-|Hin]; [reflexivity|]). contradiction.
    - cbn in Hin.
      repeat (destruct Hin as [<-|Hin]; [reflexivity|]). contradiction. }
  rewrite Ebw, (unit_kernel_shape p ax ay Hlay). reflexivity.
Qed.

(** The cell read under the centre of the one-cell kernel is the output
    cell's own. *)
Lemma neighbour_unit_centre (p : nat) (dsh i : list nat) :
  Forall2 lt i dsh -> List.length dsh = S (S p) ->
  neighbour dsh (repeat 1%nat p ++ [3; 3]%nat) i
    (repeat 0%nat p ++ [1; 1]%nat) = i.
Proof.
  revert dsh i. induction p as [|p IH]; intros dsh i H Hl.
  - destruct H as [|a n i dsh Ha H]; [discriminate Hl|].
    destruct H as [|b m i dsh Hb H]; [discriminate Hl|].
    destruct H as [|x y i dsh Hxy H]; [|discriminate Hl].
    cbn [repeat app neighbour].
    change (Z.of_nat (3 / 2)) with 1%Z. change (Z.of_nat 1) with 1%Z.
    unfold clamp. f_equal; [lia|]. f_equal. lia.
  - destruct H as [|a n i dsh Ha H]; [discriminate Hl|].
    cbn [repeat app neighbour].
    change (Z.of_nat (1 / 2)) with 0%Z. change (Z.of_nat 0) with 0%Z.
    f_equal; [unfold clamp; lia|].
    apply IH; [exact H|]. simpl in Hl. lia.
Qed.

Lemma correlate_at_unit_kernel (p : nat) (input : ndarray cell)
    (i : list nat) :
  Forall2 lt i (shape input) -> List.length (shape input) = S (S p) ->
  correlate_at input
    (mk_ndarray (repeat 1%nat p ++ [3; 3]%nat) [0; 0; 0; 0; 1; 0; 0; 0; 0]) i
  = cell_add (Val 0) (cell_scale 1 (get NaN input i)).
Proof.
  intros Hi Hl. unfold correlate_at. cbn [shape elems].
  rewrite indices_ones_prefix.
  cbn [indices seq flat_map map app combine fold_left fst snd].
  change (Qeq_bool 0 0) with true. change (Qeq_bool 1 0) with false.
  cbv iota. now rewrite neighbour_unit_centre.
Qed.

(** X18. In weighted mode, with ranges of one cell on both axes and the
    spatial axes the last two of the data: the kernel is its centre cell
    alone, with weight one, and the smoothing step returns the field as it
    was, cell by cell. *)
Theorem weighted_one_cell_identity (self : plugin) (c : cube)
    (ax ay : nat) :
  unweighted_mode self = false ->
  spatial_axes c = Ok [ax; ay] ->
  (S ax = ay /\ S ay = List.length (shape (data c)))
  \/ (S ay = ax /\ S ax = List.length (shape (data c))) ->
  (exists k,
      build_kernel false (List.length (shape (data c))) [ax; ay] (1, 1)%Z
      = Ok k
      /\ elems k = [0; 0; 0; 0; 1; 0; 0; 0; 0])
  /\ exists c',
       _apply_kernel_for_smoothing self c (1, 1)%Z = Ok c'
       /\ shape (data c') = shape (data c)
       /\ forall idx, Forall2 lt idx (shape (data c)) ->
            cell_equiv (get NaN (data c') idx) (get NaN (data c) idx).
Proof.
  intros Hm Hax Hlay.
  destruct (List.length (shape (data c))) as [|[|p]] eqn:El; [lia | lia |].
  split.
  { rewrite (unit_kernel p ax ay) by lia. eexists. split; reflexivity. }
  unfold _apply_kernel_for_smoothing. rewrite Hax, Hm, El. cbn [bind].
  rewrite (unit_kernel p ax ay) by lia. cbn [bind].
  unfold correlate. cbn [shape].
  rewrite El, length_app, repeat_length. cbn [List.length].
  replace (p + 2)%nat with (S (S p)) by lia. rewrite Nat.eqb_refl.
  cbn [bind shape elems].
  eexists. split; [reflexivity|]. cbn [data shape].
  split; [reflexivity|]. intros idx Hidx.
  rewrite get_mk, map_map.
  rewrite (nth_map_lt _ _ _ []) by (rewrite length_indices; now apply ravel_lt).
  rewrite nth_indices by exact Hidx.
  rewrite (correlate_at_unit_kernel p) by assumption.
  destruct (get NaN (data c) idx) as [v|];
    cbn [cell_scale cell_add cell_div cell_equiv]; [|exact I].
  change (Qeq_bool
            (np_sum (mk_ndarray (repeat 1%nat p ++ [3; 3]%nat)
                       [0; 0; 0; 0; 1; 0; 0; 0; 0])) 0) with false.
  cbv iota. unfold np_sum, cell_equiv. cbn [elems fold_right]. field.
Qed.

Lemma weighted_one_cell_identity_witness :
  exists c',
    _apply_kernel_for_smoothing (mk_plugin (RFloat 1) None false)
      anisotropic_grid (1, 1)%Z = Ok c'
    /\ cell_equiv (get NaN (data c') [1; 1]%nat) (Val 1)
    /\ cell_equiv (get NaN (data c') [0; 2]%nat) (Val 0).
Proof.
  destruct (weighted_one_cell_identity (mk_plugin (RFloat 1) None false)
              anisotropic_grid 1 0 eq_refl eq_refl)
    as [_ [c' [H1 [_ H2]]]].
  - right. simpl. lia.
  - exists c'. split; [exact H1|]. split.
    + apply (H2 [1; 1]%nat). repeat constructor.
    + apply (H2 [0; 2]%nat). repeat constructor.
Defined.

(** ** Order between fields *)

Lemma Forall2_nth_lt {A B} (R : A -> B -> Prop) (l1 : list A) (l2 : list B)
    (t : nat) (d1 : A) (d2 : B) :
  Forall2 R l1 l2 -> (t < List.length l1)%nat ->
  R (nth t l1 d1) (nth t l2 d2).
Proof.
  intros H. revert t. induction H as [|x y l1 l2 Hxy _ IH]; intros t Ht.
  - simpl in Ht. lia.
  - destruct t as [|t]; [exact Hxy|]. simpl. apply IH. simpl in Ht. lia.
Qed.

Lemma Forall2_map_same {A B C} (R : B -> C -> Prop) (f : A -> B)
    (g : A -> C) (l : list A) :
  (forall x, In x l -> R (f x) (g x)) -> Forall2 R (map f l) (map g l).
Proof.
  induction l as [|x l IH]; intros H; cbn [map]; constructor.
  - apply H. left. reflexivity.
  - apply IH. intros y Hy. apply H. right. exact Hy.
Qed.

(** Correlating two fields of one shape with non-negative weights keeps
    their order. *)
Lemma correlate_at_monotone (in1 in2 : ndarray cell) (k : ndarray Q)
    (i : list nat) :
  shape in1 = shape in2 ->
  (0 < size_of (shape in1))%nat ->
  List.length (elems in1) = size_of (shape in1) ->
  Forall2 cell_le (elems in1) (elems in2) ->
  Forall (fun w => 0 <= w) (elems k) ->
  exists q1 q2,
    correlate_at in1 k i = Val q1
    /\ correlate_at in2 k i = Val q2
    /\ q1 <= q2.
Proof.
  intros Hsh Hpos Hwf Hle Hknn. unfold correlate_at. rewrite <- Hsh.
  assert (Hget : forall kk,
             cell_le
               (get NaN in1 (neighbour (shape in1) (shape k) i kk))
               (get NaN in2 (neighbour (shape in1) (shape k) i kk))).
  { intros kk. unfold get. rewrite <- Hsh.
    apply Forall2_nth_lt; [exact Hle|].
    rewrite Hwf. now apply ravel_neighbour_lt. }
  assert (Hgen : forall (l : list (list nat * Q)) (a1 a2 : Q),
             Forall (fun kw => 0 <= snd kw) l ->
             a1 <= a2 ->
             exists q1 q2,
               fold_left
                 (fun (acc : cell) (kw : list nat * Q) =>
                    if Qeq_bool (snd kw) 0 then acc
                    else cell_add acc
                           (cell_scale (snd kw)
                              (get NaN in1
                                 (neighbour (shape in1) (shape k) i
                                    (fst kw)))))
                 l (Val a1) = Val q1
               /\ fold_left
                    (fun (acc : cell) (kw : list nat * Q) =>
                       if Qeq_bool (snd kw) 0 then acc
                       else cell_add acc
                              (cell_scale (snd kw)
                                 (get NaN in2
                                    (neighbour (shape in1) (shape k) i
                                       (fst kw)))))
                    l (Val a2) = Val q2
               /\ q1 <= q2).
  { induction l as [|[kk w] l IH]; intros a1 a2 Hnn Ha.
    - exists a1, a2. repeat split. exact Ha.
    - inversion Hnn as [|x y Hw Hrest]; subst. cbn [snd] in Hw.
      cbn [fold_left fst snd].
      destruct (Qeq_bool w 0); [now apply IH|].
      specialize (Hget kk).
      destruct (get NaN in1 _) as [d1|]; [|contradiction].
      destruct (get NaN in2 _) as [d2|]; [|contradiction].
      cbn [cell_le] in Hget. cbn [cell_scale cell_add].
      apply IH; [exact Hrest|].
      apply Qplus_le_compat; [exact Ha|].
      rewrite (Qmult_comm w d1), (Qmult_comm w d2).
      now apply Qmult_le_compat_r. }
  apply Hgen; [|apply Qle_refl].
  rewrite Forall_forall in *. intros [kk w] Hkw. cbn [snd].
  apply Hknn. eapply in_combine_r. exact Hkw.
Qed.

(** X19. Smoothing keeps the order between fields: of two cubes of one
    shape with the same spatial axes, the first nowhere above the second,
    the smoothing step returns two cubes of which the first is nowhere
    above the second. *)
Theorem smoothing_monotone (self : plugin) (c1 c2 : cube) (ax ay : nat)
    (rx ry : Z) (k : ndarray Q) :
  spatial_axes c1 = Ok [ax; ay] ->
  spatial_axes c2 = Ok [ax; ay] ->
  shape (data c1) = shape (data c2) ->
  (ax < List.length (shape (data c1)))%nat ->
  (ay < List.length (shape (data c1)))%nat -> ax <> ay ->
  (1 <= rx)%Z -> (1 <= ry)%Z ->
  build_kernel (unweighted_mode self) (List.length (shape (data c1)))
    [ax; ay] (rx, ry) = Ok k ->
  List.length (elems (data c1)) = size_of (shape (data c1)) ->
  Forall2 cell_le (elems (data c1)) (elems (data c2)) ->
  exists c1' c2',
    _apply_kernel_for_smoothing self c1 (rx, ry) = Ok c1'
    /\ _apply_kernel_for_smoothing self c2 (rx, ry) = Ok c2'
    /\ Forall2 cell_le (elems (data c1')) (elems (data c2')).
Proof.
  intros Hax1 Hax2 Hsh Hx Hy Hne Hrx Hry Hk Hwf Hle.
  assert (Hrx0 : (0 <= fst (rx, ry))%Z) by (cbn [fst]; lia).
  assert (Hry0 : (0 <= snd (rx, ry))%Z) by (cbn [snd]; lia).
  destruct (build_kernel_wf _ _ _ _ _ k Hx Hy Hne Hrx0 Hry0 Hk)
    as [Hksh Hlen].
  pose proof (kernel_sum_positive _ _ _ _ _ _ k Hx Hy Hne Hrx Hry Hk)
    as Hsum.
  pose proof (kernel_nonneg _ _ _ _ _ Hk) as Hnn.
  unfold _apply_kernel_for_smoothing.
  rewrite Hax1, Hax2, <- Hsh. cbn [bind]. rewrite Hk. cbn [bind].
  unfold correlate.
  rewrite <- Hsh, Hksh, length_kernel_shape, Nat.eqb_refl.
  cbn [bind shape elems].
  do 2 eexists. split; [reflexivity|]. split; [reflexivity|].
  cbn [data elems]. rewrite !map_map.
  apply Forall2_map_same. intros i Hi.
  assert (Hpos : (0 < size_of (shape (data c1)))%nat).
  { rewrite <- length_indices.
    destruct (indices (shape (data c1))); [contradiction|]. simpl. lia. }
  destruct (correlate_at_monotone (data c1) (data c2) k i Hsh Hpos Hwf Hle Hnn)
    as [q1 [q2 [H1 [H2 Hq]]]].
  rewrite H1, H2. cbn [cell_div].
  destruct (Qeq_bool (np_sum k) 0) eqn:E.
  - apply Qeq_bool_eq in E. rewrite E in Hsum.
    exfalso. exact (Qlt_irrefl _ Hsum).
  - cbn [cell_le]. unfold Qdiv. apply Qmult_le_compat_r; [exact Hq|].
    apply Qinv_le_0_compat. now apply Qlt_le_weak.
Qed.

Lemma smoothing_monotone_witness :
  exists c1' c2',
    _apply_kernel_for_smoothing (mk_plugin (RFloat 2) None true)
      anisotropic_grid (1, 2)%Z = Ok c1'
    /\ _apply_kernel_for_smoothing (mk_plugin (RFloat 2) None true)
         (mk_cube "flat" (mk_ndarray [3; 3]%nat (repeat (Val 1) 9))
            (coords anisotropic_grid)) (1, 2)%Z = Ok c2'
    /\ Forall2 cell_le (elems (data c1')) (elems (data c2')).
Proof.
  apply (smoothing_monotone (mk_plugin (RFloat 2) None true)
           anisotropic_grid
           (mk_cube "flat" (mk_ndarray [3; 3]%nat (repeat (Val 1) 9))
              (coords anisotropic_grid))
           1%nat 0%nat 1%Z 2%Z
           (mk_ndarray [5; 3]%nat
              [0; 1; 1; 1; 0; 0; 1; 1; 1; 0; 0; 1; 1; 1; 0])).
  - reflexivity.
  - reflexivity.
  - reflexivity.
  - simpl. lia.
  - simpl. lia.
  - discriminate.
  - lia.
  - lia.
  - reflexivity.
  - reflexivity.
  - simpl. repeat constructor; discriminate.
Defined.

(** ** Time slices *)

Lemma filter_map_name (f : coord -> coord) (name : string) (l : list coord) :
  (forall k, coord_name (f k) = coord_name k) ->
  filter (fun k => String.eqb (coord_name k) name) (map f l)
  = map f (filter (fun k => String.eqb (coord_name k) name) l).
Proof.
  intros Hf. induction l as [|k l IH]; [reflexivity|].
  cbn [map filter]. rewrite Hf, IH.
  destruct (String.eqb (coord_name k) name); reflexivity.
Qed.

(** X20. Every slice that [slices_over] takes along the time coordinate
    carries that coordinate as a scalar, and so does the slice once
    smoothed: the new time axis is always given to it, as a leading axis
    of extent one over the smoothed cells. *)
Theorem time_axis_restored (self : plugin) (c : cube) (slices : list cube) :
  slices_over c "time" = Ok slices ->
  forall sl ranges smoothed,
    In sl slices ->
    _apply_kernel_for_smoothing self sl ranges = Ok smoothed ->
    (exists k, cube_coord sl "time" = Ok k /\ coord_dim k = None)
    /\ exists out,
         new_axis smoothed "time" = Ok out
         /\ shape (data out) = 1%nat :: shape (data sl)
         /\ elems (data out) = elems (data smoothed).
Proof.
  intros Hs sl ranges smoothed Hin Happ.
  destruct (apply_kernel_frame self sl smoothed ranges Happ)
    as [_ [Hco Hsh]].
  assert (Hk : exists k, cube_coord sl "time" = Ok k /\ coord_dim k = None).
  { unfold slices_over in Hs.
    destruct (cube_coord c "time") as [k|] eqn:Ek; [|discriminate Hs].
    cbn [bind] in Hs. pose proof (cube_coord_singleton c "time" k Ek) as Hf.
    destruct (coord_dim k) as [axt|] eqn:Ed; apply Ok_inj in Hs; subst slices.
    - apply in_map_iff in Hin. destruct Hin as [i [<- _]].
      exists (slice_coord axt i k). unfold cube_coord, cube_coords in *.
      cbn [coords].
      rewrite (filter_map_name (slice_coord axt i) "time" (coords c)
                 (slice_coord_name axt i)), Hf.
      split; [reflexivity|].
      unfold slice_coord. now rewrite Ed, Nat.eqb_refl.
    - destruct Hin as [<-|[]]. exists k. split; assumption. }
  split; [exact Hk|].
  destruct Hk as [k [Hk Hd]].
  assert (Hk' : cube_coord smoothed "time" = Ok k)
    by (unfold cube_coord, cube_coords in *; now rewrite Hco).
  unfold new_axis. rewrite Hk'. cbn [bind]. rewrite Hd.
  eexists. split; [reflexivity|]. cbn [data shape elems].
  split; [now rewrite Hsh | reflexivity].
Qed.

Lemma time_axis_restored_witness :
  exists slices sl smoothed out,
    slices_over scheduled_cube "time" = Ok slices
    /\ In sl slices
    /\ _apply_kernel_for_smoothing
         (mk_plugin (RList [1; 3]) (Some [0; 6]) true) sl (1, 1)%Z
       = Ok smoothed
    /\ new_axis smoothed "time" = Ok out
    /\ shape (data out) = [1; 3; 3]%nat.
Proof.
  pose (p := mk_plugin (RList [1; 3]) (Some [0; 6]) true).
  pose (slices := match slices_over scheduled_cube "time" with
                  | Ok l => l
                  | Raise _ => []
                  end).
  pose (sl := hd scheduled_cube slices).
  assert (Hs : slices_over scheduled_cube "time" = Ok slices)
    by reflexivity.
  assert (Hin : In sl slices) by (left; reflexivity).
  destruct (_apply_kernel_for_smoothing p sl (1, 1)%Z)
    as [smoothed|] eqn:E; [|vm_compute in E; discriminate E].
  destruct (time_axis_restored p scheduled_cube slices Hs
              sl (1, 1)%Z smoothed Hin E)
    as [_ [out [H1 [H2 _]]]].
  exists slices, sl, smoothed, out.
  split; [exact Hs|]. split; [exact Hin|]. split; [exact E|].
  split; [exact H1 | exact H2].
Defined.
